(** * URL shortener service: redirect cache, link rewriting, short-id allocation

    A shallow embedding of [server/src/index.ts] (the Express server of the
    repository): the in-memory redirect cache ([cacheGet], [cacheSet]), the
    redirect handler [GET /r/:id], the qualification test [isShortenable],
    the allocator [createUrlWithUniqueShortId] and the handler
    [POST /shorten].

    Conventions of the embedding.
    - A JavaScript string is the list of its UTF-16 code units.
    - A JavaScript [Map] is a list of bindings in insertion order, the
      oldest binding first (the order [Map.prototype.keys] iterates in).
    - [Date.now()] is an argument of the function that reads it.
    - Code that awaits the database runs in a state-and-exception monad over
      the world outside the process (database rows, identifier source). *)

From Stdlib Require Import List String Ascii NArith ZArith Bool Arith Lia.
Import ListNotations.

Set Implicit Arguments.

(* ------------------------------------------------------------------ *)
(** ** JavaScript strings *)

Module Js.

(** UTF-16 code units. *)
Definition jsstring := list N.

(** A literal of the source, written with Basic Latin characters. *)
Definition js (s : string) : jsstring :=
  map N_of_ascii (list_ascii_of_string s).

Fixpoint eqb (a b : jsstring) : bool :=
  match a, b with
  | [], [] => true
  | x :: a', y :: b' => N.eqb x y && eqb a' b'
  | _, _ => false
  end.

Definition eq_dec (a b : jsstring) : {a = b} + {a <> b} :=
  list_eq_dec N.eq_dec a b.

(** [s.startsWith(p)] *)
Fixpoint startsWith (s p : jsstring) : bool :=
  match p with
  | [] => true
  | c :: p' =>
      match s with
      | [] => false
      | d :: s' => N.eqb d c && startsWith s' p'
      end
  end.

(** ECMAScript WhiteSpace and LineTerminator code points, the ones
    [String.prototype.trim] strips (all of them are single code units). *)
Definition isWhiteSpace (c : N) : bool :=
  ((9 <=? c) && (c <=? 13) || (c =? 32) || (c =? 160) || (c =? 5760)
   || (8192 <=? c) && (c <=? 8202) || (c =? 8232) || (c =? 8233)
   || (c =? 8239) || (c =? 8287) || (c =? 12288) || (c =? 65279))%N.

Fixpoint trimStart (s : jsstring) : jsstring :=
  match s with
  | [] => []
  | c :: s' => if isWhiteSpace c then trimStart s' else s
  end.

Fixpoint trimEnd (s : jsstring) : jsstring :=
  match s with
  | [] => []
  | c :: s' =>
      match trimEnd s' with
      | [] => if isWhiteSpace c then [] else [c]
      | t => c :: t
      end
  end.

(** [s.trim()] *)
Definition trim (s : jsstring) : jsstring := trimEnd (trimStart s).

(** [s.toLowerCase()] on Basic Latin; other code units are kept.  The
    prefixes tested by the server are Basic Latin, and the only characters
    outside Basic Latin whose lower case contains a Basic Latin letter are
    U+212A (k) and U+0130 (i followed by U+0307): no tested prefix
    contains k, and the combining mark after i prevents a match. *)
Definition lowerUnit (c : N) : N :=
  if ((65 <=? c) && (c <=? 90))%N then (c + 32)%N else c.

Definition toLowerCase (s : jsstring) : jsstring := map lowerUnit s.

(** Truthiness of a string: only the empty string is falsy. *)
Definition truthy (s : jsstring) : bool :=
  match s with [] => false | _ :: _ => true end.

(** [arr.includes(x)] on an array of strings. *)
Definition includes (arr : list jsstring) (x : jsstring) : bool :=
  existsb (fun y => eqb y x) arr.

End Js.

Import Js.
Arguments js : simpl never.

(* ------------------------------------------------------------------ *)
(** ** JavaScript [Map] with string keys *)

Module JsMap.

Definition t (V : Type) := list (jsstring * V).

Section Ops.
Variable V : Type.

(** [m.get(k)]; [None] is [undefined]. *)
Fixpoint get (k : jsstring) (m : t V) : option V :=
  match m with
  | [] => None
  | (k', v) :: m' => if Js.eqb k' k then Some v else get k m'
  end.

(** [m.delete(k)] *)
Fixpoint delete (k : jsstring) (m : t V) : t V :=
  match m with
  | [] => []
  | (k', v) :: m' =>
      if Js.eqb k' k then delete k m' else (k', v) :: delete k m'
  end.

(** [m.set(k, v)]: a key already present keeps its place in the
    iteration order and only its value changes; a new key goes last. *)
Fixpoint set (k : jsstring) (v : V) (m : t V) : t V :=
  match m with
  | [] => [(k, v)]
  | (k', v') :: m' =>
      if Js.eqb k' k then (k', v) :: m' else (k', v') :: set k v m'
  end.

(** [Array.from(m.keys())] *)
Definition keys (m : t V) : list jsstring := map fst m.

(** [m.size] *)
Definition size (m : t V) : nat := List.length m.

End Ops.

End JsMap.

(* ------------------------------------------------------------------ *)
(** ** Redirect cache *)

(** [type CacheEntry = { value: string | null; expiresAt: number }] *)
Record CacheEntry := mkEntry {
  value : option jsstring;   (* [None] is [null], the not-found tombstone *)
  expiresAt : Z
}.

(** The constants the server reads from the environment.  The capacity is a
    natural number and the TTLs are integers (milliseconds). *)
Record Config := mkConfig {
  BASE_URL : jsstring;
  CACHE_MAX_ENTRIES : nat;
  CACHE_TTL_MS : Z;
  CACHE_404_TTL_MS : Z
}.

Definition Cache := JsMap.t CacheEntry.

Section RedirectCache.
Variable cfg : Config.

Definition ttlOf (v : option jsstring) : Z :=
  match v with
  | None => CACHE_404_TTL_MS cfg
  | Some _ => CACHE_TTL_MS cfg
  end.

(** [cacheGet(key)].  [now] is the clock read by the expiry test, [now']
    the clock read when the entry is re-inserted.  The result [None] is
    [undefined] (miss); [Some None] is a cached [null]. *)
Definition cacheGet (key : jsstring) (now now' : Z) (redirectCache : Cache)
  : option (option jsstring) * Cache :=
  match JsMap.get key redirectCache with
  | None => (None, redirectCache)
  | Some entry =>
      if (expiresAt entry <=? now)%Z then
        (None, JsMap.delete key redirectCache)
      else
        let ttl := ttlOf (value entry) in
        let redirectCache := JsMap.delete key redirectCache in
        let redirectCache :=
          JsMap.set key (mkEntry (value entry) (now' + ttl)) redirectCache in
        (Some (value entry), redirectCache)
  end.

(** [cacheSet(key, value)] *)
Definition cacheSet (key : jsstring) (v : option jsstring) (now : Z)
           (redirectCache : Cache) : Cache :=
  let ttl := ttlOf v in
  let redirectCache := JsMap.set key (mkEntry v (now + ttl)) redirectCache in
  if CACHE_MAX_ENTRIES cfg <? JsMap.size redirectCache then
    match JsMap.keys redirectCache with
    | firstKey :: _ => JsMap.delete firstKey redirectCache
    | [] => redirectCache
    end
  else redirectCache.

(** A run of [cacheSet] calls, each with its key, value and clock. *)
Definition cacheSetAll (sets : list (jsstring * option jsstring * Z))
           (redirectCache : Cache) : Cache :=
  fold_left (fun c '(k, v, now) => cacheSet k v now c) sets redirectCache.

End RedirectCache.

(* ------------------------------------------------------------------ *)
(** ** The world outside the process: database and identifier source *)

(** [e.meta?.target], cast by the server to
    [string[] | string | undefined]; [None] is [undefined]. *)
Inductive MetaTarget :=
| TargetArray (fields : list jsstring)
| TargetString (field : jsstring).

(** What a [catch] clause can receive. *)
Inductive Exn :=
| PrismaClientKnownRequestError (code : jsstring) (target : option MetaTarget)
| Error (message : jsstring).

(** A row of the [Url] table; the columns [id] and [createdAt] are never
    read by the server. *)
Record Url := mkUrl {
  shortId : jsstring;
  originalUrl : jsstring
}.

(** The database calls a request makes, for counting them. *)
Inductive StoreCall :=
| FindUnique (id : jsstring)
| FindFirst (url : jsstring)
| Create (id url : jsstring) (created : bool).

Record World := mkWorld {
  urls : list Url;                              (* rows, oldest first *)
  violationTarget : jsstring -> option MetaTarget;
                      (* what the connector reports in [meta.target] for a
                         violated unique field *)
  entropy : nat -> jsstring;                    (* the identifiers [nanoid] will return *)
  drawn : nat;                                  (* how many were returned so far *)
  calls : list StoreCall                        (* newest first *)
}.

Inductive Result (A : Type) :=
| Ok (a : A)
| Throw (e : Exn).
Arguments Ok {A} a.
Arguments Throw {A} e.

(** Computations that await the database: world in, result and world out. *)
Definition M (A : Type) := World -> Result A * World.

Definition ret {A} (a : A) : M A := fun w => (Ok a, w).

Definition throw {A} (e : Exn) : M A := fun w => (Throw e, w).

Definition bind {A B} (m : M A) (k : A -> M B) : M B :=
  fun w =>
    match m w with
    | (Ok a, w') => k a w'
    | (Throw e, w') => (Throw e, w')
    end.

(** [try { m } catch (e) { h(e) }] *)
Definition tryCatch {A} (m : M A) (h : Exn -> M A) : M A :=
  fun w =>
    match m w with
    | (Ok a, w') => (Ok a, w')
    | (Throw e, w') => h e w'
    end.

Declare Scope js_scope.
Delimit Scope js_scope with js.
Notation "x <- m ;; k" := (bind m (fun x => k))
  (at level 61, m at next level, right associativity) : js_scope.
Notation "m ;;; k" := (bind m (fun _ => k))
  (at level 61, right associativity) : js_scope.
Open Scope js_scope.

Definition record (c : StoreCall) (w : World) : World :=
  mkWorld (urls w) (violationTarget w) (entropy w) (drawn w) (c :: calls w).

(** [nanoid(length)]: the next identifier of the source.  The embedding puts
    no constraint on the identifiers, so every sequence of outcomes of the
    random generator is covered. *)
Definition nanoid (length : nat) : M jsstring :=
  fun w =>
    (Ok (entropy w (drawn w)),
     mkWorld (urls w) (violationTarget w) (entropy w) (S (drawn w)) (calls w)).

(** Modelled from the spec: the Prisma client and its database are not in
    the repository.  [findUnique({ where: { shortId } })] is the keyed lookup
    [findByShortId(id) -> Mapping | absent] of section 6. *)
Definition findUnique (id : jsstring) : M (option Url) :=
  fun w =>
    (Ok (find (fun r => Js.eqb (shortId r) id) (urls w)), record (FindUnique id) w).

(** Modelled from the spec: [findFirst({ where: { originalUrl } })] is
    [findByOriginalUrl(url) -> Mapping | absent] of section 6. *)
Definition findFirst (url : jsstring) : M (option Url) :=
  fun w =>
    (Ok (find (fun r => Js.eqb (originalUrl r) url) (urls w)), record (FindFirst url) w).

(** Modelled from the spec: [create({ data: { shortId, originalUrl } })] is
    [create(shortId, originalUrl) -> Mapping] of section 6, which fails with
    a uniqueness violation (Prisma error code P2002) naming the field in
    conflict; both columns are [@unique] in the schema.  A failed create
    leaves the rows as they were.  When both constraints are violated the
    one on [shortId] is the one reported. *)
Definition create (id url : jsstring) : M Url :=
  fun w =>
    if existsb (fun r => Js.eqb (shortId r) id) (urls w) then
      (Throw (PrismaClientKnownRequestError (js "P2002")
                (violationTarget w (js "shortId"))),
       record (Create id url false) w)
    else if existsb (fun r => Js.eqb (originalUrl r) url) (urls w) then
      (Throw (PrismaClientKnownRequestError (js "P2002")
                (violationTarget w (js "originalUrl"))),
       record (Create id url false) w)
    else
      (Ok (mkUrl id url),
       record (Create id url true)
         (mkWorld (urls w ++ [mkUrl id url]) (violationTarget w)
                  (entropy w) (drawn w) (calls w))).

(* ------------------------------------------------------------------ *)
(** ** Short-id allocator *)

(** [Array.isArray(target) ? target : target ? [target] : []] *)
Definition targetsOf (target : option MetaTarget) : list jsstring :=
  match target with
  | Some (TargetArray fields) => fields
  | Some (TargetString field) => if truthy field then [field] else []
  | None => []
  end.

(** The value thrown after the loop:
    [lastError instanceof Error ? lastError : new Error('Failed ...')]. *)
Definition exhausted (lastError : option Exn) : Exn :=
  match lastError with
  | Some e => e
  | None =>
      Error (js "Failed to generate a unique shortId after multiple attempts")
  end.

(** The [for] loop of [createUrlWithUniqueShortId], by the number of
    attempts that remain ([maxAttempts - attempt]). *)
Fixpoint attemptLoop (originalUrl : jsstring) (length : nat)
         (remaining : nat) (lastError : option Exn) : M jsstring :=
  match remaining with
  | O => throw (exhausted lastError)
  | S remaining' =>
      shortId <- nanoid length ;;
      tryCatch
        (create shortId originalUrl ;;; ret shortId)
        (fun e =>
           match e with
           | PrismaClientKnownRequestError code target =>
               if Js.eqb code (js "P2002") then
                 let targets := targetsOf target in
                 if (List.length targets =? 0) || includes targets (js "shortId")
                 then attemptLoop originalUrl length remaining' (Some e)
                 else throw e
               else throw e
           | Error _ => throw e
           end)
  end.

(** [createUrlWithUniqueShortId(originalUrl, length = 8, maxAttempts = 5)] *)
Definition createUrlWithUniqueShortId (originalUrl : jsstring)
           (length maxAttempts : nat) : M jsstring :=
  attemptLoop originalUrl length maxAttempts None.

(* ------------------------------------------------------------------ *)
(** ** Qualification of a link *)

(** [isShortenable(href)]; [None] is [undefined] or [null]. *)
Definition isShortenable (href : option jsstring) : bool :=
  match href with
  | None => false
  | Some href =>
      if negb (truthy href) then false
      else
        let lower := toLowerCase (trim href) in
        if startsWith lower (js "mailto:") then false
        else if startsWith lower (js "tel:") then false
        else if startsWith lower (js "javascript:") then false
        else if startsWith lower (js "#") then false
        else startsWith lower (js "http://") || startsWith lower (js "https://")
  end.

(* ------------------------------------------------------------------ *)
(** ** Documents *)

Inductive LeafKind := TextNode | CommentNode | DirectiveNode.

(** The tree [cheerio.load] builds.  [attribs] is the attribute object of an
    element, in source order. *)
#[local] Unset Elimination Schemes.
Inductive Node :=
| Document (children : list Node)
| Element (name : jsstring) (attribs : JsMap.t jsstring) (children : list Node)
| Leaf (kind : LeafKind) (data : jsstring).
#[local] Set Elimination Schemes.

(** Induction on a document, with the hypothesis on every child. *)
Fixpoint Node_forall_ind (P : Node -> Prop)
         (HD : forall children, Forall P children -> P (Document children))
         (HE : forall name attribs children,
             Forall P children -> P (Element name attribs children))
         (HL : forall kind data, P (Leaf kind data))
         (n : Node) {struct n} : P n :=
  let children_ind :=
    fix go (l : list Node) : Forall P l :=
      match l with
      | [] => Forall_nil P
      | x :: l' => Forall_cons x (Node_forall_ind HD HE HL x) (go l')
      end in
  match n with
  | Document children => HD children (children_ind children)
  | Element name attribs children =>
      HE name attribs children (children_ind children)
  | Leaf kind data => HL kind data
  end.

(** [$(tag)]: the elements named [tag], in document order, each given by its
    attribute object. *)
Fixpoint select (tag : jsstring) (n : Node) : list (JsMap.t jsstring) :=
  match n with
  | Document children => flat_map (select tag) children
  | Element name attribs children =>
      (if Js.eqb name tag then [attribs] else [])
        ++ flat_map (select tag) children
  | Leaf _ _ => []
  end.

(** [$(tag).each((_i, el) => ...)] for a callback that only writes the
    attribute object of [el]. *)
Fixpoint each (tag : jsstring) (f : JsMap.t jsstring -> JsMap.t jsstring)
         (n : Node) : Node :=
  match n with
  | Document children => Document (map (each tag f) children)
  | Element name attribs children =>
      Element name (if Js.eqb name tag then f attribs else attribs)
              (map (each tag f) children)
  | Leaf kind data => Leaf kind data
  end.

Definition attrTargets : list (jsstring * jsstring) :=
  [ (js "a", js "href");
    (js "area", js "href");
    (js "link", js "href");
    (js "img", js "src");
    (js "script", js "src") ].

(** The attribute values the two scanning passes read, in the order they
    read them; [None] where the element lacks the attribute. *)
Definition hrefs (doc : Node) : list (option jsstring) :=
  flat_map (fun '(tag, attr) => map (JsMap.get attr) (select tag doc))
           attrTargets.

(* ------------------------------------------------------------------ *)
(** ** POST /shorten *)

(** Callback of the first pass. *)
Definition collectStep (attr : jsstring) (cache : JsMap.t jsstring)
           (attribs : JsMap.t jsstring) : JsMap.t jsstring :=
  let href := JsMap.get attr attribs in
  if negb (isShortenable href) then cache
  else
    match href with
    | None => cache
    | Some href =>
        match JsMap.get href cache with
        | Some shortUrl =>
            if negb (truthy shortUrl) then JsMap.set href [] cache else cache
        | None => JsMap.set href [] cache
        end
    end.

(** First pass: collect all URLs to shorten. *)
Definition collectPass (doc : Node) : JsMap.t jsstring :=
  fold_left
    (fun cache '(tag, attr) =>
       fold_left (collectStep attr) (select tag doc) cache)
    attrTargets [].

(** [Array.from(new Set(arr))]: first occurrences, in order. *)
Definition arrayFromSet (arr : list jsstring) : list jsstring :=
  fold_left (fun acc x => if includes acc x then acc else acc ++ [x]) arr [].

(** Callback of the last pass. *)
Definition rewriteStep (attr : jsstring) (cache : JsMap.t jsstring)
           (attribs : JsMap.t jsstring) : JsMap.t jsstring :=
  let href := JsMap.get attr attribs in
  if negb (isShortenable href) then attribs
  else
    match href with
    | None => attribs
    | Some href =>
        match JsMap.get href cache with
        | Some shortUrl =>
            if truthy shortUrl then JsMap.set attr shortUrl attribs
            else attribs
        | None => attribs
        end
    end.

(** Last pass: apply replacements. *)
Definition rewritePass (cache : JsMap.t jsstring) (doc : Node) : Node :=
  fold_left (fun doc '(tag, attr) => each tag (rewriteStep attr cache) doc)
            attrTargets doc.

(** The [html] property of a body that [express.json] parsed. *)
Inductive HtmlProperty :=
| HtmlFalsy                     (* missing, or [''], [0], [false], [null] *)
| HtmlString (s : jsstring)     (* a string *)
| HtmlOther (json : jsstring).  (* a truthy value that is no string, as
                                   its JSON text *)

(** A request as the handler reads it, by the branch of its content type.
    [HtmlOrJson raw] is a [text/html] or [application/json] request whose
    [req.body?.html || req.body] is a string ([Some]) or [undefined]
    ([None]: [req.body] was left undefined); [JsonObject body property] is
    a request of these content types whose [req.body] is an object or an
    array, given by its JSON text [body] (what [express.json] parsed, or
    the empty object a body parser leaves where it read nothing), with its
    [html] property. *)
Inductive Request :=
| Multipart (file : option jsstring)   (* [req.file], decoded as UTF-8 *)
| HtmlOrJson (raw : option jsstring)   (* [req.body?.html || req.body] *)
| JsonObject (body : jsstring) (property : HtmlProperty)
| OtherContentType.

(** [req.body?.html || req.body] for a parsed JSON body: a string
    ([inl]), or a value that is no string, as its JSON text ([inr]).  An
    object or an array is truthy, and so is what [||] takes from its left
    side: this value is never falsy. *)
Definition rawOf (body : jsstring) (property : HtmlProperty)
  : jsstring + jsstring :=
  match property with
  | HtmlFalsy => inr body
  | HtmlString s => if truthy s then inl s else inr body
  | HtmlOther json => inr json
  end.

Inductive Response :=
| SendHtml (output : jsstring)                 (* 200, text/html *)
| RedirectTo (url : jsstring)                  (* [res.redirect(url)] *)
| SendText (status : Z) (text : jsstring)
| SendJson (status : Z) (error : jsstring).

Section Server.
Variable cfg : Config.

(** Body of the loop over [uniqueUrls]: look the address up, create a row
    when there is none. *)
Definition resolveOne (originalUrl : jsstring) : M jsstring :=
  existing <- findFirst originalUrl ;;
  match existing with
  | Some existing => ret (shortId existing)
  | None => createUrlWithUniqueShortId originalUrl 8 6
  end.

Fixpoint resolveAll (uniqueUrls : list jsstring) (cache : JsMap.t jsstring)
  : M (JsMap.t jsstring) :=
  match uniqueUrls with
  | [] => ret cache
  | originalUrl :: uniqueUrls' =>
      shortId <- resolveOne originalUrl ;;
      resolveAll uniqueUrls'
        (JsMap.set originalUrl (BASE_URL cfg ++ js "/r/" ++ shortId) cache)
  end.

(** Second pass: persist distinct unique URLs. *)
Definition resolvePass (cache : JsMap.t jsstring) : M (JsMap.t jsstring) :=
  let uniqueUrls := arrayFromSet (JsMap.keys cache) in
  if 0 <? List.length uniqueUrls then resolveAll uniqueUrls cache
  else ret cache.

(** The handler between [cheerio.load] and [$.html()]. *)
Definition shortenDocument (doc : Node) : M Node :=
  cache <- resolvePass (collectPass doc) ;;
  ret (rewritePass cache doc).

(** The parser and the serializer of cheerio are library code.
    [loadValue] is [cheerio.load] on an argument that is no string, given
    by its JSON text; it may throw. *)
Variable load : jsstring -> Node.
Variable html : Node -> jsstring.
Variable loadValue : jsstring -> Result Node.

(** [cheerio.load(html)] where [html] is [rawOf] a parsed JSON body. *)
Definition loadRaw (raw : jsstring + jsstring) : M Node :=
  match raw with
  | inl s => ret (load s)
  | inr json => fun w => (loadValue json, w)
  end.

(** [app.post('/shorten', ...)] *)
Definition shortenHandler (req : Request) (w : World) : Response * World :=
  let body : M Response :=
    match req with
    | Multipart None =>
        ret (SendJson 400 (js "No file uploaded as field " ++ [34%N]
                             ++ js "file" ++ [34%N]))
    | Multipart (Some file) =>
        doc <- shortenDocument (load file) ;;
        ret (SendHtml (html doc))
    | HtmlOrJson None => ret (SendJson 400 (js "Missing HTML content"))
    | HtmlOrJson (Some raw) =>
        if negb (truthy raw) then
          ret (SendJson 400 (js "Missing HTML content"))
        else
          doc <- shortenDocument (load raw) ;;
          ret (SendHtml (html doc))
    | JsonObject body property =>
        (* [!raw] is false: see [rawOf] *)
        parsed <- loadRaw (rawOf body property) ;;
        doc <- shortenDocument parsed ;;
        ret (SendHtml (html doc))
    | OtherContentType => ret (SendJson 415 (js "Unsupported content type"))
    end in
  match body w with
  | (Ok res, w') => (res, w')
  | (Throw _, w') => (SendJson 500 (js "Internal server error"), w')
  end.

(** [app.get('/r/:id', ...)] up to its [await]: the cache is consulted. *)
Definition redirectStart (id : jsstring) (now now' : Z)
           (redirectCache : Cache) : option Response * Cache :=
  match cacheGet cfg id now now' redirectCache with
  | (Some None, c) => (Some (SendText 404 (js "Not found")), c)
  | (Some (Some cached), c) => (Some (RedirectTo cached), c)
  | (None, c) => (None, c)
  end.

(** [app.get('/r/:id', ...)] after its [await], with what the database
    call gave. *)
Definition redirectResume (id : jsstring) (found : Result (option Url))
           (now : Z) (redirectCache : Cache) : Response * Cache :=
  match found with
  | Ok None =>
      (SendText 404 (js "Not found"), cacheSet cfg id None now redirectCache)
  | Ok (Some record) =>
      (RedirectTo (originalUrl record),
       cacheSet cfg id (Some (originalUrl record)) now redirectCache)
  | Throw _ => (SendText 500 (js "Internal server error"), redirectCache)
  end.

(** A redirect request that no other request interleaves with. *)
Definition redirectHandler (id : jsstring) (now now' now'' : Z)
           (redirectCache : Cache) (w : World)
  : Response * Cache * World :=
  match redirectStart id now now' redirectCache with
  | (Some res, c) => (res, c, w)
  | (None, c) =>
      let (found, w') := findUnique id w in
      let (res, c') := redirectResume id found now'' c in
      (res, c', w')
  end.

End Server.

(* ------------------------------------------------------------------ *)
(** ** Vocabulary of the statements *)

(** Key of one [cacheSet] call of a run. *)
Definition setKey (s : jsstring * option jsstring * Z) : jsstring :=
  fst (fst s).

(** The binding one [cacheSet] call writes. *)
Definition setBinding (cfg : Config) (s : jsstring * option jsstring * Z)
  : jsstring * CacheEntry :=
  let '(k, v, now) := s in (k, mkEntry v (now + ttlOf cfg v)).

(** The uniqueness violation of [create], Prisma error code P2002. *)
Definition uniqueViolation (target : option MetaTarget) : Exn :=
  PrismaClientKnownRequestError (js "P2002") target.

(** The world right after [nanoid] returned and [create] failed. *)
Definition afterFailedCreate (id url : jsstring) (w : World) : World :=
  mkWorld (urls w) (violationTarget w) (entropy w) (S (drawn w))
          (Create id url false :: calls w).

(** The world right after [nanoid] returned and [create] inserted a row. *)
Definition afterCreate (id url : jsstring) (w : World) : World :=
  mkWorld (urls w ++ [mkUrl id url]) (violationTarget w) (entropy w)
          (S (drawn w)) (Create id url true :: calls w).

(** The connector reports a violation of the [shortId] constraint in a way
    the allocator retries: no target, or targets that include [shortId]. *)
Definition collisionIsRetried (w : World) : Prop :=
  let targets := targetsOf (violationTarget w (js "shortId")) in
  targets = [] \/ includes targets (js "shortId") = true.

(** The next [n] identifiers of the source are all taken. *)
Definition nextIdsTaken (n : nat) (w : World) : Prop :=
  forall i, i < n -> In (entropy w (drawn w + i)) (map shortId (urls w)).

(** Number of [findFirst] lookups of [url] among the calls [cs]. *)
Definition lookupsOf (url : jsstring) (cs : list StoreCall) : nat :=
  List.length
    (filter (fun c => match c with
                      | FindFirst u => Js.eqb u url
                      | _ => false
                      end) cs).

(** Number of [create] calls for [url] among the calls [cs], failed ones
    included. *)
Definition attemptsFor (url : jsstring) (cs : list StoreCall) : nat :=
  List.length
    (filter (fun c => match c with
                      | Create _ u _ => Js.eqb u url
                      | _ => false
                      end) cs).

(** Number of rows created for [url] among the calls [cs]. *)
Definition createdFor (url : jsstring) (cs : list StoreCall) : nat :=
  List.length
    (filter (fun c => match c with
                      | Create _ u true => Js.eqb u url
                      | _ => false
                      end) cs).

(** The [shortId] column holds no value twice. *)
Definition uniqueShortIds (rows : list Url) : Prop :=
  NoDup (map shortId rows).

(** What the first pass does with one attribute value it reads. *)
Definition collectHref (cache : JsMap.t jsstring) (href : option jsstring)
  : JsMap.t jsstring :=
  if negb (isShortenable href) then cache
  else
    match href with
    | None => cache
    | Some href =>
        match JsMap.get href cache with
        | Some shortUrl =>
            if negb (truthy shortUrl) then JsMap.set href [] cache else cache
        | None => JsMap.set href [] cache
        end
    end.

(** The request-scoped table after the first pass: every key with the
    empty placeholder. *)
Definition placeholders (keys : list jsstring) : JsMap.t jsstring :=
  map (fun k => (k, @nil N)) keys.

(** What the last pass makes of one attribute value it reads. *)
Definition rewriteHref (cache : JsMap.t jsstring) (href : option jsstring)
  : option jsstring :=
  if negb (isShortenable href) then href
  else
    match href with
    | None => None
    | Some h =>
        match JsMap.get h cache with
        | Some shortUrl => if truthy shortUrl then Some shortUrl else href
        | None => href
        end
    end.



(** Two documents that differ at most in the values of targeted attributes
    whose old value qualifies. *)
#[local] Unset Elimination Schemes.
#[local] Set Elimination Schemes.

(** Sample data for closed instances of the statements. *)
Module Sample.

(** The defaults of the server, with cache capacity [C]. *)
Definition cfg (C : nat) : Config :=
  mkConfig (js "http://localhost:4000") C 300000 30000.

Definition idA : jsstring := js "Ab3_xK-9".
Definition idB : jsstring := js "Qw7pL0zT".
Definition idC : jsstring := js "m2Nf8sYe".

Definition urlA : jsstring := js "https://example.com".
Definition urlB : jsstring := js "https://img.example.com/a.png".
Definition urlC : jsstring := js "https://example.org/c".

(** A connector that names the violated field in an array, as SQLite's
does. *)
Definition fieldArray (field : jsstring) : option MetaTarget :=
  Some (TargetArray [field]).

(** A connector that reports no target. *)
Definition noTarget (field : jsstring) : option MetaTarget := None.

Definition world (target : jsstring -> option MetaTarget) (rows : list Url)
           (ids : list jsstring) : World :=
  mkWorld rows target (fun n => nth n ids (js "zzzzzzzz")) 0 [].

(** Two anchors to the same address and one image. *)
Definition doc : Node :=
  Document
    [Element (js "html") []
       [Element (js "body") [(js "class", js "mail")]
          [Element (js "a") [(js "href", urlA); (js "id", js "first")]
                   [Leaf TextNode (js "one")];
           Element (js "p") []
                   [Element (js "a") [(js "href", urlA)]
                            [Leaf TextNode (js "two")];
                    Element (js "a") [(js "href", js "mailto:me@example.com")]
                            [Leaf TextNode (js "mail")]];
           Element (js "img") [(js "src", urlB); (js "alt", js "a")] []]]].

(** A plain serializer, standing for [$.html()] in closed instances. *)
Fixpoint render (n : Node) : jsstring :=
  match n with
  | Document children => flat_map render children
  | Element name attribs children =>
      js "<" ++ name
        ++ flat_map (fun '(k, v) => js " " ++ k ++ js "=" ++ [34%N] ++ v ++ [34%N])
                    attribs
        ++ js ">" ++ flat_map render children ++ js "</" ++ name ++ js ">"
  | Leaf _ data => data
  end.

(** A parser for closed instances: it reads [doc] back from its serialized
    form and takes any other input as one text node. *)
Definition parse (raw : jsstring) : Node :=
  if Js.eqb raw (render doc) then doc else Document [Leaf TextNode raw].

(** The same for any document [d]. *)
Definition parseOf (d : Node) (raw : jsstring) : Node :=
  if Js.eqb raw (render d) then d else Document [Leaf TextNode raw].

(** A [cheerio.load] for closed instances that makes an empty document of
    what is no string. *)
Definition parseValue (json : jsstring) : Result Node := Ok (Document []).

(** A page whose targeted attributes hold nothing that qualifies: a mail
    address, a telephone number, a fragment, two relative paths, an anchor
    without [href]; the absolute address sits in an attribute that is not
    targeted. *)
Definition plainLinks : Node :=
  Document
    [Element (js "html") []
       [Element (js "head") []
          [Element (js "link") [(js "rel", js "stylesheet");
                                (js "href", js "/site.css")] []];
        Element (js "body") []
          [Element (js "a") [(js "href", js "mailto:me@example.com")]
                   [Leaf TextNode (js "write")];
           Element (js "a") [(js "href", js "tel:+15550100")]
                   [Leaf TextNode (js "call")];
           Element (js "a") [(js "href", js "#top")]
                   [Leaf TextNode (js "up")];
           Element (js "a") [(js "name", js "top")] [];
           Element (js "img") [(js "src", js "logo.png")] [];
           Element (js "form") [(js "action", urlA)] []]]].


End Sample.

(* ------------------------------------------------------------------ *)
(** ** The first version of the server

    The repository keeps the first [server/src/index.ts]: no redirect
    cache, and no retry when [create] fails. *)

(** [app.get('/r/:id', ...)] of the first version; a failure of the
    database call is not caught. *)
Definition legacyRedirectHandler (id : jsstring) : M Response :=
  record <- findUnique id ;;
  match record with
  | None => ret (SendText 404 (js "Not found"))
  | Some record => ret (RedirectTo (originalUrl record))
  end.

Section LegacyServer.
Variable cfg : Config.

(** Body of the loop over [uniqueUrls] of the first version: one
    candidate, no [catch]. *)
Definition legacyResolveOne (originalUrl : jsstring) : M jsstring :=
  existing <- findFirst originalUrl ;;
  match existing with
  | Some existing => ret (shortId existing)
  | None =>
      shortId <- nanoid 8 ;;
      create shortId originalUrl ;;;
      ret shortId
  end.

Fixpoint legacyResolveAll (uniqueUrls : list jsstring)
         (cache : JsMap.t jsstring) : M (JsMap.t jsstring) :=
  match uniqueUrls with
  | [] => ret cache
  | originalUrl :: uniqueUrls' =>
      shortId <- legacyResolveOne originalUrl ;;
      legacyResolveAll uniqueUrls'
        (JsMap.set originalUrl (BASE_URL cfg ++ js "/r/" ++ shortId) cache)
  end.

(** The first version between [cheerio.load] and [$.html()]. *)
Definition legacyShortenDocument (doc : Node) : M Node :=
  let cache := collectPass doc in
  cache <- legacyResolveAll (arrayFromSet (JsMap.keys cache)) cache ;;
  ret (rewritePass cache doc).

End LegacyServer.

(* ------------------------------------------------------------------ *)
(** ** Vocabulary of the further statements *)

(** The document [cheerio.load] gives the shorten handler for a request,
    where the handler gets that far. *)
Definition parsedDocument (load : jsstring -> Node)
           (loadValue : jsstring -> Result Node) (req : Request)
  : option Node :=
  match req with
  | Multipart (Some file) => Some (load file)
  | HtmlOrJson (Some raw) => if truthy raw then Some (load raw) else None
  | JsonObject body property =>
      match rawOf body property with
      | inl s => Some (load s)
      | inr json =>
          match loadValue json with
          | Ok parsed => Some parsed
          | Throw _ => None
          end
      end
  | _ => None
  end.

(** The [originalUrl] column holds no value twice. *)
Definition uniqueOriginalUrls (rows : list Url) : Prop :=
  NoDup (map originalUrl rows).

(** The shape the redirect cache keeps: distinct keys, no more entries
    than the capacity. *)
Definition cacheWithinBounds (cfg : Config) (c : Cache) : Prop :=
  NoDup (JsMap.keys c) /\ JsMap.size c <= CACHE_MAX_ENTRIES cfg.

(** One call on the redirect cache, with the clocks it reads. *)
Inductive CacheOp :=
| OpGet (key : jsstring) (now now' : Z)
| OpSet (key : jsstring) (v : option jsstring) (now : Z).

(** A run of calls on the redirect cache, results dropped. *)
Definition cacheRun (cfg : Config) (ops : list CacheOp) (c : Cache) : Cache :=
  fold_left
    (fun c op =>
       match op with
       | OpGet key now now' => snd (cacheGet cfg key now now' c)
       | OpSet key v now => cacheSet cfg key v now c
       end) ops c.

(** Successive [cacheGet] calls of one key, each with its two clocks: the
    results in order, and the cache at the end. *)
Fixpoint cacheGetAll (cfg : Config) (key : jsstring) (clocks : list (Z * Z))
         (c : Cache) : list (option (option jsstring)) * Cache :=
  match clocks with
  | [] => ([], c)
  | (now, now') :: clocks' =>
      let (got, c1) := cacheGet cfg key now now' c in
      let (rest, c2) := cacheGetAll cfg key clocks' c1 in
      (got :: rest, c2)
  end.

(** Each read of [clocks] happens before the expiry the read before it
    set, [ttl] after that read's second clock; [expiry] is the expiry
    before the first read. *)
Fixpoint readsInTime (ttl : Z) (expiry : Z) (clocks : list (Z * Z)) : Prop :=
  match clocks with
  | [] => True
  | (now, now') :: clocks' =>
      (now < expiry)%Z /\ readsInTime ttl (now' + ttl) clocks'
  end.

(* ================================================================== *)
(** * Properties *)

(** ** Strings and maps *)

Lemma eqb_eq (a b : jsstring) : Js.eqb a b = true <-> a = b.
Proof.
  revert b; induction a as [|x a IH]; intros [|y b]; simpl;
    try (split; [discriminate | discriminate]); try tauto.
  rewrite andb_true_iff, N.eqb_eq, IH.
  split; [intros [-> ->]; reflexivity | intros H; inversion H; auto].
Qed.

Lemma eqb_refl (a : jsstring) : Js.eqb a a = true.
Proof. apply eqb_eq; reflexivity. Qed.

Lemma eqb_neq (a b : jsstring) : Js.eqb a b = false <-> a <> b.
Proof.
  rewrite <- eqb_eq. destruct (Js.eqb a b); split; congruence.
Qed.

Lemma eqb_sym (a b : jsstring) : Js.eqb a b = Js.eqb b a.
Proof.
  destruct (Js.eqb a b) eqn:E.
  - apply eqb_eq in E; subst; symmetry; apply eqb_refl.
  - symmetry; apply eqb_neq; apply eqb_neq in E; congruence.
Qed.

Section MapFacts.
Variable V : Type.
Implicit Types (m : JsMap.t V) (k : jsstring) (v : V).

Lemma get_None_iff k m : JsMap.get k m = None <-> ~ In k (JsMap.keys m).
Proof.
  induction m as [|[k' v'] m IH]; simpl.
  - tauto.
  - destruct (Js.eqb k' k) eqn:E.
    + apply eqb_eq in E. split; [discriminate | intros H; exfalso; auto].
    + apply eqb_neq in E. rewrite IH. tauto.
Qed.

Lemma get_Some_In k m v : JsMap.get k m = Some v -> In k (JsMap.keys m).
Proof.
  intros H. destruct (in_dec Js.eq_dec k (JsMap.keys m)) as [|n]; auto.
  apply get_None_iff in n. congruence.
Qed.

Lemma In_get_Some k m : In k (JsMap.keys m) -> exists v, JsMap.get k m = Some v.
Proof.
  intros H. destruct (JsMap.get k m) eqn:E; eauto.
  apply get_None_iff in E. contradiction.
Qed.

Lemma set_absent k v m : JsMap.get k m = None -> JsMap.set k v m = m ++ [(k, v)].
Proof.
  induction m as [|[k' v'] m IH]; simpl; auto.
  destruct (Js.eqb k' k); [discriminate|]. intros H. now rewrite IH.
Qed.

Lemma keys_set_present k v m :
  In k (JsMap.keys m) -> JsMap.keys (JsMap.set k v m) = JsMap.keys m.
Proof.
  induction m as [|[k' v'] m IH]; simpl; [tauto|].
  destruct (Js.eqb k' k) eqn:E; simpl; auto.
  apply eqb_neq in E. intros [H|H]; [congruence|]. now rewrite IH.
Qed.

Lemma get_set_same k v m : JsMap.get k (JsMap.set k v m) = Some v.
Proof.
  induction m as [|[k' v'] m IH]; simpl.
  - now rewrite eqb_refl.
  - destruct (Js.eqb k' k) eqn:E; simpl; rewrite E; auto.
Qed.

Lemma get_set_other k k' v m :
  k <> k' -> JsMap.get k (JsMap.set k' v m) = JsMap.get k m.
Proof.
  intros N. induction m as [|[k0 v0] m IH]; simpl.
  - assert (Js.eqb k' k = false) as -> by (apply eqb_neq; congruence). auto.
  - destruct (Js.eqb k0 k') eqn:E; simpl.
    + apply eqb_eq in E; subst k0.
      assert (Js.eqb k' k = false) as -> by (apply eqb_neq; congruence). auto.
    + destruct (Js.eqb k0 k); auto.
Qed.

Lemma size_set_present k v m :
  In k (JsMap.keys m) -> JsMap.size (JsMap.set k v m) = JsMap.size m.
Proof.
  intros H. unfold JsMap.size.
  rewrite <- (length_map fst (JsMap.set k v m)), <- (length_map fst m).
  fold (JsMap.keys (JsMap.set k v m)). now rewrite keys_set_present.
Qed.

Lemma get_delete_same k m : JsMap.get k (JsMap.delete k m) = None.
Proof.
  induction m as [|[k' v'] m IH]; simpl; auto.
  destruct (Js.eqb k' k) eqn:E; simpl; auto. now rewrite E.
Qed.

Lemma get_delete_other k k' m :
  k <> k' -> JsMap.get k (JsMap.delete k' m) = JsMap.get k m.
Proof.
  intros N. induction m as [|[k0 v0] m IH]; simpl; auto.
  destruct (Js.eqb k0 k') eqn:E; simpl.
  - apply eqb_eq in E; subst k0.
    assert (Js.eqb k' k = false) as -> by (apply eqb_neq; congruence). auto.
  - destruct (Js.eqb k0 k); auto.
Qed.

Lemma delete_absent k m : ~ In k (JsMap.keys m) -> JsMap.delete k m = m.
Proof.
  induction m as [|[k' v'] m IH]; simpl; auto.
  intros H. destruct (Js.eqb k' k) eqn:E.
  - apply eqb_eq in E. tauto.
  - rewrite IH; tauto.
Qed.

Lemma In_keys_delete k k' m :
  In k (JsMap.keys (JsMap.delete k' m)) <-> In k (JsMap.keys m) /\ k <> k'.
Proof.
  induction m as [|[k0 v0] m IH]; simpl; [tauto|].
  destruct (Js.eqb k0 k') eqn:E; simpl.
  - apply eqb_eq in E; subst k0. rewrite IH.
    split; [tauto|]. intros [[H|H] N]; [congruence | tauto].
  - apply eqb_neq in E. rewrite IH.
    split; [intros [H|H]; [subst; tauto | tauto] | tauto].
Qed.

Lemma NoDup_keys_delete k m :
  NoDup (JsMap.keys m) -> NoDup (JsMap.keys (JsMap.delete k m)).
Proof.
  induction m as [|[k0 v0] m IH]; simpl; auto.
  intros H; inversion H as [|? ? Hn Hd]; subst.
  destruct (Js.eqb k0 k); simpl; auto.
  constructor; auto. rewrite In_keys_delete. tauto.
Qed.

Lemma delete_head_NoDup k v m :
  NoDup (JsMap.keys ((k, v) :: m)) -> JsMap.delete k ((k, v) :: m) = m.
Proof.
  simpl. intros H; inversion H; subst. rewrite eqb_refl.
  now apply delete_absent.
Qed.

Lemma size_delete_present k m :
  NoDup (JsMap.keys m) -> In k (JsMap.keys m) ->
  S (JsMap.size (JsMap.delete k m)) = JsMap.size m.
Proof.
  unfold JsMap.size.
  induction m as [|[k0 v0] m IH]; simpl; [tauto|].
  intros H Hin; inversion H as [|? ? Hn Hd]; subst.
  destruct (Js.eqb k0 k) eqn:E.
  - apply eqb_eq in E; subst. now rewrite delete_absent.
  - apply eqb_neq in E. destruct Hin as [|Hin]; [congruence|].
    simpl. now rewrite IH.
Qed.

Lemma keys_app m m' : JsMap.keys (m ++ m') = JsMap.keys m ++ JsMap.keys m'.
Proof. apply map_app. Qed.

End MapFacts.

(* ------------------------------------------------------------------ *)
(** ** Redirect cache *)

(** C6. For a key present in the cache: when the expiry time of its entry
    has passed, [cacheGet] removes the entry and answers a miss; when the
    entry is live, [cacheGet] answers its value, moves the entry to the
    most-recently-used end of the order and sets its expiry to the current
    clock plus the TTL of its kind ([CACHE_TTL_MS] for an address,
    [CACHE_404_TTL_MS] for a tombstone), whatever the expiry was before. *)
Theorem cacheGet_expired_or_refreshed
        (cfg : Config) (key : jsstring) (now now' : Z) (c : Cache)
        (entry : CacheEntry) :
  JsMap.get key c = Some entry ->
  ((expiresAt entry <= now)%Z ->
     cacheGet cfg key now now' c = (None, JsMap.delete key c)
     /\ JsMap.get key (JsMap.delete key c) = None)
  /\ ((now < expiresAt entry)%Z ->
      cacheGet cfg key now now' c =
        (Some (value entry),
         JsMap.delete key c
           ++ [(key, mkEntry (value entry)
                       (now' + match value entry with
                               | Some _ => CACHE_TTL_MS cfg
                               | None => CACHE_404_TTL_MS cfg
                               end))])).
Proof.
  intros Hget. unfold cacheGet. rewrite Hget. split; intros Ht.
  - apply Z.leb_le in Ht. rewrite Ht. split; [reflexivity|].
    apply get_delete_same.
  - apply Z.leb_gt in Ht. rewrite Ht. cbv zeta.
    rewrite set_absent by apply get_delete_same.
    unfold ttlOf. reflexivity.
Qed.

Lemma cacheGet_expired_or_refreshed_witness :
  let c := [(Sample.idA, mkEntry None 130); (Sample.idB, mkEntry None 50)] in
  JsMap.get Sample.idA c = Some (mkEntry None 130)
  /\ (100 < 130)%Z
  /\ cacheGet (Sample.cfg 2) Sample.idA 100 101 c
     = (Some None,
        [(Sample.idB, mkEntry None 50); (Sample.idA, mkEntry None 30101)]).
Proof.
  intros c. split; [reflexivity|]. split; [lia|].
  exact (proj2 (@cacheGet_expired_or_refreshed (Sample.cfg 2) Sample.idA
                  100 101 c (mkEntry None 130) eq_refl) eq_refl).
Defined.

Lemma cacheSet_absent (cfg : Config) (key : jsstring) (v : option jsstring)
      (now : Z) (c : Cache) :
  JsMap.get key c = None ->
  JsMap.size c < CACHE_MAX_ENTRIES cfg ->
  cacheSet cfg key v now c = c ++ [(key, mkEntry v (now + ttlOf cfg v))].
Proof.
  intros Habs Hsz. unfold cacheSet. cbv zeta. rewrite set_absent by assumption.
  unfold JsMap.size in *. rewrite length_app. simpl.
  destruct (Nat.ltb_spec (CACHE_MAX_ENTRIES cfg) (List.length c + 1)); [lia|].
  reflexivity.
Qed.

Lemma cacheSet_present (cfg : Config) (key : jsstring) (v : option jsstring)
      (now : Z) (c : Cache) :
  In key (JsMap.keys c) ->
  JsMap.size c <= CACHE_MAX_ENTRIES cfg ->
  cacheSet cfg key v now c = JsMap.set key (mkEntry v (now + ttlOf cfg v)) c.
Proof.
  intros Hin Hsz. unfold cacheSet. cbv zeta. rewrite size_set_present by assumption.
  destruct (Nat.ltb_spec (CACHE_MAX_ENTRIES cfg) (JsMap.size c)); [lia|].
  reflexivity.
Qed.

(** C7 (the code departs from the claim). Two redirect requests for the same
    identifier both miss the cache and both await the database.  The first
    to resume inserts the entry; a request for another identifier then
    inserts a second entry; the other request resumes and calls [cacheSet]
    on the key that is now present.  The entry keeps its old place, the
    least-recently-used one, and the next insertion over capacity evicts
    it, although it was the entry written last before. *)
Theorem cacheSet_present_key_keeps_position :
  let cfg := Sample.cfg 2 in
  let rowA := Ok (Some (mkUrl Sample.idA Sample.urlA)) in
  let rowB := Ok (Some (mkUrl Sample.idB Sample.urlB)) in
  let rowC := Ok (Some (mkUrl Sample.idC Sample.urlC)) in
  let '(r1, c1) := redirectStart cfg Sample.idA 0 0 [] in
  let '(r2, c2) := redirectStart cfg Sample.idA 1 1 c1 in
  let '(_, c3) := redirectResume cfg Sample.idA rowA 2 c2 in
  let '(r4, c4) := redirectStart cfg Sample.idB 3 3 c3 in
  let '(_, c5) := redirectResume cfg Sample.idB rowB 4 c4 in
  let '(_, c6) := redirectResume cfg Sample.idA rowA 5 c5 in
  let '(r7, c7) := redirectStart cfg Sample.idC 6 6 c6 in
  let '(_, c8) := redirectResume cfg Sample.idC rowC 7 c7 in
  r1 = None /\ r2 = None /\ r4 = None /\ r7 = None
  /\ JsMap.keys c5 = [Sample.idA; Sample.idB]
  /\ c6 = cacheSet cfg Sample.idA (Some Sample.urlA) 5 c5
  /\ JsMap.keys c6 = [Sample.idA; Sample.idB]
  /\ JsMap.get Sample.idA c6 = Some (mkEntry (Some Sample.urlA) 300005)
  /\ JsMap.keys c8 = [Sample.idB; Sample.idC].
Proof. vm_compute. repeat split. Qed.

Lemma cacheSetAll_cons (cfg : Config) (k : jsstring) (v : option jsstring)
      (now : Z) (sets : list (jsstring * option jsstring * Z)) (c : Cache) :
  cacheSetAll cfg ((k, v, now) :: sets) c
  = cacheSetAll cfg sets (cacheSet cfg k v now c).
Proof. reflexivity. Qed.

Lemma cacheSetAll_app (cfg : Config)
      (sets sets' : list (jsstring * option jsstring * Z)) (c : Cache) :
  cacheSetAll cfg (sets ++ sets') c
  = cacheSetAll cfg sets' (cacheSetAll cfg sets c).
Proof. apply fold_left_app. Qed.

Lemma cacheSetAll_below_capacity (cfg : Config)
      (sets : list (jsstring * option jsstring * Z)) (c : Cache) :
  NoDup (JsMap.keys c ++ map setKey sets) ->
  JsMap.size c + List.length sets <= CACHE_MAX_ENTRIES cfg ->
  cacheSetAll cfg sets c = c ++ map (setBinding cfg) sets.
Proof.
  revert c. induction sets as [|[[k v] now] sets IH]; intros c Hnd Hsz.
  - simpl. now rewrite app_nil_r.
  - simpl in Hsz, Hnd. rewrite cacheSetAll_cons.
    rewrite cacheSet_absent.
    + rewrite IH.
      * simpl. now rewrite <- app_assoc.
      * rewrite keys_app, <- app_assoc. exact Hnd.
      * unfold JsMap.size in *. rewrite length_app. simpl. lia.
    + apply get_None_iff. intros Hin.
      apply NoDup_remove_2 in Hnd. apply Hnd, in_or_app. auto.
    + lia.
Qed.

Lemma cacheSet_invariant (cfg : Config) (key : jsstring)
      (v : option jsstring) (now : Z) (c : Cache) :
  NoDup (JsMap.keys c) -> JsMap.size c <= CACHE_MAX_ENTRIES cfg ->
  NoDup (JsMap.keys (cacheSet cfg key v now c))
  /\ JsMap.size (cacheSet cfg key v now c) <= CACHE_MAX_ENTRIES cfg.
Proof.
  intros Hnd Hsz.
  destruct (JsMap.get key c) eqn:Hget.
  - apply get_Some_In in Hget. rewrite cacheSet_present by assumption.
    rewrite keys_set_present, size_set_present by assumption. auto.
  - unfold cacheSet. cbv zeta. rewrite set_absent by assumption.
    assert (Hnd' : NoDup (JsMap.keys (c ++ [(key, mkEntry v (now + ttlOf cfg v))]))).
    { rewrite keys_app. simpl. apply NoDup_app; auto.
      - repeat constructor. intros [].
      - intros x Hx [<-|[]]. apply get_None_iff in Hget. contradiction. }
    destruct (Nat.ltb_spec (CACHE_MAX_ENTRIES cfg)
                (JsMap.size (c ++ [(key, mkEntry v (now + ttlOf cfg v))]))) as [Hlt|Hle].
    + destruct (JsMap.keys (c ++ [(key, mkEntry v (now + ttlOf cfg v))])) as [|k0 ks] eqn:Hk.
      * unfold JsMap.size in Hlt, Hsz. rewrite length_app in Hlt. simpl in Hlt.
        destruct c; discriminate.
      * rewrite <- Hk in Hnd'.
        split; [now apply NoDup_keys_delete|].
        assert (Hin : In k0 (JsMap.keys (c ++ [(key, mkEntry v (now + ttlOf cfg v))])))
          by (rewrite Hk; left; reflexivity).
        pose proof (size_delete_present k0 _ Hnd' Hin) as Hs.
        unfold JsMap.size in *. rewrite length_app in Hs. simpl in Hs. lia.
    + auto.
Qed.

Lemma cacheSetAll_invariant (cfg : Config)
      (run : list (jsstring * option jsstring * Z)) (c : Cache) :
  NoDup (JsMap.keys c) -> JsMap.size c <= CACHE_MAX_ENTRIES cfg ->
  NoDup (JsMap.keys (cacheSetAll cfg run c))
  /\ JsMap.size (cacheSetAll cfg run c) <= CACHE_MAX_ENTRIES cfg.
Proof.
  revert c. induction run as [|[[k v] now] run IH]; intros c Hnd Hsz; auto.
  destruct (cacheSet_invariant cfg k v now c Hnd Hsz) as [H1 H2].
  rewrite cacheSetAll_cons. apply IH; assumption.
Qed.

Lemma keys_setBinding (cfg : Config) (sets : list (jsstring * option jsstring * Z)) :
  JsMap.keys (map (setBinding cfg) sets) = map setKey sets.
Proof.
  unfold JsMap.keys. rewrite map_map. apply map_ext.
  intros [[k v] now]. reflexivity.
Qed.

Lemma cacheSetAll_fill (cfg : Config)
      (sets : list (jsstring * option jsstring * Z)) :
  NoDup (map setKey sets) ->
  List.length sets <= CACHE_MAX_ENTRIES cfg ->
  cacheSetAll cfg sets [] = map (setBinding cfg) sets.
Proof.
  intros Hnd Hlen.
  now rewrite cacheSetAll_below_capacity.
Qed.

Lemma cacheSet_over_capacity (cfg : Config) (key : jsstring)
      (v : option jsstring) (now : Z) (k0 : jsstring) (e0 : CacheEntry)
      (c : Cache) :
  NoDup (k0 :: JsMap.keys c ++ [key]) ->
  S (JsMap.size c) = CACHE_MAX_ENTRIES cfg ->
  cacheSet cfg key v now ((k0, e0) :: c)
  = c ++ [(key, mkEntry v (now + ttlOf cfg v))].
Proof.
  intros Hnd Hsz. unfold cacheSet. cbv zeta.
  rewrite set_absent.
  - unfold JsMap.size in *. simpl. rewrite length_app. simpl.
    destruct (Nat.ltb_spec (CACHE_MAX_ENTRIES cfg) (S (List.length c + 1))); [|lia].
    rewrite eqb_refl. apply delete_absent.
    rewrite keys_app. simpl. now inversion Hnd.
  - apply get_None_iff. simpl. intros [->|Hin].
    + inversion Hnd as [|? ? Hn _]. apply Hn, in_or_app. simpl; auto.
    + inversion Hnd as [|? ? _ Hd]. apply NoDup_remove_2 in Hd.
      rewrite app_nil_r in Hd. contradiction.
Qed.

Lemma NoDup_app_disjoint (A : Type) (l1 l2 : list A) (x : A) :
  NoDup (l1 ++ l2) -> In x l1 -> ~ In x l2.
Proof.
  induction l1 as [|a l1 IH]; simpl; intros Hnd Hin; [contradiction|].
  inversion Hnd as [|? ? Hn Hd]; subst. destruct Hin as [->|Hin].
  - intros Hx. apply Hn, in_or_app. now right.
  - now apply IH.
Qed.

(** A successful [cacheGet] moves its key behind the other keys and keeps
    the number of entries. *)
Lemma cacheGet_hit_moves_key (cfg : Config) (key : jsstring) (now now' : Z)
      (c : Cache) (v : option jsstring) :
  fst (cacheGet cfg key now now' c) = Some v ->
  In key (JsMap.keys c)
  /\ exists entry,
       snd (cacheGet cfg key now now' c) = JsMap.delete key c ++ [(key, entry)].
Proof.
  unfold cacheGet.
  destruct (JsMap.get key c) as [entry|] eqn:Hget; [|discriminate].
  destruct (expiresAt entry <=? now)%Z; [discriminate|].
  cbv zeta. simpl fst. simpl snd. intros _.
  split; [now apply get_Some_In in Hget|].
  rewrite set_absent by apply get_delete_same. eauto.
Qed.

(** C5 (amended). With capacity [C], [C+1] calls of [cacheSet] for distinct
    keys on an empty cache, with no [cacheGet] in between, leave exactly the
    bindings of all keys but the first-inserted one, in insertion order; no
    run of [cacheSet] calls leaves more than [C] entries; and a successful
    [cacheGet] of a key anywhere between the first [C] sets keeps that key
    in the cache through the [(C+1)]-th set exactly when at least two of
    the sets came before the read, that is when the key was not the only
    entry as it was read. *)
Theorem cacheSet_evicts_first_inserted
        (cfg : Config) (sets : list (jsstring * option jsstring * Z))
        (new : jsstring * option jsstring * Z) :
  List.length sets = CACHE_MAX_ENTRIES cfg ->
  NoDup (map setKey (sets ++ [new])) ->
  cacheSetAll cfg (sets ++ [new]) []
    = tl (map (setBinding cfg) (sets ++ [new]))
  /\ (forall run, JsMap.size (cacheSetAll cfg run []) <= CACHE_MAX_ENTRIES cfg)
  /\ (forall before after key now now' v,
        sets = before ++ after ->
        fst (cacheGet cfg key now now' (cacheSetAll cfg before [])) = Some v ->
        (In key
            (JsMap.keys
               (cacheSetAll cfg (after ++ [new])
                  (snd (cacheGet cfg key now now'
                          (cacheSetAll cfg before [])))))
         <-> 2 <= List.length before)).
Proof.
  intros Hlen Hnd.
  assert (Hnd0 : NoDup (map setKey sets)).
  { rewrite map_app in Hnd. now apply NoDup_app_remove_r in Hnd. }
  assert (Hfill : cacheSetAll cfg sets [] = map (setBinding cfg) sets)
    by (apply cacheSetAll_fill; [assumption | lia]).
  split; [|split].
  - destruct new as [[kn vn] tn].
    rewrite cacheSetAll_app, Hfill. rewrite map_app. simpl map at 2.
    change (cacheSetAll cfg [(kn, vn, tn)] (map (setBinding cfg) sets))
      with (cacheSet cfg kn vn tn (map (setBinding cfg) sets)).
    destruct sets as [|[[k0 v0] t0] sets].
    + simpl in *. unfold cacheSet. simpl. rewrite <- Hlen. simpl.
      now rewrite eqb_refl.
    + simpl. rewrite cacheSet_over_capacity; [reflexivity | |].
      * rewrite keys_setBinding. rewrite map_app in Hnd. exact Hnd.
      * unfold JsMap.size. rewrite length_map. simpl in Hlen. lia.
  - intros run. apply cacheSetAll_invariant; simpl; [constructor | lia].
  - intros before after key now now' v Hsets Hhit. subst sets.
    rewrite length_app in Hlen.
    rewrite <- app_assoc, map_app in Hnd.
    pose proof (NoDup_app_remove_r _ _ Hnd) as Hndb.
    pose proof (NoDup_app_remove_l _ _ Hnd) as Hnda.
    rewrite cacheSetAll_fill in * by (assumption || lia).
    set (c0 := map (setBinding cfg) before) in *.
    assert (Hk0 : JsMap.keys c0 = map setKey before) by apply keys_setBinding.
    assert (Hnd1 : NoDup (JsMap.keys c0)) by (now rewrite Hk0).
    assert (Hs0 : JsMap.size c0 = List.length before).
    { unfold JsMap.size, c0. now rewrite length_map. }
    destruct (cacheGet_hit_moves_key _ _ _ _ _ Hhit) as (Hin & e' & Hread).
    rewrite Hread. clear Hhit Hread.
    pose proof (size_delete_present key c0 Hnd1 Hin) as Hsd.
    assert (Hout : ~ In key (map setKey (after ++ [new]))).
    { apply NoDup_app_disjoint with (l1 := map setKey before);
        [exact Hnd | now rewrite <- Hk0]. }
    assert (Hself : ~ In key (JsMap.keys (JsMap.delete key c0))).
    { rewrite In_keys_delete. tauto. }
    assert (Hndr : NoDup (JsMap.keys (JsMap.delete key c0 ++ [(key, e')])
                            ++ map setKey (after ++ [new]))).
    { apply NoDup_app; [| exact Hnda |].
      - rewrite keys_app. apply NoDup_app.
        + now apply NoDup_keys_delete.
        + repeat constructor. intros [].
        + intros x Hx [<-|[]]. contradiction.
      - intros x Hx. rewrite keys_app in Hx. apply in_app_or in Hx.
        destruct Hx as [Hx|[<-|[]]]; [|exact Hout].
        apply In_keys_delete in Hx. destruct Hx as [Hx _].
        apply NoDup_app_disjoint with (l1 := map setKey before);
          [exact Hnd | now rewrite <- Hk0]. }
    rewrite cacheSetAll_app.
    rewrite cacheSetAll_below_capacity with (sets := after).
    2:{ rewrite map_app, app_assoc in Hndr.
        now apply NoDup_app_remove_r in Hndr. }
    2:{ unfold JsMap.size in *. rewrite length_app. simpl. lia. }
    destruct new as [[kn vn] tn].
    change (cacheSetAll cfg [(kn, vn, tn)] ?c) with (cacheSet cfg kn vn tn c).
    rewrite map_app in Hndr, Hout. simpl map in Hndr, Hout.
    unfold setKey at 2 in Hndr. simpl fst in Hndr.
    destruct (JsMap.delete key c0) as [|[k1 e1] rest] eqn:Hdel.
    + (* [key] was the only entry: it is the oldest again *)
      simpl app in *.
      rewrite cacheSet_over_capacity.
      * split.
        -- intros Hx. exfalso. apply Hout.
           rewrite keys_app, keys_setBinding in Hx. exact Hx.
        -- unfold JsMap.size in *. simpl in Hsd. lia.
      * rewrite keys_setBinding. exact Hndr.
      * unfold JsMap.size in *. rewrite length_map. simpl in Hsd. lia.
    + simpl app in *.
      rewrite cacheSet_over_capacity.
      * split.
        -- intros _. unfold JsMap.size in *. simpl in Hsd. lia.
        -- intros _. rewrite !keys_app. simpl.
           apply in_or_app. left. apply in_or_app. left.
           apply in_or_app. right. simpl; auto.
      * rewrite !keys_app, keys_setBinding.
        rewrite keys_app in Hndr. simpl in Hndr |- *.
        rewrite <- !app_assoc in Hndr |- *. simpl in Hndr |- *.
        rewrite <- !app_assoc. simpl. exact Hndr.
      * unfold JsMap.size in *. simpl in Hsd.
        rewrite !length_app, length_map. simpl. lia.
Qed.

Ltac distinct_keys :=
  repeat constructor; vm_compute;
  repeat (let H := fresh in intros [H|H]; [discriminate H | revert H]);
  intros [].

Lemma cacheSet_evicts_first_inserted_witness :
  let cfg := Sample.cfg 2 in
  let before := [(Sample.idA, Some Sample.urlA, 0%Z); (Sample.idB, None, 1%Z)] in
  let new := (Sample.idC, Some Sample.urlC, 3%Z) in
  List.length before = CACHE_MAX_ENTRIES cfg
  /\ NoDup (map setKey (before ++ [new]))
  /\ cacheSetAll cfg (before ++ [new]) []
     = [(Sample.idB, mkEntry None 30001);
        (Sample.idC, mkEntry (Some Sample.urlC) 300003)]
  /\ fst (cacheGet cfg Sample.idA 2 2 (cacheSetAll cfg before []))
     = Some (Some Sample.urlA)
  /\ cacheSetAll cfg [new]
       (snd (cacheGet cfg Sample.idA 2 2 (cacheSetAll cfg before [])))
     = [(Sample.idA, mkEntry (Some Sample.urlA) 300002);
        (Sample.idC, mkEntry (Some Sample.urlC) 300003)]
  /\ In Sample.idA
        (JsMap.keys
           (cacheSetAll cfg ([] ++ [new])
              (snd (cacheGet cfg Sample.idA 2 2
                      (cacheSetAll cfg before []))))).
Proof.
  intros cfg before new.
  assert (Hnd : NoDup (map setKey (before ++ [new]))) by distinct_keys.
  pose proof (@cacheSet_evicts_first_inserted cfg before new eq_refl Hnd)
    as (Hfirst & _ & Hread).
  split; [reflexivity|]. split; [exact Hnd|]. split; [exact Hfirst|].
  split; [reflexivity|]. split; [reflexivity|].
  apply (Hread before [] Sample.idA 2%Z 2%Z (Some Sample.urlA)).
  - now rewrite app_nil_r.
  - reflexivity.
  - simpl. lia.
Defined.

(** C5 as stated fails for a read of the only entry.  At capacity 1 the
    key that was read is evicted by the second set; at capacity 2 a key
    that is read before the second set is the oldest entry again after
    it, and the third set evicts it. *)
Lemma cacheGet_on_only_entry_does_not_protect :
  (let cfg := Sample.cfg 1 in
   let c := cacheSetAll cfg [(Sample.idA, Some Sample.urlA, 0%Z)] [] in
   fst (cacheGet cfg Sample.idA 1 1 c) = Some (Some Sample.urlA)
   /\ JsMap.keys
        (cacheSet cfg Sample.idB (Some Sample.urlB) 2
           (snd (cacheGet cfg Sample.idA 1 1 c))) = [Sample.idB]
   /\ ~ In Sample.idA
        (JsMap.keys
           (cacheSet cfg Sample.idB (Some Sample.urlB) 2
              (snd (cacheGet cfg Sample.idA 1 1 c)))))
  /\ (let cfg := Sample.cfg 2 in
      let c1 := cacheSet cfg Sample.idA (Some Sample.urlA) 0 [] in
      let '(got, c2) := cacheGet cfg Sample.idA 1 1 c1 in
      let c3 := cacheSet cfg Sample.idB (Some Sample.urlB) 2 c2 in
      let c4 := cacheSet cfg Sample.idC (Some Sample.urlC) 3 c3 in
      got = Some (Some Sample.urlA)
      /\ JsMap.keys c3 = [Sample.idA; Sample.idB]
      /\ JsMap.keys c4 = [Sample.idB; Sample.idC]
      /\ ~ In Sample.idA (JsMap.keys c4)).
Proof.
  split.
  - vm_compute. split; [reflexivity|]. split; [reflexivity|].
    intros [H|[]]. discriminate H.
  - vm_compute. repeat (split; [reflexivity|]).
    intros [H|[H|[]]]; discriminate H.
Qed.

(* ------------------------------------------------------------------ *)
(** ** Qualification of a link *)

Lemma startsWith_head (s p : jsstring) (c : N) :
  startsWith s (c :: p) = true -> exists s', s = c :: s'.
Proof.
  destruct s as [|d s']; simpl; [discriminate|].
  intros H. apply andb_true_iff in H. destruct H as [H _].
  apply N.eqb_eq in H. subst. eauto.
Qed.

Lemma http_excludes_other_schemes (lower : jsstring) :
  startsWith lower (js "http://") || startsWith lower (js "https://") = true ->
  startsWith lower (js "mailto:") = false
  /\ startsWith lower (js "tel:") = false
  /\ startsWith lower (js "javascript:") = false
  /\ startsWith lower (js "#") = false.
Proof.
  intros H. apply orb_true_iff in H.
  assert (Hh : exists l, lower = 104%N :: l).
  { destruct H as [H|H].
    - exact (@startsWith_head lower (js "ttp://") 104%N H).
    - exact (@startsWith_head lower (js "ttps://") 104%N H). }
  destruct Hh as [l ->]. repeat split; reflexivity.
Qed.

Example isShortenable_samples :
  isShortenable (Some (js "  HTTPS://Example.com/x ")) = true
  /\ isShortenable (Some (160%N :: js "http://example.com")) = true
  /\ isShortenable (Some (js "mailto:me@example.com")) = false
  /\ isShortenable (Some (js "JavaScript:void(0)")) = false
  /\ isShortenable (Some (js "#top")) = false
  /\ isShortenable (Some (js "ftp://example.com")) = false
  /\ isShortenable (Some (js "//example.com/x")) = false
  /\ isShortenable (Some (js "httpx://example.com")) = false.
Proof. vm_compute. repeat split. Qed.

(** C4. A value qualifies exactly when it is present and, trimmed and
    lower-cased, begins with [http://] or [https://]; an absent value, the
    empty string, and a value that (trimmed and lower-cased) begins with
    [mailto:], [tel:], [javascript:] or [#] do not qualify. *)
Theorem isShortenable_iff_http_or_https (href : option jsstring) :
  (isShortenable href = true <->
   exists s, href = Some s
             /\ (startsWith (toLowerCase (trim s)) (js "http://") = true
                 \/ startsWith (toLowerCase (trim s)) (js "https://") = true))
  /\ isShortenable None = false
  /\ isShortenable (Some []) = false
  /\ (forall s p,
        In p [js "mailto:"; js "tel:"; js "javascript:"; js "#"] ->
        startsWith (toLowerCase (trim s)) p = true ->
        isShortenable (Some s) = false).
Proof.
  split; [|split; [reflexivity | split; [reflexivity|]]].
  - destruct href as [s|]; simpl.
    + destruct s as [|c s]; simpl negb; cbv iota.
      * split; [discriminate|]. intros (s & Hs & H). inversion Hs; subst.
        destruct H as [H|H]; discriminate H.
      * set (lower := toLowerCase (trim (c :: s))).
        split.
        -- intros H.
           destruct (startsWith lower (js "mailto:")); [discriminate|].
           destruct (startsWith lower (js "tel:")); [discriminate|].
           destruct (startsWith lower (js "javascript:")); [discriminate|].
           destruct (startsWith lower (js "#")); [discriminate|].
           exists (c :: s). split; [reflexivity|].
           now apply orb_true_iff.
        -- intros (s' & Hs & H). inversion Hs; subst s'. fold lower in H.
           apply orb_true_iff in H.
           destruct (http_excludes_other_schemes _ H) as (-> & -> & -> & ->).
           exact H.
    + split; [discriminate|]. intros (s & Hs & _). discriminate Hs.
  - intros s p Hp Hstart. unfold isShortenable.
    destruct (negb (truthy s)); [reflexivity|]. cbv zeta.
    simpl in Hp.
    destruct Hp as [<-|[<-|[<-|[<-|[]]]]]; rewrite Hstart;
      repeat match goal with
             | |- (if ?b then false else _) = false =>
                 destruct b; [reflexivity|]
             end; reflexivity.
Qed.

(* ------------------------------------------------------------------ *)
(** ** Short-id allocator *)

Lemma existsb_shortId (id : jsstring) (rows : list Url) :
  existsb (fun r => Js.eqb (shortId r) id) rows = true
  <-> In id (map shortId rows).
Proof.
  rewrite existsb_exists, in_map_iff. split.
  - intros (r & Hr & E). apply eqb_eq in E. eauto.
  - intros (r & E & Hr). exists r. split; [assumption|]. now apply eqb_eq.
Qed.

Lemma existsb_originalUrl (url : jsstring) (rows : list Url) :
  existsb (fun r => Js.eqb (originalUrl r) url) rows = true
  <-> In url (map originalUrl rows).
Proof.
  rewrite existsb_exists, in_map_iff. split.
  - intros (r & Hr & E). apply eqb_eq in E. eauto.
  - intros (r & E & Hr). exists r. split; [assumption|]. now apply eqb_eq.
Qed.

Lemma existsb_false_iff {A} (f : A -> bool) (l : list A) (P : Prop) :
  (existsb f l = true <-> P) -> (existsb f l = false <-> ~ P).
Proof. destruct (existsb f l); intuition congruence. Qed.

(** One turn of the loop, by what [create] answers. *)
Lemma attemptLoop_created (url : jsstring) (length remaining : nat)
      (lastError : option Exn) (w : World) :
  ~ In (entropy w (drawn w)) (map shortId (urls w)) ->
  ~ In url (map originalUrl (urls w)) ->
  attemptLoop url length (S remaining) lastError w
  = (Ok (entropy w (drawn w)), afterCreate (entropy w (drawn w)) url w).
Proof.
  intros Hid Hurl.
  apply (existsb_false_iff _ _ (existsb_shortId _ _)) in Hid.
  apply (existsb_false_iff _ _ (existsb_originalUrl _ _)) in Hurl.
  simpl. unfold bind, tryCatch, nanoid, create. simpl.
  rewrite Hid, Hurl. reflexivity.
Qed.

Lemma create_taken_shortId (id url : jsstring) (w : World) :
  In id (map shortId (urls w)) ->
  create id url w
  = (Throw (uniqueViolation (violationTarget w (js "shortId"))),
     record (Create id url false) w).
Proof.
  intros Hid. apply existsb_shortId in Hid. unfold create. now rewrite Hid.
Qed.

Lemma create_taken_originalUrl (id url : jsstring) (w : World) :
  ~ In id (map shortId (urls w)) ->
  In url (map originalUrl (urls w)) ->
  create id url w
  = (Throw (uniqueViolation (violationTarget w (js "originalUrl"))),
     record (Create id url false) w).
Proof.
  intros Hid Hurl.
  apply (existsb_false_iff _ _ (existsb_shortId _ _)) in Hid.
  apply existsb_originalUrl in Hurl. unfold create. now rewrite Hid, Hurl.
Qed.

Lemma create_fails_unchanged (id url : jsstring) (w w1 : World) (e : Exn) :
  create id url w = (Throw e, w1) -> w1 = record (Create id url false) w.
Proof.
  unfold create.
  destruct (existsb _ (urls w)); [now inversion 1|].
  destruct (existsb _ (urls w)); [now inversion 1|]. discriminate.
Qed.

Lemma attemptLoop_create_fails (url : jsstring) (length remaining : nat)
      (lastError : option Exn) (w w1 : World) (target : option MetaTarget) :
  create (entropy w (drawn w)) url (snd (nanoid length w))
  = (Throw (uniqueViolation target), w1) ->
  w1 = afterFailedCreate (entropy w (drawn w)) url w
  /\ attemptLoop url length (S remaining) lastError w
     = if (List.length (targetsOf target) =? 0)
          || includes (targetsOf target) (js "shortId")
       then attemptLoop url length remaining
                        (Some (uniqueViolation target)) w1
       else (Throw (uniqueViolation target), w1).
Proof.
  intros Hc. split.
  - apply create_fails_unchanged in Hc. exact Hc.
  - simpl. unfold bind at 1. unfold nanoid at 1.
    unfold tryCatch, bind. simpl in Hc. rewrite Hc.
    unfold uniqueViolation. rewrite eqb_refl. cbv zeta.
    destruct ((List.length (targetsOf target) =? 0)
              || includes (targetsOf target) (js "shortId")); reflexivity.
Qed.

(** C10. When [create] fails with a uniqueness violation whose target is
    absent or empty, the loop does not rethrow: it goes on with one attempt
    less, the error kept as [lastError], in the world where the candidate
    was consumed (the next [nanoid] call gives the next identifier) and no
    row was written. *)
Theorem violation_without_target_is_retried
        (url : jsstring) (length remaining : nat) (lastError : option Exn)
        (w w1 : World) (target : option MetaTarget) :
  create (entropy w (drawn w)) url (snd (nanoid length w))
  = (Throw (uniqueViolation target), w1) ->
  targetsOf target = [] ->
  attemptLoop url length (S remaining) lastError w
  = attemptLoop url length remaining (Some (uniqueViolation target)) w1
  /\ w1 = afterFailedCreate (entropy w (drawn w)) url w.
Proof.
  intros Hc Ht.
  destruct (@attemptLoop_create_fails url length remaining lastError w w1 target Hc)
    as [Hw Hloop].
  split; [|exact Hw]. rewrite Hloop, Ht. reflexivity.
Qed.

Lemma violation_without_target_is_retried_witness :
  let w := Sample.world Sample.noTarget
             [mkUrl Sample.idA Sample.urlA] [Sample.idA; Sample.idB] in
  let w1 := afterFailedCreate Sample.idA Sample.urlB w in
  create (entropy w (drawn w)) Sample.urlB (snd (nanoid 8 w))
  = (Throw (uniqueViolation None), w1)
  /\ targetsOf None = []
  /\ attemptLoop Sample.urlB 8 6 None w
     = attemptLoop Sample.urlB 8 5 (Some (uniqueViolation None)) w1
  /\ fst (attemptLoop Sample.urlB 8 6 None w) = Ok Sample.idB.
Proof.
  intros w w1.
  assert (Hc : create (entropy w (drawn w)) Sample.urlB (snd (nanoid 8 w))
               = (Throw (uniqueViolation None), w1)) by reflexivity.
  split; [exact Hc|]. split; [reflexivity|].
  split; [|vm_compute; reflexivity].
  exact (proj1 (@violation_without_target_is_retried Sample.urlB 8 5 None
                  w w1 None Hc eq_refl)).
Defined.

(** C1 (amended). When [create] fails with a uniqueness violation whose
    targets are not empty and do not include [shortId] (the violation is on
    [originalUrl]), the allocator rethrows that error at once: no further
    attempt, no lookup by [originalUrl], no row written. *)
Theorem violation_on_other_field_is_rethrown
        (url : jsstring) (length remaining : nat) (lastError : option Exn)
        (w w1 : World) (target : option MetaTarget) :
  create (entropy w (drawn w)) url (snd (nanoid length w))
  = (Throw (uniqueViolation target), w1) ->
  targetsOf target <> [] ->
  includes (targetsOf target) (js "shortId") = false ->
  attemptLoop url length (S remaining) lastError w
  = (Throw (uniqueViolation target), w1)
  /\ urls w1 = urls w
  /\ calls w1 = Create (entropy w (drawn w)) url false :: calls w.
Proof.
  intros Hc Hne Hinc.
  destruct (@attemptLoop_create_fails url length remaining lastError w w1 target Hc)
    as [Hw Hloop].
  rewrite Hloop, Hinc.
  destruct (targetsOf target); [congruence|]. simpl.
  subst w1. auto.
Qed.

Lemma violation_on_other_field_is_rethrown_witness :
  let w := Sample.world Sample.fieldArray
             [mkUrl Sample.idA Sample.urlA] [Sample.idB; Sample.idC] in
  let target := Some (TargetArray [js "originalUrl"]) in
  let w1 := afterFailedCreate Sample.idB Sample.urlA w in
  create (entropy w (drawn w)) Sample.urlA (snd (nanoid 8 w))
  = (Throw (uniqueViolation target), w1)
  /\ targetsOf target <> []
  /\ includes (targetsOf target) (js "shortId") = false
  /\ createUrlWithUniqueShortId Sample.urlA 8 6 w
     = (Throw (uniqueViolation target), w1).
Proof.
  intros w target w1.
  assert (Hc : create (entropy w (drawn w)) Sample.urlA (snd (nanoid 8 w))
               = (Throw (uniqueViolation target), w1)) by reflexivity.
  assert (Hne : targetsOf target <> []) by discriminate.
  split; [exact Hc|]. split; [exact Hne|]. split; [reflexivity|].
  exact (proj1 (@violation_on_other_field_is_rethrown Sample.urlA 8 5 None
                  w w1 target Hc Hne eq_refl)).
Defined.

(** C1 as stated fails. Two shorten requests carry the same new address.
    The first looks it up and finds nothing; the second then allocates it
    from start to end; the first goes on to create its own row, the
    [originalUrl] constraint rejects it, and the allocator throws that
    error although a lookup by [originalUrl] would now find the mapping. *)
Lemma concurrent_duplicate_address_is_not_refetched :
  let w0 := Sample.world Sample.fieldArray []
              [Sample.idA; Sample.idB; Sample.idC] in
  let target := Some (TargetArray [js "originalUrl"]) in
  let '(existing, w1) := findFirst Sample.urlA w0 in
  let '(other, w2) := resolveOne Sample.urlA w1 in
  let '(mine, w3) := createUrlWithUniqueShortId Sample.urlA 8 6 w2 in
  existing = Ok None
  /\ other = Ok Sample.idA
  /\ fst (create Sample.idB Sample.urlA (snd (nanoid 8 w2)))
     = Throw (uniqueViolation target)
  /\ fst (findFirst Sample.urlA w3) = Ok (Some (mkUrl Sample.idA Sample.urlA))
  /\ mine = Throw (uniqueViolation target)
  /\ mine <> Ok Sample.idA.
Proof. vm_compute. repeat split. discriminate. Qed.

Lemma attemptLoop_collisions (url : jsstring) (length : nat) (k : nat) :
  forall (remaining : nat) (lastError : option Exn) (w : World),
    collisionIsRetried w ->
    nextIdsTaken k w ->
    exists w',
      attemptLoop url length (k + remaining) lastError w
      = attemptLoop url length remaining
          (match k with
           | O => lastError
           | S _ => Some (uniqueViolation (violationTarget w (js "shortId")))
           end) w'
      /\ urls w' = urls w
      /\ violationTarget w' = violationTarget w
      /\ entropy w' = entropy w
      /\ drawn w' = drawn w + k.
Proof.
  induction k as [|k IH]; intros remaining lastError w Hret Htaken.
  - exists w. rewrite Nat.add_0_r. auto.
  - assert (H0 : In (entropy w (drawn w)) (map shortId (urls w))).
    { specialize (Htaken 0 ltac:(lia)). now rewrite Nat.add_0_r in Htaken. }
    pose proof (@create_taken_shortId (entropy w (drawn w)) url
                  (snd (nanoid length w)) H0) as Hc.
    destruct (@attemptLoop_create_fails url length (k + remaining) lastError
                w _ _ Hc) as [Hw Hloop].
    simpl violationTarget in *.
    set (w1 := afterFailedCreate (entropy w (drawn w)) url w) in *.
    assert (Hcond : (List.length (targetsOf (violationTarget w (js "shortId"))) =? 0)
                    || includes (targetsOf (violationTarget w (js "shortId")))
                                (js "shortId") = true).
    { destruct Hret as [E|E]; unfold collisionIsRetried in *.
      - rewrite E. reflexivity.
      - rewrite E. apply orb_true_r. }
    rewrite Hcond in Hloop.
    destruct (IH remaining
                (Some (uniqueViolation (violationTarget w (js "shortId")))) w1)
      as (w' & Hl & Hu & Hv & He & Hd).
    + exact Hret.
    + intros i Hi. simpl.
      replace (S (drawn w + i)) with (drawn w + S i) by lia.
      apply (Htaken (S i)). lia.
    + exists w'. simpl Nat.add. rewrite Hloop, Hw. fold w1.
      rewrite Hl. simpl in *. repeat split; try assumption.
      * destruct k; reflexivity.
      * lia.
Qed.

Lemma find_originalUrl_None (url : jsstring) (rows : list Url) :
  ~ In url (map originalUrl rows) ->
  find (fun r => Js.eqb (originalUrl r) url) rows = None.
Proof.
  intros H. destruct (find _ rows) as [r|] eqn:E; [|reflexivity].
  apply find_some in E. destruct E as [Hin E]. apply eqb_eq in E. subst.
  exfalso. apply H. now apply in_map.
Qed.

Lemma resolveAll_app (cfg : Config) (done rest : list jsstring) :
  forall (cache : JsMap.t jsstring) (w : World),
    resolveAll cfg (done ++ rest) cache w
    = bind (resolveAll cfg done cache) (resolveAll cfg rest) w.
Proof.
  induction done as [|u done IH]; intros cache w; simpl.
  - reflexivity.
  - unfold bind. destruct (resolveOne u w) as [[id|e] w1].
    + rewrite IH. reflexivity.
    + reflexivity.
Qed.

Lemma createUrl_after_collisions (url : jsstring) (length max k : nat)
      (w : World) :
  k < max -> collisionIsRetried w -> nextIdsTaken k w ->
  ~ In (entropy w (drawn w + k)) (map shortId (urls w)) ->
  ~ In url (map originalUrl (urls w)) ->
  exists w',
    createUrlWithUniqueShortId url length max w
    = (Ok (entropy w (drawn w + k)), w')
    /\ urls w' = urls w ++ [mkUrl (entropy w (drawn w + k)) url].
Proof.
  intros Hk Hret Htaken Hfresh Hurl. unfold createUrlWithUniqueShortId.
  replace max with (k + S (max - k - 1)) by lia.
  destruct (@attemptLoop_collisions url length k (S (max - k - 1)) None w
              Hret Htaken) as (wk & Hl & Hu & Hv & He & Hd).
  rewrite Hl. rewrite attemptLoop_created.
  - rewrite He, Hd. eexists. split; [reflexivity|]. simpl. now rewrite Hu.
  - now rewrite He, Hd, Hu.
  - now rewrite Hu.
Qed.

Lemma createUrl_exhausted (url : jsstring) (length max : nat) (w : World) :
  0 < max -> collisionIsRetried w -> nextIdsTaken max w ->
  exists w',
    createUrlWithUniqueShortId url length max w
    = (Throw (exhausted
                (Some (uniqueViolation (violationTarget w (js "shortId"))))),
       w')
    /\ urls w' = urls w
    /\ drawn w' = drawn w + max.
Proof.
  intros Hmax Hret Htaken. unfold createUrlWithUniqueShortId.
  destruct (@attemptLoop_collisions url length max 0 None w Hret Htaken)
    as (w' & Hl & Hu & Hv & He & Hd).
  rewrite Nat.add_0_r in Hl. rewrite Hl.
  destruct max as [|max]; [lia|].
  exists w'. simpl. auto.
Qed.

Lemma shortenHandler_throw (cfg : Config) (load : jsstring -> Node)
      (html : Node -> jsstring) (loadValue : jsstring -> Result Node)
      (raw : jsstring) (req : Request) (w w' : World) (e : Exn) :
  req = Multipart (Some raw) \/ (req = HtmlOrJson (Some raw) /\ raw <> []) ->
  shortenDocument cfg (load raw) w = (Throw e, w') ->
  shortenHandler cfg load html loadValue req w
  = (SendJson 500 (js "Internal server error"), w').
Proof.
  intros Hreq Hdoc. unfold shortenHandler.
  destruct Hreq as [->|[-> Hne]].
  - unfold bind. now rewrite Hdoc.
  - destruct raw as [|c raw]; [congruence|]. cbn [truthy negb].
    unfold bind. now rewrite Hdoc.
Qed.

Lemma shortenDocument_exhausted (cfg : Config) (doc : Node)
      (done rest : list jsstring) (url : jsstring)
      (cache1 : JsMap.t jsstring) (w w1 : World) :
  arrayFromSet (JsMap.keys (collectPass doc)) = done ++ url :: rest ->
  resolveAll cfg done (collectPass doc) w = (Ok cache1, w1) ->
  ~ In url (map originalUrl (urls w1)) ->
  collisionIsRetried w1 -> nextIdsTaken 6 w1 ->
  exists e w',
    shortenDocument cfg doc w = (Throw e, w')
    /\ e = exhausted
             (Some (uniqueViolation (violationTarget w1 (js "shortId"))))
    /\ urls w' = urls w1.
Proof.
  intros Hkeys Hdone Hurl Hret Htaken.
  destruct (@createUrl_exhausted url 8 6 (record (FindFirst url) w1)
              ltac:(lia) Hret Htaken) as (w' & Hc & Hu & _).
  exists (exhausted (Some (uniqueViolation (violationTarget w1 (js "shortId"))))), w'.
  split; [|split; [reflexivity | exact Hu]].
  unfold shortenDocument, resolvePass. rewrite Hkeys.
  assert (Hlen : (0 <? List.length (done ++ url :: rest)) = true).
  { apply Nat.ltb_lt. rewrite length_app. simpl. lia. }
  rewrite Hlen. unfold bind at 1. rewrite resolveAll_app.
  unfold bind at 1. rewrite Hdone.
  simpl resolveAll. unfold bind at 1. unfold resolveOne.
  unfold bind at 1. unfold findFirst at 1.
  rewrite find_originalUrl_None by assumption.
  simpl violationTarget in Hc. rewrite Hc. reflexivity.
Qed.

(** C8. (1) When the first [k < max] candidates collide on [shortId] and
    the next one is free, the allocator returns that candidate and the row
    is written.  (2) When all [max] candidates collide, the allocator fails
    with the value thrown after the loop and writes no row.  (3) When that
    happens for an address during a shorten request (where [max] is 6), the
    request is answered with status 500 and a JSON error, not with a
    document. *)
Theorem collisions_retried_until_budget_exhausted
        (cfg : Config) (load : jsstring -> Node) (html : Node -> jsstring)
        (loadValue : jsstring -> Result Node) :
  (forall url length max k w,
      k < max -> collisionIsRetried w -> nextIdsTaken k w ->
      ~ In (entropy w (drawn w + k)) (map shortId (urls w)) ->
      ~ In url (map originalUrl (urls w)) ->
      exists w',
        createUrlWithUniqueShortId url length max w
        = (Ok (entropy w (drawn w + k)), w')
        /\ urls w' = urls w ++ [mkUrl (entropy w (drawn w + k)) url])
  /\ (forall url length max w,
        0 < max -> collisionIsRetried w -> nextIdsTaken max w ->
        exists w',
          createUrlWithUniqueShortId url length max w
          = (Throw (exhausted
                      (Some (uniqueViolation
                               (violationTarget w (js "shortId"))))), w')
          /\ urls w' = urls w)
  /\ (forall raw req done url rest cache1 w w1,
        req = Multipart (Some raw)
        \/ (req = HtmlOrJson (Some raw) /\ raw <> []) ->
        arrayFromSet (JsMap.keys (collectPass (load raw)))
        = done ++ url :: rest ->
        resolveAll cfg done (collectPass (load raw)) w = (Ok cache1, w1) ->
        ~ In url (map originalUrl (urls w1)) ->
        collisionIsRetried w1 -> nextIdsTaken 6 w1 ->
        exists w',
          shortenHandler cfg load html loadValue req w
          = (SendJson 500 (js "Internal server error"), w')
          /\ urls w' = urls w1).
Proof.
  split; [|split].
  - intros. now apply createUrl_after_collisions.
  - intros url length max w Hmax Hret Htaken.
    destruct (@createUrl_exhausted url length max w Hmax Hret Htaken)
      as (w' & Hc & Hu & _). eauto.
  - intros raw req done url rest cache1 w w1 Hreq Hkeys Hdone Hurl Hret Htaken.
    destruct (@shortenDocument_exhausted cfg (load raw) done rest url cache1
                w w1 Hkeys Hdone Hurl Hret Htaken) as (e & w' & Hd & _ & Hu).
    exists w'. split; [|exact Hu].
    now apply shortenHandler_throw with (raw := raw) (e := e).
Qed.

Ltac ids_taken :=
  let i := fresh "i" in
  let Hi := fresh "Hi" in
  intros i Hi;
  repeat (destruct i as [|i];
          [vm_compute; tauto | apply PeanoNat.lt_S_n in Hi]);
  exfalso; inversion Hi.

Ltac not_among :=
  vm_compute;
  repeat (let H := fresh in intros [H|H]; [discriminate H | revert H]);
  intros [].

Lemma collisions_retried_until_budget_exhausted_witness :
  let taken := [mkUrl Sample.idC Sample.urlC] in
  let w2 := Sample.world Sample.fieldArray taken
              [Sample.idC; Sample.idC; Sample.idA] in
  let w6 := Sample.world Sample.fieldArray taken
              [Sample.idC; Sample.idC; Sample.idC;
               Sample.idC; Sample.idC; Sample.idC; Sample.idA] in
  let req := Multipart (Some (Sample.render Sample.doc)) in
  (exists w',
      createUrlWithUniqueShortId Sample.urlA 8 6 w2 = (Ok Sample.idA, w')
      /\ urls w' = taken ++ [mkUrl Sample.idA Sample.urlA])
  /\ (exists w',
        createUrlWithUniqueShortId Sample.urlA 8 6 w6
        = (Throw (uniqueViolation (Some (TargetArray [js "shortId"]))), w')
        /\ urls w' = taken)
  /\ (exists w',
        shortenHandler (Sample.cfg 1000) Sample.parse Sample.render
          Sample.parseValue req w6
        = (SendJson 500 (js "Internal server error"), w')
        /\ urls w' = taken).
Proof.
  intros taken w2 w6 req.
  destruct (collisions_retried_until_budget_exhausted
              (Sample.cfg 1000) Sample.parse Sample.render Sample.parseValue)
    as (Ha & Hb & Hc).
  assert (Hret2 : collisionIsRetried w2) by (right; reflexivity).
  assert (Hret6 : collisionIsRetried w6) by (right; reflexivity).
  assert (Ht2 : nextIdsTaken 2 w2) by ids_taken.
  assert (Ht6 : nextIdsTaken 6 w6) by ids_taken.
  split; [|split].
  - apply (Ha Sample.urlA 8 6 2 w2); [lia | assumption | assumption | | ];
      not_among.
  - apply (Hb Sample.urlA 8 6 w6); [lia | assumption | assumption].
  - apply (Hc (Sample.render Sample.doc) req [] Sample.urlA [Sample.urlB]
              (collectPass (Sample.parse (Sample.render Sample.doc))) w6 w6);
      [left; reflexivity | vm_compute; reflexivity | reflexivity
       | not_among | assumption | assumption].
Defined.

(* ------------------------------------------------------------------ *)
(** ** Documents and the scanning passes *)

Lemma flat_map_map_ext {A B C} (f : B -> list C) (g : A -> B)
      (h : list C -> list C) (k : A -> list C) (l : list A) :
  h [] = [] ->
  (forall x y, h (x ++ y) = h x ++ h y) ->
  Forall (fun x => f (g x) = h (k x)) l ->
  flat_map f (map g l) = h (flat_map k l).
Proof.
  intros Hnil Happ H. induction H as [|x l Hx _ IH]; simpl.
  - now rewrite Hnil.
  - now rewrite Hx, IH, Happ.
Qed.

Lemma select_each (tag tag' : jsstring)
      (f : JsMap.t jsstring -> JsMap.t jsstring) (n : Node) :
  select tag (each tag' f n)
  = if Js.eqb tag tag' then map f (select tag n) else select tag n.
Proof.
  induction n as [children IH | name attribs children IH | kind data]
    using Node_forall_ind; simpl.
  - destruct (Js.eqb tag tag') eqn:E.
    + apply flat_map_map_ext with (h := map f); auto using map_app.
    + apply flat_map_map_ext with (h := fun x => x); auto.
  - destruct (Js.eqb tag tag') eqn:E.
    + apply eqb_eq in E; subst tag'.
      rewrite map_app. f_equal.
      * rewrite (eqb_sym name tag). destruct (Js.eqb tag name); reflexivity.
      * apply flat_map_map_ext with (h := map f); auto using map_app.
    + f_equal.
      * destruct (Js.eqb name tag) eqn:E1, (Js.eqb name tag') eqn:E2;
          try reflexivity.
        apply eqb_eq in E1, E2. subst. rewrite eqb_refl in E. discriminate.
      * apply flat_map_map_ext with (h := fun x => x); auto.
  - destruct (Js.eqb tag tag'); reflexivity.
Qed.

Lemma get_rewriteStep (attr : jsstring) (cache attribs : JsMap.t jsstring) :
  JsMap.get attr (rewriteStep attr cache attribs)
  = rewriteHref cache (JsMap.get attr attribs).
Proof.
  unfold rewriteStep, rewriteHref.
  destruct (negb (isShortenable (JsMap.get attr attribs))); [reflexivity|].
  destruct (JsMap.get attr attribs) as [h|] eqn:Hh; [|assumption].
  destruct (JsMap.get h cache) as [shortUrl|]; [|assumption].
  destruct (truthy shortUrl); [|assumption].
  apply get_set_same.
Qed.

Ltac decide_tags :=
  repeat match goal with
         | |- context [Js.eqb (js ?a) (js ?b)] =>
             let v := eval vm_compute in (Js.eqb (js a) (js b)) in
             change (Js.eqb (js a) (js b)) with v
         end;
  cbv iota.

Lemma hrefs_rewritePass (cache : JsMap.t jsstring) (doc : Node) :
  hrefs (rewritePass cache doc) = map (rewriteHref cache) (hrefs doc).
Proof.
  unfold hrefs, rewritePass, attrTargets.
  cbn [fold_left flat_map].
  rewrite !select_each. decide_tags.
  rewrite !map_app, !map_map. cbn [map].
  repeat (f_equal; try (apply map_ext; intros attribs; apply get_rewriteStep)).
Qed.

Lemma fold_left_map {A B C} (f : A -> B -> A) (g : C -> B) (l : list C) (a : A) :
  fold_left f (map g l) a = fold_left (fun a x => f a (g x)) l a.
Proof. revert a. induction l; simpl; auto. Qed.

Lemma collectPass_hrefs (doc : Node) :
  collectPass doc = fold_left collectHref (hrefs doc) [].
Proof.
  unfold collectPass, hrefs, attrTargets. cbn [fold_left flat_map].
  rewrite app_nil_r, !fold_left_app, !fold_left_map. reflexivity.
Qed.

Lemma keys_placeholders (ks : list jsstring) :
  JsMap.keys (placeholders ks) = ks.
Proof.
  unfold JsMap.keys, placeholders. rewrite map_map. apply map_id.
Qed.

Lemma get_placeholders (h : jsstring) (ks : list jsstring) :
  JsMap.get h (placeholders ks) = if in_dec Js.eq_dec h ks
                                  then Some [] else None.
Proof.
  destruct (in_dec Js.eq_dec h ks) as [Hin|Hn].
  - induction ks as [|k ks IH]; simpl in *; [tauto|].
    destruct (Js.eqb k h) eqn:E; [reflexivity|].
    apply eqb_neq in E. destruct Hin; [congruence | auto].
  - apply get_None_iff. now rewrite keys_placeholders.
Qed.

Lemma set_placeholder_present (h : jsstring) (ks : list jsstring) :
  In h ks -> JsMap.set h [] (placeholders ks) = placeholders ks.
Proof.
  induction ks as [|k ks IH]; simpl; [tauto|].
  destruct (Js.eqb k h) eqn:E; [reflexivity|].
  apply eqb_neq in E. intros [H|H]; [congruence|]. now rewrite IH.
Qed.

Lemma collectHref_placeholders (ks : list jsstring) (href : option jsstring) :
  NoDup ks ->
  exists ks',
    collectHref (placeholders ks) href = placeholders ks'
    /\ NoDup ks'
    /\ (forall h, In h ks' <->
                  In h ks \/ (href = Some h /\ isShortenable href = true)).
Proof.
  intros Hnd. unfold collectHref.
  destruct (isShortenable href) eqn:Hq; simpl negb; cbv iota.
  - destruct href as [h0|]; [|discriminate].
    rewrite get_placeholders.
    destruct (in_dec Js.eq_dec h0 ks) as [Hin|Hn].
    + simpl. rewrite set_placeholder_present by assumption.
      exists ks. split; [reflexivity|]. split; [assumption|].
      intros h. split; [auto|]. intros [H|[H _]]; [assumption|].
      now inversion H; subst.
    + rewrite set_absent
        by (apply get_None_iff; now rewrite keys_placeholders).
      exists (ks ++ [h0]). split; [|split].
      * unfold placeholders. now rewrite map_app.
      * apply NoDup_app; auto.
        -- repeat constructor. intros [].
        -- intros x Hx [<-|[]]. contradiction.
      * intros h. rewrite in_app_iff. simpl. split.
        -- intros [H|[<-|[]]]; auto.
        -- intros [H|[H _]]; [auto|]. inversion H; auto.
  - exists ks. split; [reflexivity|]. split; [assumption|].
    intros h. split; [auto|]. intros [H|[_ H]]; [assumption | discriminate].
Qed.

Lemma collect_placeholders (hs : list (option jsstring)) :
  forall ks,
    NoDup ks ->
    exists ks',
      fold_left collectHref hs (placeholders ks) = placeholders ks'
      /\ NoDup ks'
      /\ (forall h, In h ks' <->
                    In h ks \/ (In (Some h) hs
                                /\ isShortenable (Some h) = true)).
Proof.
  induction hs as [|href hs IH]; intros ks Hnd; simpl.
  - exists ks. split; [reflexivity|]. split; [assumption|]. tauto.
  - destruct (collectHref_placeholders href Hnd) as (k1 & E1 & N1 & I1).
    rewrite E1. destruct (IH k1 N1) as (k2 & E2 & N2 & I2).
    exists k2. split; [assumption|]. split; [assumption|].
    intros h. rewrite I2, I1. split.
    + intros [[H|[H Hq]]|[H Hq]]; auto.
      right. subst. auto.
    + intros [H|[[H|H] Hq]]; auto.
      left. right. subst. auto.
Qed.

(** The table the first pass builds: distinct keys, the qualifying values
    the passes read, each with the empty placeholder. *)
Lemma collectPass_keys (doc : Node) :
  exists ks,
    collectPass doc = placeholders ks
    /\ NoDup ks
    /\ (forall h, In h ks <->
                  In (Some h) (hrefs doc) /\ isShortenable (Some h) = true).
Proof.
  rewrite collectPass_hrefs.
  destruct (@collect_placeholders (hrefs doc) [] (NoDup_nil _))
    as (ks & E & N & I).
  exists ks. split; [exact E|]. split; [exact N|].
  intros h. rewrite I. simpl. tauto.
Qed.

Lemma includes_false (arr : list jsstring) (x : jsstring) :
  ~ In x arr -> includes arr x = false.
Proof.
  intros H. unfold includes. destruct (existsb _ arr) eqn:E; [|reflexivity].
  apply existsb_exists in E. destruct E as (y & Hy & E).
  apply eqb_eq in E. subst. contradiction.
Qed.

Lemma arrayFromSet_distinct (arr : list jsstring) :
  NoDup arr -> arrayFromSet arr = arr.
Proof.
  unfold arrayFromSet.
  assert (H : forall acc, NoDup (acc ++ arr) ->
              fold_left (fun acc x => if includes acc x then acc else acc ++ [x])
                        arr acc = acc ++ arr).
  { induction arr as [|x arr IH]; intros acc Hnd; simpl.
    - now rewrite app_nil_r.
    - rewrite includes_false.
      + rewrite IH; rewrite <- app_assoc; [reflexivity | exact Hnd].
      + apply NoDup_remove_2 in Hnd. intros Hin. apply Hnd.
        apply in_or_app. auto. }
  intros Hnd. now rewrite H.
Qed.

(* ------------------------------------------------------------------ *)
(** ** The resolution pass *)

Lemma attemptLoop_step (url : jsstring) (length remaining : nat)
      (lastError : option Exn) (w : World) :
  attemptLoop url length (S remaining) lastError w
  = let id := entropy w (drawn w) in
    match create id url (snd (nanoid length w)) with
    | (Ok _, w1) => (Ok id, w1)
    | (Throw e, w1) =>
        match e with
        | PrismaClientKnownRequestError code target =>
            if Js.eqb code (js "P2002") then
              if (List.length (targetsOf target) =? 0)
                 || includes (targetsOf target) (js "shortId")
              then attemptLoop url length remaining (Some e) w1
              else (Throw e, w1)
            else (Throw e, w1)
        | Error _ => (Throw e, w1)
        end
    end.
Proof.
  simpl. unfold bind at 1. unfold nanoid at 1. unfold tryCatch, bind. simpl.
  destruct (create (entropy w (drawn w)) url _) as [[row|e] w1];
    [reflexivity|].
  destruct e as [code target|msg]; [|reflexivity].
  destruct (Js.eqb code (js "P2002")); [|reflexivity].
  destruct ((List.length (targetsOf target) =? 0)
            || includes (targetsOf target) (js "shortId")); reflexivity.
Qed.

Lemma create_cases (id url : jsstring) (w : World) :
  (exists e, create id url w = (Throw e, record (Create id url false) w))
  \/ (~ In id (map shortId (urls w))
      /\ create id url w
         = (Ok (mkUrl id url),
            record (Create id url true)
              (mkWorld (urls w ++ [mkUrl id url]) (violationTarget w)
                       (entropy w) (drawn w) (calls w)))).
Proof.
  unfold create.
  destruct (existsb (fun r => Js.eqb (shortId r) id) (urls w)) eqn:E1;
    [left; eauto|].
  destruct (existsb (fun r => Js.eqb (originalUrl r) url) (urls w));
    [left; eauto|].
  right. split; [|reflexivity].
  now apply (existsb_false_iff _ _ (existsb_shortId _ _)).
Qed.

Lemma attemptLoop_effect (url : jsstring) (length remaining : nat) :
  forall (lastError : option Exn) (w w' : World) (r : Result jsstring),
    attemptLoop url length remaining lastError w = (r, w') ->
    (forall v, lookupsOf v (calls w') = lookupsOf v (calls w))
    /\ (forall v, v <> url ->
                  createdFor v (calls w') = createdFor v (calls w))
    /\ match r with
       | Ok id =>
           createdFor url (calls w') = S (createdFor url (calls w))
           /\ urls w' = urls w ++ [mkUrl id url]
           /\ ~ In id (map shortId (urls w))
       | Throw _ =>
           createdFor url (calls w') = createdFor url (calls w)
           /\ urls w' = urls w
       end.
Proof.
  induction remaining as [|remaining IH]; intros lastError w w' r H.
  - simpl in H. unfold throw in H. inversion H; subst. auto.
  - rewrite attemptLoop_step in H. cbv zeta in H.
    destruct (create_cases (entropy w (drawn w)) url (snd (nanoid length w)))
      as [[e Hc]|[Hfresh Hc]]; rewrite Hc in H.
    + assert (Hretry : forall e0,
                 attemptLoop url length remaining (Some e0)
                   (record (Create (entropy w (drawn w)) url false)
                      (snd (nanoid length w))) = (r, w') ->
                 (forall v, lookupsOf v (calls w') = lookupsOf v (calls w))
                 /\ (forall v, v <> url ->
                       createdFor v (calls w') = createdFor v (calls w))
                 /\ match r with
                    | Ok id =>
                        createdFor url (calls w') = S (createdFor url (calls w))
                        /\ urls w' = urls w ++ [mkUrl id url]
                        /\ ~ In id (map shortId (urls w))
                    | Throw _ =>
                        createdFor url (calls w') = createdFor url (calls w)
                        /\ urls w' = urls w
                    end).
      { intros e0 H0. apply IH in H0. simpl in H0. exact H0. }
      assert (Hstop : (Throw e,
                       record (Create (entropy w (drawn w)) url false)
                         (snd (nanoid length w))) = (r, w') ->
                 (forall v, lookupsOf v (calls w') = lookupsOf v (calls w))
                 /\ (forall v, v <> url ->
                       createdFor v (calls w') = createdFor v (calls w))
                 /\ match r with
                    | Ok id =>
                        createdFor url (calls w') = S (createdFor url (calls w))
                        /\ urls w' = urls w ++ [mkUrl id url]
                        /\ ~ In id (map shortId (urls w))
                    | Throw _ =>
                        createdFor url (calls w') = createdFor url (calls w)
                        /\ urls w' = urls w
                    end).
      { intros H0. inversion H0; subst. simpl. auto. }
      destruct e as [code target|msg]; [|auto].
      destruct (Js.eqb code (js "P2002")); [|auto].
      destruct ((List.length (targetsOf target) =? 0)
                || includes (targetsOf target) (js "shortId")); eauto.
    + inversion H; subst. simpl. unfold createdFor. simpl.
      rewrite eqb_refl. simpl. repeat split; auto.
      intros v Hv. unfold createdFor. simpl.
      assert (Js.eqb url v = false) as -> by (apply eqb_neq; congruence).
      reflexivity.
Qed.

Lemma attemptsFor_create (v id url : jsstring) (ok : bool)
      (cs : list StoreCall) :
  attemptsFor v (Create id url ok :: cs)
  = (if Js.eqb url v then 1 else 0) + attemptsFor v cs.
Proof. unfold attemptsFor. simpl. destruct (Js.eqb url v); reflexivity. Qed.

Lemma attemptLoop_attempts (url : jsstring) (length remaining : nat) :
  forall (lastError : option Exn) (w w' : World) (r : Result jsstring),
    attemptLoop url length remaining lastError w = (r, w') ->
    attemptsFor url (calls w') <= attemptsFor url (calls w) + remaining
    /\ (forall v, v <> url ->
                  attemptsFor v (calls w') = attemptsFor v (calls w)).
Proof.
  induction remaining as [|remaining IH]; intros lastError w w' r H.
  - simpl in H. unfold throw in H. inversion H; subst. split; [lia | auto].
  - rewrite attemptLoop_step in H. cbv zeta in H.
    set (id := entropy w (drawn w)) in *.
    assert (Hone : forall ok v,
               attemptsFor v (Create id url ok :: calls w)
               = (if Js.eqb url v then 1 else 0) + attemptsFor v (calls w))
      by (intros; apply attemptsFor_create).
    assert (Hother : forall v, v <> url -> Js.eqb url v = false)
      by (intros v Hv; apply eqb_neq; congruence).
    destruct (create_cases id url (snd (nanoid length w)))
      as [[e Hc]|[Hfresh Hc]]; rewrite Hc in H.
    + assert (Hstop : (Throw e, record (Create id url false)
                                  (snd (nanoid length w))) = (r, w') ->
                 attemptsFor url (calls w')
                 <= attemptsFor url (calls w) + S remaining
                 /\ (forall v, v <> url ->
                        attemptsFor v (calls w') = attemptsFor v (calls w))).
      { intros H0. inversion H0; subst. simpl calls. split.
        - rewrite Hone, eqb_refl. lia.
        - intros v Hv. now rewrite Hone, Hother. }
      assert (Hretry : forall e0,
                 attemptLoop url length remaining (Some e0)
                   (record (Create id url false) (snd (nanoid length w)))
                 = (r, w') ->
                 attemptsFor url (calls w')
                 <= attemptsFor url (calls w) + S remaining
                 /\ (forall v, v <> url ->
                        attemptsFor v (calls w') = attemptsFor v (calls w))).
      { intros e0 H0. apply IH in H0. simpl calls in H0.
        destruct H0 as [Ha Hb]. split.
        - rewrite Hone, eqb_refl in Ha. lia.
        - intros v Hv. rewrite (Hb v Hv). now rewrite Hone, Hother. }
      destruct e as [code target|msg]; [|auto].
      destruct (Js.eqb code (js "P2002")); [|auto].
      destruct ((List.length (targetsOf target) =? 0)
                || includes (targetsOf target) (js "shortId")); eauto.
    + inversion H; subst. simpl calls. split.
      * rewrite Hone, eqb_refl. lia.
      * intros v Hv. now rewrite Hone, Hother.
Qed.

Lemma resolveOne_attempts (url : jsstring) (w w' : World)
      (r : Result jsstring) :
  resolveOne url w = (r, w') ->
  attemptsFor url (calls w') <= attemptsFor url (calls w) + 6
  /\ (forall v, v <> url ->
                attemptsFor v (calls w') = attemptsFor v (calls w)).
Proof.
  unfold resolveOne, bind, findFirst. intros H.
  destruct (find _ (urls w)) as [row|].
  - unfold ret in H. inversion H; subst. simpl. split; [|auto].
    unfold attemptsFor. simpl. lia.
  - unfold createUrlWithUniqueShortId in H.
    apply attemptLoop_attempts in H. exact H.
Qed.

Lemma resolveAll_attempts (cfg : Config) (uniqueUrls : list jsstring) :
  forall (cache cache' : JsMap.t jsstring) (w w' : World),
    NoDup uniqueUrls ->
    resolveAll cfg uniqueUrls cache w = (Ok cache', w') ->
    (forall u, In u uniqueUrls ->
               attemptsFor u (calls w') <= attemptsFor u (calls w) + 6)
    /\ (forall v, ~ In v uniqueUrls ->
                  attemptsFor v (calls w') = attemptsFor v (calls w)).
Proof.
  induction uniqueUrls as [|u0 us IH]; intros cache cache' w w' Hnd H.
  - simpl in H. unfold ret in H. inversion H; subst.
    split; [intros u []| auto].
  - simpl in H. unfold bind in H.
    destruct (resolveOne u0 w) as [[id0|e] w1] eqn:H1; [|discriminate].
    apply resolveOne_attempts in H1. destruct H1 as [A1 O1].
    inversion Hnd as [|? ? Hn0 Hnd']; subst.
    destruct (IH _ _ _ _ Hnd' H) as [Hin Hout]. split.
    + intros u [<-|Hu].
      * rewrite (Hout u0 Hn0). exact A1.
      * assert (Hne : u <> u0) by (intros ->; contradiction).
        rewrite <- (O1 u Hne). now apply Hin.
    + intros v Hv. simpl in Hv.
      assert (Hne : v <> u0) by (intros ->; tauto).
      rewrite Hout by tauto. now apply O1.
Qed.

Lemma find_originalUrl_Some (url : jsstring) (rows : list Url) (row : Url) :
  find (fun r => Js.eqb (originalUrl r) url) rows = Some row ->
  In (mkUrl (shortId row) url) rows.
Proof.
  intros H. apply find_some in H. destruct H as [Hin E].
  apply eqb_eq in E. destruct row as [id u]. simpl in *. now subst.
Qed.

Lemma resolveOne_effect (url : jsstring) (w w' : World) (r : Result jsstring) :
  resolveOne url w = (r, w') ->
  lookupsOf url (calls w') = S (lookupsOf url (calls w))
  /\ createdFor url (calls w') <= S (createdFor url (calls w))
  /\ (forall v, v <> url ->
        lookupsOf v (calls w') = lookupsOf v (calls w)
        /\ createdFor v (calls w') = createdFor v (calls w))
  /\ (exists extra, urls w' = urls w ++ extra)
  /\ (uniqueShortIds (urls w) -> uniqueShortIds (urls w'))
  /\ (forall id, r = Ok id -> In (mkUrl id url) (urls w')).
Proof.
  unfold resolveOne, bind, findFirst. intros H.
  set (w0 := record (FindFirst url) w) in *.
  assert (L0 : lookupsOf url (calls w0) = S (lookupsOf url (calls w))).
  { unfold lookupsOf. simpl. now rewrite eqb_refl. }
  assert (C0 : forall v, createdFor v (calls w0) = createdFor v (calls w))
    by reflexivity.
  assert (O0 : forall v, v <> url ->
                 lookupsOf v (calls w0) = lookupsOf v (calls w)).
  { intros v Hv. unfold lookupsOf. simpl.
    assert (Js.eqb url v = false) as -> by (apply eqb_neq; congruence).
    reflexivity. }
  destruct (find _ (urls w)) as [row|] eqn:Hf.
  - unfold ret in H. inversion H; subst.
    rewrite L0, C0. repeat split; auto.
    + exists []. simpl. now rewrite app_nil_r.
    + intros id Hid. inversion Hid; subst. simpl.
      now apply find_originalUrl_Some.
  - unfold createUrlWithUniqueShortId in H.
    apply attemptLoop_effect in H. destruct H as (HL & HO & Hr).
    rewrite HL, L0. split; [reflexivity|].
    destruct r as [id|e].
    + destruct Hr as (Hc & Hu & Hfresh). simpl in Hu, Hfresh.
      split; [rewrite Hc, C0; lia|].
      split; [intros v Hv; split;
              [rewrite HL; auto | rewrite HO by assumption; apply C0]|].
      split; [eauto|]. split.
      * unfold uniqueShortIds. intros Hnd. rewrite Hu, map_app. simpl.
        apply NoDup_app; auto.
        -- repeat constructor. intros [].
        -- intros x Hx [<-|[]]. contradiction.
      * intros id' Hid. inversion Hid; subst. rewrite Hu.
        apply in_or_app. simpl. auto.
    + destruct Hr as (Hc & Hu). simpl in Hu.
      split; [rewrite Hc, C0; lia|].
      split; [intros v Hv; split;
              [rewrite HL; auto | rewrite HO by assumption; apply C0]|].
      split; [exists []; now rewrite app_nil_r|]. split.
      * now rewrite Hu.
      * discriminate.
Qed.

Lemma truthy_shortUrl (base id : jsstring) :
  truthy (base ++ js "/r/" ++ id) = true.
Proof. destruct base; reflexivity. Qed.

Lemma resolveAll_effect (cfg : Config) (uniqueUrls : list jsstring) :
  forall (cache cache' : JsMap.t jsstring) (w w' : World),
    NoDup uniqueUrls ->
    resolveAll cfg uniqueUrls cache w = (Ok cache', w') ->
    (forall u, In u uniqueUrls ->
       lookupsOf u (calls w') = S (lookupsOf u (calls w))
       /\ createdFor u (calls w') <= S (createdFor u (calls w))
       /\ exists id,
            JsMap.get u cache' = Some (BASE_URL cfg ++ js "/r/" ++ id)
            /\ In (mkUrl id u) (urls w'))
    /\ (forall v, ~ In v uniqueUrls ->
          lookupsOf v (calls w') = lookupsOf v (calls w)
          /\ createdFor v (calls w') = createdFor v (calls w)
          /\ JsMap.get v cache' = JsMap.get v cache)
    /\ (exists extra, urls w' = urls w ++ extra)
    /\ (uniqueShortIds (urls w) -> uniqueShortIds (urls w')).
Proof.
  induction uniqueUrls as [|u0 us IH]; intros cache cache' w w' Hnd H.
  - simpl in H. unfold ret in H. inversion H; subst.
    split; [intros u []|]. split; [auto|].
    split; [exists []; now rewrite app_nil_r | auto].
  - simpl in H. unfold bind in H.
    destruct (resolveOne u0 w) as [[id0|e] w1] eqn:H1; [|discriminate].
    apply resolveOne_effect in H1.
    destruct H1 as (L1 & C1 & O1 & [x1 U1] & N1 & R1).
    inversion Hnd as [|? ? Hn0 Hnd']; subst.
    destruct (IH _ _ _ _ Hnd' H) as (Hin & Hout & [x2 U2] & N2).
    split; [|split; [|split]].
    + intros u [<-|Hu].
      * destruct (Hout u0 Hn0) as (La & Ca & Ga).
        rewrite La, Ca, Ga, get_set_same.
        split; [assumption|]. split; [assumption|].
        exists id0. split; [reflexivity|].
        rewrite U2. apply in_or_app. left. now apply R1.
      * assert (Hne : u <> u0) by (intros ->; contradiction).
        destruct (O1 u Hne) as [Lb Cb].
        destruct (Hin u Hu) as (La & Ca & Ga).
        rewrite La, Lb. split; [reflexivity|]. split; [lia|]. exact Ga.
    + intros v Hv. simpl in Hv.
      assert (Hne : v <> u0) by (intros ->; tauto).
      destruct (Hout v) as (La & Ca & Ga); [tauto|].
      destruct (O1 v Hne) as [Lb Cb].
      split; [congruence|]. split; [congruence|].
      rewrite Ga. now apply get_set_other.
    + exists (x1 ++ x2). now rewrite U2, U1, app_assoc.
    + auto.
Qed.

Lemma shortenDocument_run (cfg : Config) (doc doc' : Node) (w w' : World) :
  shortenDocument cfg doc w = (Ok doc', w') ->
  exists cache ks,
    NoDup ks
    /\ (forall h, In h ks <->
                  In (Some h) (hrefs doc) /\ isShortenable (Some h) = true)
    /\ resolveAll cfg ks (placeholders ks) w = (Ok cache, w')
    /\ doc' = rewritePass cache doc.
Proof.
  unfold shortenDocument, bind. intros H.
  destruct (resolvePass cfg (collectPass doc) w) as [[cache|e] w1] eqn:Hr;
    [|discriminate].
  unfold ret in H. inversion H; subst.
  destruct (collectPass_keys doc) as (ks & Ek & Nk & Ik).
  exists cache, ks. split; [exact Nk|]. split; [exact Ik|].
  split; [|reflexivity].
  unfold resolvePass in Hr. rewrite Ek, keys_placeholders in Hr.
  rewrite arrayFromSet_distinct in Hr by assumption.
  destruct ks as [|k ks]; exact Hr.
Qed.

Lemma shortenDocument_inv (cfg : Config) (doc doc' : Node) (w w' : World) :
  shortenDocument cfg doc w = (Ok doc', w') ->
  exists cache,
    doc' = rewritePass cache doc
    /\ (forall u,
          In (Some u) (hrefs doc) -> isShortenable (Some u) = true ->
          lookupsOf u (calls w') = S (lookupsOf u (calls w))
          /\ attemptsFor u (calls w') <= attemptsFor u (calls w) + 6
          /\ createdFor u (calls w') <= S (createdFor u (calls w))
          /\ exists id,
               JsMap.get u cache = Some (BASE_URL cfg ++ js "/r/" ++ id)
               /\ In (mkUrl id u) (urls w'))
    /\ (exists extra, urls w' = urls w ++ extra)
    /\ (uniqueShortIds (urls w) -> uniqueShortIds (urls w')).
Proof.
  intros H.
  destruct (@shortenDocument_run cfg doc doc' w w' H)
    as (cache & ks & Nk & Ik & Hr & Hd).
  exists cache. split; [exact Hd|].
  destruct (@resolveAll_effect cfg _ _ _ _ _ Nk Hr) as (Hin & _ & Hx & Hn).
  destruct (@resolveAll_attempts cfg _ _ _ _ _ Nk Hr) as (Hat & _).
  split; [|split; assumption].
  intros u Hu Hq.
  assert (Hk : In u ks) by (apply Ik; auto).
  destruct (Hin u Hk) as (HL & HC & Hid).
  split; [exact HL|]. split; [now apply Hat|]. split; [exact HC | exact Hid].
Qed.

(** C3. In one shorten operation that answers with a document, an address
    that qualifies and occurs in the document is allocated once: the store
    is looked up by that address exactly once, at most one row is created
    for it (out of at most 6 [create] calls, the retries of C8 included),
    and every attribute that held it holds afterwards the same redirect
    URL, [BASE_URL + "/r/" + shortId], for the [shortId] of its row. *)
Theorem one_allocation_per_distinct_address
        (cfg : Config) (doc doc' : Node) (w w' : World) (u : jsstring) :
  shortenDocument cfg doc w = (Ok doc', w') ->
  In (Some u) (hrefs doc) ->
  isShortenable (Some u) = true ->
  lookupsOf u (calls w') = S (lookupsOf u (calls w))
  /\ attemptsFor u (calls w') <= attemptsFor u (calls w) + 6
  /\ createdFor u (calls w') <= S (createdFor u (calls w))
  /\ exists id,
       In (mkUrl id u) (urls w')
       /\ List.length (hrefs doc') = List.length (hrefs doc)
       /\ forall i,
            nth_error (hrefs doc) i = Some (Some u) ->
            nth_error (hrefs doc') i
            = Some (Some (BASE_URL cfg ++ js "/r/" ++ id)).
Proof.
  intros H Hu Hq.
  destruct (@shortenDocument_inv cfg doc doc' w w' H)
    as (cache & -> & Hall & _ & _).
  destruct (Hall u Hu Hq) as (HL & HA & HC & id & Hg & Hrow).
  split; [exact HL|]. split; [exact HA|]. split; [exact HC|].
  exists id. split; [exact Hrow|].
  rewrite hrefs_rewritePass. split; [apply length_map|].
  intros i Hi. rewrite nth_error_map, Hi. simpl.
  unfold rewriteHref. rewrite Hq, Hg, truthy_shortUrl. reflexivity.
Qed.

Lemma one_allocation_per_distinct_address_witness :
  let cfg := Sample.cfg 1000 in
  let w := Sample.world Sample.fieldArray [] [Sample.idA; Sample.idB] in
  let doc' := fst (shortenDocument cfg Sample.doc w) in
  let w' := snd (shortenDocument cfg Sample.doc w) in
  let shortA := js "http://localhost:4000/r/Ab3_xK-9" in
  let shortB := js "http://localhost:4000/r/Qw7pL0zT" in
  hrefs Sample.doc
  = [Some Sample.urlA; Some Sample.urlA; Some (js "mailto:me@example.com");
     Some Sample.urlB]
  /\ isShortenable (Some Sample.urlA) = true
  /\ (exists d,
         shortenDocument cfg Sample.doc w = (Ok d, w')
         /\ hrefs d
            = [Some shortA; Some shortA; Some (js "mailto:me@example.com");
               Some shortB]
         /\ lookupsOf Sample.urlA (calls w') = 1
         /\ createdFor Sample.urlA (calls w') <= 1)
  /\ urls w' = [mkUrl Sample.idA Sample.urlA; mkUrl Sample.idB Sample.urlB].
Proof.
  intros cfg w doc' w' shortA shortB.
  split; [reflexivity|]. split; [reflexivity|]. split; [|reflexivity].
  destruct doc' as [d|e] eqn:Hd; [|discriminate Hd].
  assert (Hrun : shortenDocument cfg Sample.doc w = (Ok d, w')).
  { rewrite (surjective_pairing (shortenDocument cfg Sample.doc w)).
    fold doc'. fold w'. now rewrite Hd. }
  exists d. split; [exact Hrun|].
  split; [injection Hd as <-; reflexivity|].
  destruct (@one_allocation_per_distinct_address cfg Sample.doc d w w'
              Sample.urlA Hrun (or_introl eq_refl) eq_refl)
    as (HL & _ & HC & _).
  split; [exact HL | exact HC].
Defined.

(* ------------------------------------------------------------------ *)
(** ** Redirect *)

Lemma find_shortId_unique (id url : jsstring) (rows : list Url) :
  uniqueShortIds rows ->
  In (mkUrl id url) rows ->
  find (fun r => Js.eqb (shortId r) id) rows = Some (mkUrl id url).
Proof.
  unfold uniqueShortIds. induction rows as [|r rows IH]; simpl; [tauto|].
  intros Hnd Hin. inversion Hnd as [|? ? Hn Hd]; subst.
  destruct (Js.eqb (shortId r) id) eqn:E.
  - apply eqb_eq in E. destruct Hin as [->|Hin]; [reflexivity|].
    exfalso. apply Hn. rewrite E.
    change id with (shortId (mkUrl id url)). now apply in_map.
  - apply eqb_neq in E. destruct Hin as [->|Hin]; [simpl in E; congruence|].
    auto.
Qed.

Lemma find_shortId_None (id : jsstring) (rows : list Url) :
  ~ In id (map shortId rows) ->
  find (fun r => Js.eqb (shortId r) id) rows = None.
Proof.
  intros H. destruct (find _ rows) as [r|] eqn:E; [|reflexivity].
  apply find_some in E. destruct E as [Hin E]. apply eqb_eq in E. subst.
  exfalso. apply H. now apply in_map.
Qed.

Lemma redirectHandler_hit (cfg : Config) (id : jsstring) (now now' now'' : Z)
      (c : Cache) (w : World) (v : option jsstring) :
  fst (cacheGet cfg id now now' c) = Some v ->
  redirectHandler cfg id now now' now'' c w
  = (match v with
     | Some cached => RedirectTo cached
     | None => SendText 404 (js "Not found")
     end, snd (cacheGet cfg id now now' c), w).
Proof.
  unfold redirectHandler, redirectStart.
  destruct (cacheGet cfg id now now' c) as [got c1]. simpl.
  intros ->. destruct v; reflexivity.
Qed.

Lemma redirectHandler_miss (cfg : Config) (id : jsstring) (now now' now'' : Z)
      (c : Cache) (w : World) :
  fst (cacheGet cfg id now now' c) = None ->
  redirectHandler cfg id now now' now'' c w
  = (match find (fun r => Js.eqb (shortId r) id) (urls w) with
     | Some row => RedirectTo (originalUrl row)
     | None => SendText 404 (js "Not found")
     end,
     cacheSet cfg id
       (option_map originalUrl
          (find (fun r => Js.eqb (shortId r) id) (urls w)))
       now'' (snd (cacheGet cfg id now now' c)),
     record (FindUnique id) w).
Proof.
  unfold redirectHandler, redirectStart.
  destruct (cacheGet cfg id now now' c) as [got c1]. simpl.
  intros ->. unfold findUnique.
  destruct (find _ (urls w)); reflexivity.
Qed.

(** C2 (amended). After a shorten operation that answers with a document,
    an address [u] that qualifies and occurs in it is mapped to an
    identifier [id]: the attributes that held [u] hold
    [BASE_URL + "/r/" + id] and the store has the row [(id, u)].  As long
    as that row is in the store, a redirect of [id] that misses the cache
    (no entry, or an expired one) reads the store, caches [u] and redirects
    to [u]; a redirect that finds a live cache entry answers from the cache
    without reading the store: its address, or not-found for a tombstone.
    A redirect of an identifier with no row that misses the cache answers
    not-found and caches a tombstone. *)
Theorem shortened_address_redirects_unless_cached
        (cfg : Config) (doc doc' : Node) (w w' : World) (u : jsstring) :
  uniqueShortIds (urls w) ->
  shortenDocument cfg doc w = (Ok doc', w') ->
  In (Some u) (hrefs doc) ->
  isShortenable (Some u) = true ->
  exists id,
    (forall i,
        nth_error (hrefs doc) i = Some (Some u) ->
        nth_error (hrefs doc') i
        = Some (Some (BASE_URL cfg ++ js "/r/" ++ id)))
    /\ uniqueShortIds (urls w')
    /\ In (mkUrl id u) (urls w')
    /\ forall (c : Cache) (now now' now'' : Z) (w2 : World),
         uniqueShortIds (urls w2) ->
         In (mkUrl id u) (urls w2) ->
         (fst (cacheGet cfg id now now' c) = None ->
          redirectHandler cfg id now now' now'' c w2
          = (RedirectTo u,
             cacheSet cfg id (Some u) now'' (snd (cacheGet cfg id now now' c)),
             record (FindUnique id) w2))
         /\ (forall v,
               fst (cacheGet cfg id now now' c) = Some v ->
               redirectHandler cfg id now now' now'' c w2
               = (match v with
                  | Some cached => RedirectTo cached
                  | None => SendText 404 (js "Not found")
                  end, snd (cacheGet cfg id now now' c), w2))
         /\ (forall other,
               ~ In other (map shortId (urls w2)) ->
               fst (cacheGet cfg other now now' c) = None ->
               redirectHandler cfg other now now' now'' c w2
               = (SendText 404 (js "Not found"),
                  cacheSet cfg other None now''
                    (snd (cacheGet cfg other now now' c)),
                  record (FindUnique other) w2)).
Proof.
  intros Hnd H Hu Hq.
  destruct (@shortenDocument_inv cfg doc doc' w w' H)
    as (cache & -> & Hall & _ & Hnd').
  destruct (Hall u Hu Hq) as (_ & _ & _ & id & Hg & Hrow).
  exists id. split; [|split; [auto | split; [exact Hrow|]]].
  - intros i Hi. rewrite hrefs_rewritePass, nth_error_map, Hi. simpl.
    unfold rewriteHref. rewrite Hq, Hg, truthy_shortUrl. reflexivity.
  - intros c now now' now'' w2 Hnd2 Hrow2. split; [|split].
    + intros Hmiss. rewrite redirectHandler_miss by assumption.
      now rewrite (@find_shortId_unique id u (urls w2) Hnd2 Hrow2).
    + intros v Hv. now apply redirectHandler_hit.
    + intros other Hother Hmiss. rewrite redirectHandler_miss by assumption.
      now rewrite find_shortId_None.
Qed.

(** C2 as stated fails. A redirect of an identifier the store does not know
    caches a tombstone; a shorten operation then maps an address to that
    identifier; a redirect one second later still answers not-found. *)
Lemma tombstone_hides_new_mapping :
  let cfg := Sample.cfg 1000 in
  let w0 := Sample.world Sample.fieldArray [] [Sample.idA; Sample.idB] in
  let '(r1, c1, w1) := redirectHandler cfg Sample.idA 0 0 0 [] w0 in
  let '(r2, w2) := shortenDocument cfg Sample.doc w1 in
  let '(r3, c3, w3) := redirectHandler cfg Sample.idA 1000 1000 1000 c1 w2 in
  r1 = SendText 404 (js "Not found")
  /\ c1 = [(Sample.idA, mkEntry None 30000)]
  /\ match r2 with
     | Ok doc' =>
         nth_error (hrefs doc') 0
         = Some (Some (BASE_URL cfg ++ js "/r/" ++ Sample.idA))
     | Throw _ => False
     end
  /\ In (mkUrl Sample.idA Sample.urlA) (urls w2)
  /\ r3 = SendText 404 (js "Not found")
  /\ r3 <> RedirectTo Sample.urlA.
Proof.
  vm_compute. repeat split; auto. discriminate.
Qed.

Lemma shortened_address_redirects_unless_cached_witness :
  let cfg := Sample.cfg 1000 in
  let w := Sample.world Sample.fieldArray [] [Sample.idA; Sample.idB] in
  let doc' := fst (shortenDocument cfg Sample.doc w) in
  let w' := snd (shortenDocument cfg Sample.doc w) in
  uniqueShortIds (urls w)
  /\ In (Some Sample.urlA) (hrefs Sample.doc)
  /\ isShortenable (Some Sample.urlA) = true
  /\ exists d id,
       shortenDocument cfg Sample.doc w = (Ok d, w')
       /\ In (mkUrl id Sample.urlA) (urls w')
       /\ fst (fst (redirectHandler cfg id 5 5 5 [] w')) = RedirectTo Sample.urlA.
Proof.
  intros cfg w doc' w'.
  assert (Hnd : uniqueShortIds (urls w)) by constructor.
  split; [exact Hnd|]. split; [left; reflexivity|]. split; [reflexivity|].
  destruct doc' as [d|e] eqn:Hd; [|discriminate Hd].
  assert (Hrun : shortenDocument cfg Sample.doc w = (Ok d, w')).
  { rewrite (surjective_pairing (shortenDocument cfg Sample.doc w)).
    fold doc'. fold w'. now rewrite Hd. }
  destruct (@shortened_address_redirects_unless_cached cfg Sample.doc d w w'
              Sample.urlA Hnd Hrun (or_introl eq_refl) eq_refl)
    as (id & _ & Hnd' & Hrow & Hred).
  exists d, id. split; [exact Hrun|]. split; [exact Hrow|].
  destruct (Hred [] 5%Z 5%Z 5%Z w' Hnd' Hrow) as (Hmiss & _).
  rewrite Hmiss; reflexivity.
Defined.

(* ------------------------------------------------------------------ *)
(** ** What a shorten operation leaves unchanged *)








Lemma each_unchanged (tag : jsstring)
      (f : JsMap.t jsstring -> JsMap.t jsstring) (doc : Node) :
  (forall attribs, In attribs (select tag doc) -> f attribs = attribs) ->
  each tag f doc = doc.
Proof.
  induction doc as [children IH | name attribs children IH | kind data]
    using Node_forall_ind; simpl; intros Hf.
  - f_equal. induction IH as [|x l Hx _ IHl]; simpl in *; [reflexivity|].
    rewrite Hx, IHl; auto; intros a Ha; apply Hf, in_or_app; auto.
  - f_equal.
    + destruct (Js.eqb name tag); [|reflexivity].
      apply Hf. simpl. auto.
    + assert (Hf' : forall a, In a (flat_map (select tag) children) -> f a = a)
        by (intros a Ha; apply Hf, in_or_app; auto).
      clear Hf. induction IH as [|x l Hx _ IHl]; simpl in *; [reflexivity|].
      rewrite Hx, IHl; auto; intros a Ha; apply Hf', in_or_app; auto.
  - reflexivity.
Qed.

Lemma rewriteStep_unqualified (attr : jsstring)
      (cache attribs : JsMap.t jsstring) :
  isShortenable (JsMap.get attr attribs) = false ->
  rewriteStep attr cache attribs = attribs.
Proof. unfold rewriteStep. now intros ->. Qed.

Lemma rewritePass_unchanged (cache : JsMap.t jsstring) (doc : Node) :
  (forall href, In href (hrefs doc) -> isShortenable href = false) ->
  rewritePass cache doc = doc.
Proof.
  unfold hrefs, rewritePass, attrTargets. cbn [fold_left flat_map].
  intros H.
  assert (Hside : forall tag attr attribs,
             In (JsMap.get attr attribs)
                (map (JsMap.get (js "href")) (select (js "a") doc)
                 ++ map (JsMap.get (js "href")) (select (js "area") doc)
                 ++ map (JsMap.get (js "href")) (select (js "link") doc)
                 ++ map (JsMap.get (js "src")) (select (js "img") doc)
                 ++ map (JsMap.get (js "src")) (select (js "script") doc)
                 ++ []) ->
             In attribs (select tag doc) ->
             rewriteStep attr cache attribs = attribs).
  { intros tag attr attribs Hin _. apply rewriteStep_unqualified, H, Hin. }
  rewrite (@each_unchanged (js "a") _ doc).
  rewrite (@each_unchanged (js "area") _ doc).
  rewrite (@each_unchanged (js "link") _ doc).
  rewrite (@each_unchanged (js "img") _ doc).
  rewrite (@each_unchanged (js "script") _ doc).
  reflexivity.
  all: intros attribs Ha; apply (Hside _ _ _) with (2 := Ha);
    repeat first [ apply in_or_app; left; apply in_map; exact Ha
                 | apply in_or_app; right ].
Qed.





(* ================================================================== *)
(** * Further properties *)

(** ** Redirect cache: what a call leaves alone *)

Lemma size_delete_le {V} (k : jsstring) (m : JsMap.t V) :
  JsMap.size (JsMap.delete k m) <= JsMap.size m.
Proof.
  unfold JsMap.size. induction m as [|[k0 v0] m IH]; simpl; auto.
  destruct (Js.eqb k0 k); simpl; lia.
Qed.

Lemma size_delete_lt {V} (k : jsstring) (m : JsMap.t V) :
  In k (JsMap.keys m) -> JsMap.size (JsMap.delete k m) < JsMap.size m.
Proof.
  unfold JsMap.size. induction m as [|[k0 v0] m IH]; simpl; [tauto|].
  destruct (Js.eqb k0 k) eqn:E.
  - intros _. pose proof (size_delete_le k m). unfold JsMap.size in *. lia.
  - apply eqb_neq in E. intros [H|H]; [congruence|]. simpl.
    specialize (IH H). lia.
Qed.

Lemma In_keys_set {V} (k k' : jsstring) (v : V) (m : JsMap.t V) :
  In k (JsMap.keys (JsMap.set k' v m)) <-> k = k' \/ In k (JsMap.keys m).
Proof.
  induction m as [|[k0 v0] m IH]; simpl.
  - intuition.
  - destruct (Js.eqb k0 k') eqn:E; simpl.
    + apply eqb_eq in E. subst. intuition.
    + rewrite IH. intuition.
Qed.

Lemma NoDup_keys_set {V} (k : jsstring) (v : V) (m : JsMap.t V) :
  NoDup (JsMap.keys m) -> NoDup (JsMap.keys (JsMap.set k v m)).
Proof.
  intros Hnd. destruct (in_dec Js.eq_dec k (JsMap.keys m)) as [Hin|Hn].
  - now rewrite keys_set_present.
  - rewrite set_absent by now apply get_None_iff.
    rewrite keys_app. simpl. apply NoDup_app; auto.
    + repeat constructor. intros [].
    + intros x Hx [<-|[]]. contradiction.
Qed.

Lemma size_set_absent {V} (k : jsstring) (v : V) (m : JsMap.t V) :
  JsMap.get k m = None -> JsMap.size (JsMap.set k v m) = S (JsMap.size m).
Proof.
  intros H. rewrite set_absent by assumption.
  unfold JsMap.size. rewrite length_app. simpl. lia.
Qed.

(** X1. [cacheGet] touches the entry of its key only: every other key
    keeps its entry, no key is added, and the cache does not grow. *)
Theorem cacheGet_touches_one_key
        (cfg : Config) (key : jsstring) (now now' : Z) (c : Cache) :
  let c' := snd (cacheGet cfg key now now' c) in
  (forall k, k <> key -> JsMap.get k c' = JsMap.get k c)
  /\ (forall k, In k (JsMap.keys c') -> In k (JsMap.keys c))
  /\ JsMap.size c' <= JsMap.size c.
Proof.
  unfold cacheGet. destruct (JsMap.get key c) as [entry|] eqn:Hget; simpl.
  - pose proof (get_Some_In _ _ Hget) as Hin.
    destruct (expiresAt entry <=? now)%Z; simpl.
    + split; [|split].
      * intros k Hk. now apply get_delete_other.
      * intros k Hk. apply In_keys_delete in Hk. tauto.
      * apply size_delete_le.
    + split; [|split].
      * intros k Hk. rewrite get_set_other by assumption.
        now apply get_delete_other.
      * intros k Hk. apply In_keys_set in Hk. destruct Hk as [->|Hk]; auto.
        apply In_keys_delete in Hk. tauto.
      * rewrite size_set_absent by apply get_delete_same.
        apply size_delete_lt. exact Hin.
  - auto.
Qed.

Lemma cacheGet_within_bounds (cfg : Config) (key : jsstring) (now now' : Z)
      (c : Cache) :
  cacheWithinBounds cfg c ->
  cacheWithinBounds cfg (snd (cacheGet cfg key now now' c)).
Proof.
  intros [Hnd Hsz]. split.
  - unfold cacheGet. destruct (JsMap.get key c) as [entry|]; simpl; auto.
    destruct (expiresAt entry <=? now)%Z; simpl.
    + now apply NoDup_keys_delete.
    + apply NoDup_keys_set. now apply NoDup_keys_delete.
  - destruct (cacheGet_touches_one_key cfg key now now' c) as (_ & _ & H).
    simpl in H. lia.
Qed.

Lemma cacheSet_within_bounds (cfg : Config) (key : jsstring)
      (v : option jsstring) (now : Z) (c : Cache) :
  cacheWithinBounds cfg c -> cacheWithinBounds cfg (cacheSet cfg key v now c).
Proof. intros [Hnd Hsz]. now apply cacheSet_invariant. Qed.

(** X2. Whatever [cacheGet] and [cacheSet] calls are made, in whatever
    order and with whatever clocks, a cache with distinct keys and at most
    [CACHE_MAX_ENTRIES] entries stays so; in particular the cache grown
    from the empty one never exceeds the capacity. *)
Theorem cacheRun_within_bounds
        (cfg : Config) (ops : list CacheOp) (c : Cache) :
  cacheWithinBounds cfg c -> cacheWithinBounds cfg (cacheRun cfg ops c).
Proof.
  revert c. induction ops as [|op ops IH]; intros c Hc; [exact Hc|].
  unfold cacheRun. simpl. apply IH.
  destruct op as [key now now'|key v now].
  - now apply cacheGet_within_bounds.
  - now apply cacheSet_within_bounds.
Qed.

Lemma cacheRun_within_bounds_witness :
  let ops := [OpSet Sample.idA (Some Sample.urlA) 0; OpSet Sample.idB None 1;
              OpGet Sample.idA 2 2; OpSet Sample.idC (Some Sample.urlC) 3;
              OpGet Sample.idB 40000 40000] in
  cacheWithinBounds (Sample.cfg 2) []
  /\ cacheWithinBounds (Sample.cfg 2) (cacheRun (Sample.cfg 2) ops [])
  /\ JsMap.keys (cacheRun (Sample.cfg 2) ops []) = [Sample.idA; Sample.idC].
Proof.
  intros ops.
  assert (H0 : cacheWithinBounds (Sample.cfg 2) []).
  { split; [constructor | simpl; lia]. }
  split; [exact H0|]. split; [|reflexivity].
  exact (@cacheRun_within_bounds (Sample.cfg 2) ops [] H0).
Defined.

Lemma get_cacheSet (cfg : Config) (key : jsstring) (v : option jsstring)
      (now : Z) (c : Cache) :
  cacheWithinBounds cfg c ->
  1 <= CACHE_MAX_ENTRIES cfg ->
  JsMap.get key (cacheSet cfg key v now c)
  = Some (mkEntry v (now + ttlOf cfg v)).
Proof.
  intros [Hnd Hsz] HC.
  destruct (JsMap.get key c) as [old|] eqn:Hget.
  - rewrite cacheSet_present by (eauto using get_Some_In).
    apply get_set_same.
  - unfold cacheSet. cbv zeta.
    destruct (Nat.ltb_spec (CACHE_MAX_ENTRIES cfg)
                (JsMap.size (JsMap.set key (mkEntry v (now + ttlOf cfg v)) c)))
      as [Hlt|Hle]; [|apply get_set_same].
    rewrite size_set_absent in Hlt by assumption.
    destruct c as [|[k0 e0] c]; [unfold JsMap.size in Hlt; simpl in Hlt; lia|].
    simpl in Hget. destruct (Js.eqb k0 key) eqn:E; [discriminate|].
    assert (Hne : key <> k0) by (apply eqb_neq in E; congruence).
    simpl JsMap.set. rewrite E. simpl JsMap.keys. cbv iota.
    rewrite get_delete_other by assumption.
    simpl. rewrite E. apply get_set_same.
Qed.

(** X3. On a cache within its bounds and with capacity at least 1, a value
    written by [cacheSet] is read back by [cacheGet] of the same key at any
    clock before [now + TTL], the TTL being that of the kind of the value
    (a tombstone is read back as a cached [null]). *)
Theorem cacheSet_then_cacheGet
        (cfg : Config) (key : jsstring) (v : option jsstring)
        (now t t' : Z) (c : Cache) :
  cacheWithinBounds cfg c ->
  1 <= CACHE_MAX_ENTRIES cfg ->
  (t < now + ttlOf cfg v)%Z ->
  fst (cacheGet cfg key t t' (cacheSet cfg key v now c)) = Some v.
Proof.
  intros Hb HC Ht. unfold cacheGet.
  rewrite (get_cacheSet key v now Hb HC). simpl.
  apply Z.leb_gt in Ht. now rewrite Ht.
Qed.

Lemma cacheSet_then_cacheGet_witness :
  let c := [(Sample.idA, mkEntry (Some Sample.urlA) 10);
            (Sample.idB, mkEntry None 20)] in
  cacheWithinBounds (Sample.cfg 2) c
  /\ 1 <= CACHE_MAX_ENTRIES (Sample.cfg 2)
  /\ (29999 < 0 + ttlOf (Sample.cfg 2) None)%Z
  /\ fst (cacheGet (Sample.cfg 2) Sample.idC 29999 29999
            (cacheSet (Sample.cfg 2) Sample.idC None 0 c)) = Some None.
Proof.
  intros c.
  assert (Hb : cacheWithinBounds (Sample.cfg 2) c).
  { split; [distinct_keys | simpl; lia]. }
  assert (HC : 1 <= CACHE_MAX_ENTRIES (Sample.cfg 2)) by (simpl; lia).
  assert (Ht : (29999 < 0 + ttlOf (Sample.cfg 2) None)%Z) by (simpl; lia).
  split; [exact Hb|]. split; [exact HC|]. split; [exact Ht|].
  exact (@cacheSet_then_cacheGet (Sample.cfg 2) Sample.idC None 0 29999 29999
           c Hb HC Ht).
Defined.

(** X4. [cacheSet] of a key leaves the entry of every other key as it was,
    with one exception: when the key is new and the cache is full, the
    oldest key loses its entry. *)
Theorem cacheSet_drops_oldest_only
        (cfg : Config) (key : jsstring) (v : option jsstring) (now : Z)
        (c : Cache) (k : jsstring) :
  cacheWithinBounds cfg c ->
  k <> key ->
  JsMap.get k (cacheSet cfg key v now c) = JsMap.get k c
  \/ (JsMap.get k (cacheSet cfg key v now c) = None
      /\ JsMap.size c = CACHE_MAX_ENTRIES cfg
      /\ JsMap.get key c = None
      /\ hd_error (JsMap.keys c) = Some k).
Proof.
  intros [Hnd Hsz] Hk.
  destruct (JsMap.get key c) as [old|] eqn:Hget.
  - left. rewrite cacheSet_present by (eauto using get_Some_In).
    now apply get_set_other.
  - unfold cacheSet. cbv zeta.
    destruct (Nat.ltb_spec (CACHE_MAX_ENTRIES cfg)
                (JsMap.size (JsMap.set key (mkEntry v (now + ttlOf cfg v)) c)))
      as [Hlt|Hle]; [|left; now apply get_set_other].
    rewrite size_set_absent in Hlt by assumption.
    destruct c as [|[k0 e0] c].
    + left. simpl. rewrite eqb_refl. reflexivity.
    + simpl in Hget. destruct (Js.eqb k0 key) eqn:E; [discriminate|].
      simpl JsMap.set. rewrite E. simpl JsMap.keys. cbv iota.
      destruct (Js.eq_dec k k0) as [Heq|Hne].
      * subst k. right. split; [apply get_delete_same|].
        split; [lia|]. split; reflexivity.
      * left. rewrite get_delete_other by assumption.
        simpl. destruct (Js.eqb k0 k); [reflexivity|].
        now apply get_set_other.
Qed.

Lemma cacheSet_drops_oldest_only_witness :
  let c := [(Sample.idA, mkEntry (Some Sample.urlA) 10);
            (Sample.idB, mkEntry None 20)] in
  cacheWithinBounds (Sample.cfg 2) c
  /\ Sample.idB <> Sample.idC
  /\ JsMap.get Sample.idB (cacheSet (Sample.cfg 2) Sample.idC None 0 c)
     = Some (mkEntry None 20)
  /\ JsMap.get Sample.idA (cacheSet (Sample.cfg 2) Sample.idC None 0 c) = None.
Proof.
  intros c.
  assert (Hb : cacheWithinBounds (Sample.cfg 2) c).
  { split; [distinct_keys | simpl; lia]. }
  assert (Hne : Sample.idB <> Sample.idC) by discriminate.
  split; [exact Hb|]. split; [exact Hne|]. split; [|reflexivity].
  destruct (@cacheSet_drops_oldest_only (Sample.cfg 2) Sample.idC None 0 c
              Sample.idB Hb Hne) as [H|(_ & _ & _ & H)].
  - exact H.
  - discriminate H.
Defined.

(** X5. The expiry slides without limit: when every read of a key comes
    before the expiry the read before it left (its second clock plus the
    TTL of the kind of the value), every read is a hit with the value, so
    an entry that is read often enough is never dropped for its age. *)
Theorem reads_in_time_always_hit
        (cfg : Config) (key : jsstring) (clocks : list (Z * Z)) :
  forall (c : Cache) (entry : CacheEntry),
    JsMap.get key c = Some entry ->
    readsInTime (ttlOf cfg (value entry)) (expiresAt entry) clocks ->
    fst (cacheGetAll cfg key clocks c)
    = map (fun _ => Some (value entry)) clocks
    /\ exists expiry,
         JsMap.get key (snd (cacheGetAll cfg key clocks c))
         = Some (mkEntry (value entry) expiry).
Proof.
  induction clocks as [|[now now'] clocks IH]; intros c entry Hget Hin.
  - simpl. split; [reflexivity|]. exists (expiresAt entry).
    rewrite Hget. now destruct entry.
  - simpl in Hin. destruct Hin as [Hnow Hrest].
    simpl. unfold cacheGet at 1 2. rewrite Hget.
    apply Z.leb_gt in Hnow. rewrite Hnow. cbv zeta.
    set (c1 := JsMap.set key
                 (mkEntry (value entry) (now' + ttlOf cfg (value entry)))
                 (JsMap.delete key c)).
    destruct (IH c1 (mkEntry (value entry) (now' + ttlOf cfg (value entry))))
      as [Hres Hlast].
    + apply get_set_same.
    + exact Hrest.
    + destruct (cacheGetAll cfg key clocks c1) as [rest c2].
      simpl in *. split; [now rewrite Hres | exact Hlast].
Qed.

Lemma reads_in_time_always_hit_witness :
  let c := [(Sample.idA, mkEntry None 30000)] in
  let clocks := [(29000, 29000); (58000, 58001); (88000, 88000)]%Z in
  JsMap.get Sample.idA c = Some (mkEntry None 30000)
  /\ readsInTime (ttlOf (Sample.cfg 2) None) 30000 clocks
  /\ fst (cacheGetAll (Sample.cfg 2) Sample.idA clocks c)
     = [Some None; Some None; Some None].
Proof.
  intros c clocks.
  assert (Hin : readsInTime (ttlOf (Sample.cfg 2) None) 30000 clocks).
  { simpl. repeat split; lia. }
  split; [reflexivity|]. split; [exact Hin|].
  exact (proj1 (@reads_in_time_always_hit (Sample.cfg 2) Sample.idA clocks c
                  (mkEntry None 30000) eq_refl Hin)).
Defined.

(* ------------------------------------------------------------------ *)
(** ** Redirect: what the cache does to the answers *)

Lemma redirectHandler_first (cfg : Config) (id : jsstring)
      (now now' now'' : Z) (c : Cache) (w : World) :
  fst (cacheGet cfg id now now' c) = None ->
  let found :=
    option_map originalUrl
      (find (fun r => Js.eqb (shortId r) id) (urls w)) in
  redirectHandler cfg id now now' now'' c w
  = (match found with
     | Some url => RedirectTo url
     | None => SendText 404 (js "Not found")
     end,
     cacheSet cfg id found now'' (snd (cacheGet cfg id now now' c)),
     record (FindUnique id) w).
Proof.
  intros Hmiss. rewrite redirectHandler_miss by assumption.
  destruct (find _ (urls w)); reflexivity.
Qed.

(** X6. After a redirect request that missed the cache, on a cache within
    its bounds and with capacity at least 1, a request for the same
    identifier before the new entry expires gets the same answer again and
    the store is not read: the world is returned as it was given, whatever
    rows it holds by then. *)
Theorem redirect_answer_is_repeated_from_cache
        (cfg : Config) (id : jsstring) (now now' now'' t t' t'' : Z)
        (c : Cache) (w w2 : World) :
  cacheWithinBounds cfg c ->
  1 <= CACHE_MAX_ENTRIES cfg ->
  fst (cacheGet cfg id now now' c) = None ->
  (t < now''
       + ttlOf cfg (option_map originalUrl
                      (find (fun r => Js.eqb (shortId r) id) (urls w))))%Z ->
  let '(res, c1, _) := redirectHandler cfg id now now' now'' c w in
  redirectHandler cfg id t t' t'' c1 w2
  = (res, snd (cacheGet cfg id t t' c1), w2).
Proof.
  intros Hb HC Hmiss Ht.
  rewrite (redirectHandler_first cfg id now now' now'' c w Hmiss).
  set (found := option_map originalUrl
                  (find (fun r => Js.eqb (shortId r) id) (urls w))) in *.
  set (c1 := cacheSet cfg id found now''
               (snd (cacheGet cfg id now now' c))).
  assert (Hhit : fst (cacheGet cfg id t t' c1) = Some found).
  { apply cacheSet_then_cacheGet; auto.
    now apply cacheGet_within_bounds. }
  rewrite (redirectHandler_hit cfg id t t' t'' c1 w2 Hhit).
  destruct found; reflexivity.
Qed.

Lemma redirect_answer_is_repeated_from_cache_witness :
  let cfg := Sample.cfg 2 in
  let w := Sample.world Sample.fieldArray [mkUrl Sample.idA Sample.urlA] [] in
  let w2 := Sample.world Sample.fieldArray [] [] in
  cacheWithinBounds cfg []
  /\ fst (cacheGet cfg Sample.idA 0 0 []) = None
  /\ redirectHandler cfg Sample.idA 299999 299999 299999
       (snd (fst (redirectHandler cfg Sample.idA 0 0 0 [] w))) w2
     = (RedirectTo Sample.urlA,
        [(Sample.idA, mkEntry (Some Sample.urlA) 599999)], w2).
Proof.
  intros cfg w w2.
  assert (Hb : cacheWithinBounds cfg []).
  { split; [constructor | simpl; lia]. }
  split; [exact Hb|]. split; [reflexivity|].
  exact (@redirect_answer_is_repeated_from_cache cfg Sample.idA 0 0 0
           299999 299999 299999 [] w w2 Hb
           ltac:(simpl; lia) eq_refl ltac:(simpl; lia)).
Defined.

(** X7. Once the entry a missing redirect wrote has expired, and was not
    read in between, the next request for the identifier reads the store
    again and answers what the store holds then: a mapping created in the
    meantime is found, a removed one is reported not found. *)
Theorem redirect_reads_store_after_expiry
        (cfg : Config) (id : jsstring) (now now' now'' t t' t'' : Z)
        (c : Cache) (w w2 : World) :
  cacheWithinBounds cfg c ->
  1 <= CACHE_MAX_ENTRIES cfg ->
  fst (cacheGet cfg id now now' c) = None ->
  (now''
   + ttlOf cfg (option_map originalUrl
                  (find (fun r => Js.eqb (shortId r) id) (urls w))) <= t)%Z ->
  let '(_, c1, _) := redirectHandler cfg id now now' now'' c w in
  let found2 :=
    option_map originalUrl
      (find (fun r => Js.eqb (shortId r) id) (urls w2)) in
  redirectHandler cfg id t t' t'' c1 w2
  = (match found2 with
     | Some url => RedirectTo url
     | None => SendText 404 (js "Not found")
     end,
     cacheSet cfg id found2 t'' (snd (cacheGet cfg id t t' c1)),
     record (FindUnique id) w2).
Proof.
  intros Hb HC Hmiss Ht.
  rewrite (redirectHandler_first cfg id now now' now'' c w Hmiss).
  set (found := option_map originalUrl
                  (find (fun r => Js.eqb (shortId r) id) (urls w))) in *.
  set (c1 := cacheSet cfg id found now''
               (snd (cacheGet cfg id now now' c))).
  cbv zeta. apply redirectHandler_first.
  unfold cacheGet at 1. unfold c1.
  rewrite (@get_cacheSet cfg id found now'' _
             (@cacheGet_within_bounds cfg id now now' c Hb) HC).
  simpl. apply Z.leb_le in Ht. now rewrite Ht.
Qed.

Lemma redirect_reads_store_after_expiry_witness :
  let cfg := Sample.cfg 2 in
  let w := Sample.world Sample.fieldArray [] [] in
  let w2 := Sample.world Sample.fieldArray [mkUrl Sample.idA Sample.urlA] [] in
  cacheWithinBounds cfg []
  /\ fst (cacheGet cfg Sample.idA 0 0 []) = None
  /\ fst (fst (redirectHandler cfg Sample.idA 0 0 0 [] w))
     = SendText 404 (js "Not found")
  /\ redirectHandler cfg Sample.idA 30000 30000 30000
       (snd (fst (redirectHandler cfg Sample.idA 0 0 0 [] w))) w2
     = (RedirectTo Sample.urlA,
        [(Sample.idA, mkEntry (Some Sample.urlA) 330000)],
        record (FindUnique Sample.idA) w2).
Proof.
  intros cfg w w2.
  assert (Hb : cacheWithinBounds cfg []).
  { split; [constructor | simpl; lia]. }
  split; [exact Hb|]. split; [reflexivity|]. split; [reflexivity|].
  exact (@redirect_reads_store_after_expiry cfg Sample.idA 0 0 0
           30000 30000 30000 [] w w2 Hb
           ltac:(simpl; lia) eq_refl ltac:(simpl; lia)).
Defined.

Lemma In_keys_cacheSet (cfg : Config) (key : jsstring)
      (v : option jsstring) (now : Z) (c : Cache) (k : jsstring) :
  In k (JsMap.keys (cacheSet cfg key v now c)) ->
  k = key \/ In k (JsMap.keys c).
Proof.
  unfold cacheSet. cbv zeta.
  set (m := JsMap.set key (mkEntry v (now + ttlOf cfg v)) c).
  assert (Hm : In k (JsMap.keys m) -> k = key \/ In k (JsMap.keys c))
    by (unfold m; apply In_keys_set).
  destruct (CACHE_MAX_ENTRIES cfg <? JsMap.size m); [|exact Hm].
  destruct (JsMap.keys m) as [|k1 ks] eqn:Hks.
  - rewrite Hks. exact Hm.
  - intros H. apply In_keys_delete in H. rewrite <- Hks in Hm. tauto.
Qed.

(** X8. A redirect request only reads the store: the rows and the
    identifier source are left as they were and at most one lookup by
    [shortId] is made; the cache stays within its bounds and gains no key
    but the requested one. *)
Theorem redirect_only_reads_the_store
        (cfg : Config) (id : jsstring) (now now' now'' : Z)
        (c : Cache) (w : World) :
  let '(_, c', w') := redirectHandler cfg id now now' now'' c w in
  urls w' = urls w
  /\ drawn w' = drawn w
  /\ (calls w' = calls w \/ calls w' = FindUnique id :: calls w)
  /\ (cacheWithinBounds cfg c -> cacheWithinBounds cfg c')
  /\ (forall k, In k (JsMap.keys c') -> k = id \/ In k (JsMap.keys c)).
Proof.
  destruct (fst (cacheGet cfg id now now' c)) as [v|] eqn:Hget.
  - rewrite (redirectHandler_hit cfg id now now' now'' c w Hget).
    split; [reflexivity|]. split; [reflexivity|]. split; [auto|].
    split; [apply cacheGet_within_bounds|].
    intros k Hk. right.
    now apply (cacheGet_touches_one_key cfg id now now' c).
  - rewrite (redirectHandler_first cfg id now now' now'' c w Hget).
    split; [reflexivity|]. split; [reflexivity|]. split; [auto|].
    split.
    + intros Hb. apply cacheSet_within_bounds.
      now apply cacheGet_within_bounds.
    + intros k Hk. apply In_keys_cacheSet in Hk.
      destruct Hk as [Hk|Hk]; [auto|]. right.
      now apply (cacheGet_touches_one_key cfg id now now' c).
Qed.

(* ------------------------------------------------------------------ *)
(** ** Allocator: budget and result *)

Lemma create_outcome (id url : jsstring) (w w' : World) (r : Result Url) :
  create id url w = (r, w') ->
  (drawn w' = drawn w /\ entropy w' = entropy w)
  /\ match r with
     | Ok row =>
         row = mkUrl id url
         /\ ~ In id (map shortId (urls w))
         /\ ~ In url (map originalUrl (urls w))
         /\ urls w' = urls w ++ [mkUrl id url]
         /\ calls w' = Create id url true :: calls w
     | Throw e =>
         urls w' = urls w
         /\ calls w' = Create id url false :: calls w
         /\ exists target, e = uniqueViolation target
     end.
Proof.
  unfold create.
  destruct (existsb (fun r0 => Js.eqb (shortId r0) id) (urls w)) eqn:E1.
  - intros H. inversion H; subst. simpl. eauto 6.
  - destruct (existsb (fun r0 => Js.eqb (originalUrl r0) url) (urls w)) eqn:E2.
    + intros H. inversion H; subst. simpl. eauto 6.
    + intros H. inversion H; subst. simpl.
      apply (existsb_false_iff _ _ (existsb_shortId _ _)) in E1.
      apply (existsb_false_iff _ _ (existsb_originalUrl _ _)) in E2.
      auto 6.
Qed.

Lemma attemptLoop_outcome (url : jsstring) (length remaining : nat) :
  forall (lastError : option Exn) (w w' : World) (r : Result jsstring),
    attemptLoop url length remaining lastError w = (r, w') ->
    exists n,
      n <= remaining
      /\ drawn w' = drawn w + n
      /\ List.length (calls w') = List.length (calls w) + n
      /\ match r with
         | Ok id =>
             1 <= n
             /\ id = entropy w (drawn w + n - 1)
             /\ ~ In id (map shortId (urls w))
             /\ ~ In url (map originalUrl (urls w))
             /\ urls w' = urls w ++ [mkUrl id url]
         | Throw e =>
             urls w' = urls w
             /\ (remaining = 0 -> e = exhausted lastError)
         end.
Proof.
  induction remaining as [|remaining IH]; intros lastError w w' r H.
  - simpl in H. unfold throw in H. inversion H; subst.
    exists 0. repeat split; auto; lia.
  - rewrite attemptLoop_step in H. cbv zeta in H.
    destruct (create (entropy w (drawn w)) url (snd (nanoid length w)))
      as [[row|e] w1] eqn:Hc;
      apply create_outcome in Hc; simpl in Hc; destruct Hc as [[Hd He] Hc].
    + destruct Hc as (_ & Hid & Hurl & Hu & Hcalls).
      inversion H; subst. exists 1.
      split; [lia|]. split; [lia|]. split; [rewrite Hcalls; simpl; lia|].
      split; [lia|]. split; [f_equal; lia|]. auto.
    + destruct Hc as (Hu & Hcalls & target & ->).
      assert (Hstop : (Throw (uniqueViolation target), w1) = (r, w') ->
                exists n,
                  n <= S remaining
                  /\ drawn w' = drawn w + n
                  /\ List.length (calls w') = List.length (calls w) + n
                  /\ match r with
                     | Ok id =>
                         1 <= n
                         /\ id = entropy w (drawn w + n - 1)
                         /\ ~ In id (map shortId (urls w))
                         /\ ~ In url (map originalUrl (urls w))
                         /\ urls w' = urls w ++ [mkUrl id url]
                     | Throw e =>
                         urls w' = urls w
                         /\ (S remaining = 0 -> e = exhausted lastError)
                     end).
      { intros H0. inversion H0; subst. exists 1.
        split; [lia|]. split; [lia|].
        split; [rewrite Hcalls; simpl; lia|].
        split; [assumption | discriminate]. }
      unfold uniqueViolation in H. rewrite eqb_refl in H.
      destruct ((List.length (targetsOf target) =? 0)
                || includes (targetsOf target) (js "shortId"));
        [|exact (Hstop H)].
      apply IH in H. destruct H as (n & Hn & Hdr & Hlen & Hr).
      exists (S n). split; [lia|]. split; [simpl in Hd; lia|].
      split; [rewrite Hcalls in Hlen; simpl in Hlen; lia|].
      destruct r as [id|e].
      * destruct Hr as (H1 & Hid & Hf1 & Hf2 & Hrows).
        split; [lia|]. rewrite Hu in *. rewrite He in Hid.
        split; [|auto]. rewrite Hid. f_equal. simpl in Hd. lia.
      * destruct Hr as (Hrows & _). split; [congruence | discriminate].
Qed.

Lemma attemptLoop_calls (url : jsstring) (length remaining : nat) :
  forall (lastError : option Exn) (w w' : World) (r : Result jsstring),
    attemptLoop url length remaining lastError w = (r, w') ->
    exists new,
      calls w' = new ++ calls w
      /\ Forall (fun c => exists id ok, c = Create id url ok) new.
Proof.
  induction remaining as [|m IH]; intros lastError w w' r H.
  - simpl in H. inversion H; subst. exists []. split; [reflexivity|constructor].
  - rewrite attemptLoop_step in H. cbv zeta in H.
    destruct (create (entropy w (drawn w)) url (snd (nanoid length w)))
      as [[row|e] w1] eqn:Hc;
      apply create_outcome in Hc; simpl in Hc; destruct Hc as [_ Hc].
    + destruct Hc as (_ & _ & _ & _ & Hcalls). inversion H; subst.
      rewrite Hcalls. exists [Create (entropy w (drawn w)) url true].
      split; [reflexivity|]. repeat constructor. eauto.
    + destruct Hc as (_ & Hcalls & target & ->).
      assert (Hstop : (Throw (uniqueViolation target), w1) = (r, w') ->
                exists new,
                  calls w' = new ++ calls w
                  /\ Forall (fun c => exists id ok, c = Create id url ok) new).
      { intros H0. inversion H0; subst. rewrite Hcalls.
        exists [Create (entropy w (drawn w)) url false].
        split; [reflexivity|]. repeat constructor. eauto. }
      unfold uniqueViolation in H. rewrite eqb_refl in H.
      destruct ((List.length (targetsOf target) =? 0)
                || includes (targetsOf target) (js "shortId"));
        [|exact (Hstop H)].
      apply IH in H. destruct H as (new & Hnew & Hall). rewrite Hcalls in Hnew.
      exists (new ++ [Create (entropy w (drawn w)) url false]).
      split; [rewrite Hnew, <- app_assoc; reflexivity|].
      apply Forall_app. split; [exact Hall|]. repeat constructor. eauto.
Qed.

(** X9. Whatever the store answers, [createUrlWithUniqueShortId] draws at
    most [maxAttempts] identifiers and makes exactly one [create] call,
    for its address, per identifier drawn, and no other store call; with
    [maxAttempts = 0] it draws nothing, calls nothing and throws the error
    made after the loop. *)
Theorem allocator_stays_within_budget
        (url : jsstring) (length maxAttempts : nat) (w : World) :
  let '(r, w') := createUrlWithUniqueShortId url length maxAttempts w in
  (exists n,
      n <= maxAttempts
      /\ drawn w' = drawn w + n
      /\ List.length (calls w') = List.length (calls w) + n
      /\ attemptsFor url (calls w') = attemptsFor url (calls w) + n)
  /\ (maxAttempts = 0 ->
      r = Throw (Error (js "Failed to generate a unique shortId after multiple attempts"))
      /\ w' = w).
Proof.
  unfold createUrlWithUniqueShortId.
  destruct (attemptLoop url length maxAttempts None w) as [r w'] eqn:H.
  destruct (@attemptLoop_outcome url length maxAttempts None w w' r H)
    as (n & Hn & Hd & Hlen & Hr).
  destruct (@attemptLoop_calls url length maxAttempts None w w' r H)
    as (new & Hnew & Hall).
  split.
  - exists n. split; [assumption|]. split; [assumption|].
    split; [assumption|].
    rewrite Hnew in *. rewrite length_app in Hlen.
    unfold attemptsFor. rewrite filter_app, length_app.
    assert (Hfull : filter (fun c => match c with
                                     | Create _ u _ => Js.eqb u url
                                     | _ => false
                                     end) new = new).
    { clear -Hall. induction Hall as [|c l (id & ok & ->) _ IH]; simpl;
        [reflexivity|]. now rewrite eqb_refl, IH. }
    rewrite Hfull. lia.
  - intros ->. simpl in H. unfold throw in H. inversion H; subst. auto.
Qed.

(** X10. When [createUrlWithUniqueShortId] returns an identifier, that
    identifier is one it drew, no row had it as [shortId], no row had the
    address as [originalUrl], the one row [(identifier, address)] was added
    after the rows that were there, and both columns stay free of
    duplicates; when it throws, the rows are as they were. *)
Theorem allocator_adds_one_fresh_row_or_none
        (url : jsstring) (length maxAttempts : nat) (w : World) :
  let '(r, w') := createUrlWithUniqueShortId url length maxAttempts w in
  match r with
  | Ok id =>
      (exists i, i < maxAttempts /\ id = entropy w (drawn w + i))
      /\ ~ In id (map shortId (urls w))
      /\ ~ In url (map originalUrl (urls w))
      /\ urls w' = urls w ++ [mkUrl id url]
      /\ (uniqueShortIds (urls w) -> uniqueShortIds (urls w'))
      /\ (uniqueOriginalUrls (urls w) -> uniqueOriginalUrls (urls w'))
  | Throw _ => urls w' = urls w
  end.
Proof.
  unfold createUrlWithUniqueShortId.
  destruct (attemptLoop url length maxAttempts None w) as [r w'] eqn:H.
  destruct (@attemptLoop_outcome url length maxAttempts None w w' r H)
    as (n & Hn & Hd & Hlen & Hr).
  destruct r as [id|e]; [|tauto].
  destruct Hr as (H1 & Hid & Hf1 & Hf2 & Hrows).
  split; [exists (n - 1); split; [lia|]; rewrite Hid; f_equal; lia|].
  split; [assumption|]. split; [assumption|]. split; [assumption|].
  unfold uniqueShortIds, uniqueOriginalUrls. rewrite Hrows, !map_app. simpl.
  split; intros Hnd;
    (apply NoDup_app;
     [ assumption
     | repeat constructor; intros []
     | intros x Hx [<-|[]]; contradiction ]).
Qed.

(* ------------------------------------------------------------------ *)
(** ** Shorten: rejected requests, reuse, repetition *)

Lemma find_originalUrl_unique (id url : jsstring) (rows : list Url) :
  uniqueOriginalUrls rows ->
  In (mkUrl id url) rows ->
  find (fun r => Js.eqb (originalUrl r) url) rows = Some (mkUrl id url).
Proof.
  unfold uniqueOriginalUrls. induction rows as [|r rows IH]; simpl; [tauto|].
  intros Hnd Hin. inversion Hnd as [|? ? Hn Hd]; subst.
  destruct (Js.eqb (originalUrl r) url) eqn:E.
  - apply eqb_eq in E. destruct Hin as [->|Hin]; [reflexivity|].
    exfalso. apply Hn. rewrite E.
    change url with (originalUrl (mkUrl id url)). now apply in_map.
  - apply eqb_neq in E. destruct Hin as [->|Hin]; [simpl in E; congruence|].
    auto.
Qed.

Lemma find_originalUrl_In (url : jsstring) (rows : list Url) :
  In url (map originalUrl rows) ->
  exists row, find (fun r => Js.eqb (originalUrl r) url) rows = Some row.
Proof.
  intros H. destruct (find _ rows) as [row|] eqn:E; [eauto|].
  exfalso. apply in_map_iff in H. destruct H as (r & Hr & Hin).
  apply (find_none _ _ E) in Hin. rewrite Hr, eqb_refl in Hin. discriminate.
Qed.

(** One address: what happens to the rows, whatever the outcome. *)
Lemma resolveOne_rows (url : jsstring) (w w' : World) (r : Result jsstring) :
  resolveOne url w = (r, w') ->
  (exists extra,
      urls w' = urls w ++ extra
      /\ Forall (fun row => originalUrl row = url) extra)
  /\ (uniqueShortIds (urls w) -> uniqueShortIds (urls w'))
  /\ (uniqueOriginalUrls (urls w) -> uniqueOriginalUrls (urls w'))
  /\ (In url (map originalUrl (urls w)) ->
      urls w' = urls w /\ drawn w' = drawn w
      /\ calls w' = FindFirst url :: calls w
      /\ exists row,
           find (fun r0 => Js.eqb (originalUrl r0) url) (urls w) = Some row
           /\ r = Ok (shortId row)).
Proof.
  unfold resolveOne, bind, findFirst. intros H.
  destruct (find _ (urls w)) as [row|] eqn:Hf.
  - unfold ret in H. inversion H; subst. simpl.
    split; [exists []; split; [now rewrite app_nil_r | constructor]|].
    split; [auto|]. split; [auto|]. intros _. eauto 6.
  - unfold createUrlWithUniqueShortId in H.
    apply attemptLoop_outcome in H.
    destruct H as (n & Hn & Hd & Hlen & Hr). simpl in *.
    assert (Hnot : ~ In url (map originalUrl (urls w))).
    { intros Hin. apply find_originalUrl_In in Hin.
      destruct Hin as [row Hrow]. congruence. }
    destruct r as [id|e].
    + destruct Hr as (_ & _ & Hf1 & Hf2 & Hrows). rewrite Hrows.
      split; [exists [mkUrl id url]; split; [reflexivity|];
              constructor; [reflexivity | constructor]|].
      unfold uniqueShortIds, uniqueOriginalUrls. rewrite !map_app. simpl.
      split; [|split; [|tauto]]; intros Hnd;
        (apply NoDup_app;
         [ assumption
         | repeat constructor; intros []
         | intros x Hx [<-|[]]; contradiction ]).
    + destruct Hr as (Hrows & _). rewrite Hrows.
      split; [exists []; split; [now rewrite app_nil_r | constructor]|].
      split; [auto|]. split; [auto | tauto].
Qed.

(** All addresses: what happens to the rows, whatever the outcome. *)
Lemma resolveAll_rows (cfg : Config) (uniqueUrls : list jsstring) :
  forall (cache : JsMap.t jsstring) (w w' : World)
         (r : Result (JsMap.t jsstring)),
    resolveAll cfg uniqueUrls cache w = (r, w') ->
    (exists extra,
        urls w' = urls w ++ extra
        /\ Forall (fun row => In (originalUrl row) uniqueUrls) extra)
    /\ (uniqueShortIds (urls w) -> uniqueShortIds (urls w'))
    /\ (uniqueOriginalUrls (urls w) -> uniqueOriginalUrls (urls w')).
Proof.
  induction uniqueUrls as [|u0 us IH]; intros cache w w' r H.
  - simpl in H. unfold ret in H. inversion H; subst.
    split; [exists []; split; [now rewrite app_nil_r | constructor]|]. auto.
  - simpl in H. unfold bind in H.
    destruct (resolveOne u0 w) as [[id0|e] w1] eqn:H1;
      apply resolveOne_rows in H1;
      destruct H1 as ((x1 & U1 & F1) & S1 & O1 & _).
    + apply IH in H. destruct H as ((x2 & U2 & F2) & S2 & O2).
      split; [|auto].
      exists (x1 ++ x2). split; [now rewrite U2, U1, app_assoc|].
      apply Forall_app. split.
      * eapply Forall_impl; [|exact F1]. simpl. intros row ->. auto.
      * eapply Forall_impl; [|exact F2]. simpl. auto.
    + inversion H; subst. split; [|auto].
      exists x1. split; [assumption|].
      eapply Forall_impl; [|exact F1]. simpl. intros row ->. auto.
Qed.

(** All addresses known to the store: nothing is created. *)
Lemma resolveAll_known (cfg : Config) (uniqueUrls : list jsstring) :
  forall (cache : JsMap.t jsstring) (w : World),
    (forall u, In u uniqueUrls -> In u (map originalUrl (urls w))) ->
    exists cache' w',
      resolveAll cfg uniqueUrls cache w = (Ok cache', w')
      /\ urls w' = urls w
      /\ drawn w' = drawn w
      /\ entropy w' = entropy w
      /\ violationTarget w' = violationTarget w
      /\ calls w' = map FindFirst (rev uniqueUrls) ++ calls w
      /\ (forall u, ~ In u uniqueUrls ->
                    JsMap.get u cache' = JsMap.get u cache)
      /\ (NoDup uniqueUrls ->
          forall u, In u uniqueUrls ->
            exists row,
              find (fun r0 => Js.eqb (originalUrl r0) u) (urls w) = Some row
              /\ JsMap.get u cache'
                 = Some (BASE_URL cfg ++ js "/r/" ++ shortId row)).
Proof.
  induction uniqueUrls as [|u0 us IH]; intros cache w Hknown.
  - exists cache, w. simpl. unfold ret.
    repeat split; auto. intros _ u [].
  - assert (H0 : In u0 (map originalUrl (urls w))) by (apply Hknown; left; auto).
    destruct (find_originalUrl_In _ _ H0) as [row Hrow].
    assert (H1 : resolveOne u0 w = (Ok (shortId row), record (FindFirst u0) w)).
    { unfold resolveOne, bind, findFirst. now rewrite Hrow. }
    destruct (IH (JsMap.set u0 (BASE_URL cfg ++ js "/r/" ++ shortId row) cache)
                 (record (FindFirst u0) w))
      as (cache' & w' & Hrun & Hu & Hd & He & Hv & Hc & Hout & Hin).
    { intros u Hx. simpl. apply Hknown. right. exact Hx. }
    exists cache', w'. simpl in *.
    split; [unfold bind; rewrite H1; exact Hrun|].
    split; [assumption|]. split; [assumption|]. split; [assumption|].
    split; [assumption|].
    split; [rewrite Hc, map_app, <- app_assoc; reflexivity|].
    split.
    + intros u Hx. rewrite Hout by tauto.
      apply get_set_other. intros ->. tauto.
    + intros Hnd u Hx. inversion Hnd as [|? ? Hn0 Hnd']; subst.
      destruct Hx as [<-|Hx].
      * exists row. split; [assumption|].
        rewrite Hout by assumption. apply get_set_same.
      * now apply Hin.
Qed.

Lemma each_ext (tag : jsstring)
      (f g : JsMap.t jsstring -> JsMap.t jsstring) (doc : Node) :
  (forall attribs, In attribs (select tag doc) -> f attribs = g attribs) ->
  each tag f doc = each tag g doc.
Proof.
  induction doc as [children IH | name attribs children IH | kind data]
    using Node_forall_ind; simpl; intros Hf.
  - f_equal. induction IH as [|x l Hx _ IHl]; simpl in *; [reflexivity|].
    rewrite Hx, IHl; auto; intros a Ha; apply Hf, in_or_app; auto.
  - f_equal.
    + destruct (Js.eqb name tag); [|reflexivity].
      apply Hf. simpl. auto.
    + assert (Hf' : forall a, In a (flat_map (select tag) children) ->
                              f a = g a)
        by (intros a Ha; apply Hf, in_or_app; auto).
      clear Hf. induction IH as [|x l Hx _ IHl]; simpl in *; [reflexivity|].
      rewrite Hx, IHl; auto; intros a Ha; apply Hf', in_or_app; auto.
  - reflexivity.
Qed.

Lemma rewriteStep_ext (attr : jsstring) (c1 c2 attribs : JsMap.t jsstring) :
  (forall h, JsMap.get attr attribs = Some h ->
             isShortenable (Some h) = true ->
             JsMap.get h c1 = JsMap.get h c2) ->
  rewriteStep attr c1 attribs = rewriteStep attr c2 attribs.
Proof.
  intros H. unfold rewriteStep.
  destruct (JsMap.get attr attribs) as [h|] eqn:Hh; [|reflexivity].
  destruct (isShortenable (Some h)) eqn:Hq; [|reflexivity].
  simpl. now rewrite (H h eq_refl Hq).
Qed.

Ltac decide_tags_in H :=
  repeat match type of H with
         | context [Js.eqb (js ?a) (js ?b)] =>
             let v := eval vm_compute in (Js.eqb (js a) (js b)) in
             change (Js.eqb (js a) (js b)) with v in H
         end;
  cbv iota in H.

Lemma rewritePass_ext (c1 c2 : JsMap.t jsstring) (doc : Node) :
  (forall h, In (Some h) (hrefs doc) ->
             isShortenable (Some h) = true ->
             JsMap.get h c1 = JsMap.get h c2) ->
  rewritePass c1 doc = rewritePass c2 doc.
Proof.
  unfold hrefs, rewritePass, attrTargets. cbn [fold_left flat_map].
  intros H.
  assert (Hside : forall attr attribs,
             In (JsMap.get attr attribs)
                (map (JsMap.get (js "href")) (select (js "a") doc)
                 ++ map (JsMap.get (js "href")) (select (js "area") doc)
                 ++ map (JsMap.get (js "href")) (select (js "link") doc)
                 ++ map (JsMap.get (js "src")) (select (js "img") doc)
                 ++ map (JsMap.get (js "src")) (select (js "script") doc)
                 ++ []) ->
             rewriteStep attr c1 attribs = rewriteStep attr c2 attribs).
  { intros attr attribs Hin. apply rewriteStep_ext.
    intros h Hh Hq. apply H; [|exact Hq]. now rewrite <- Hh. }
  rewrite (@each_ext (js "a") (rewriteStep (js "href") c1)
             (rewriteStep (js "href") c2) doc).
  rewrite (@each_ext (js "area") (rewriteStep (js "href") c1)
             (rewriteStep (js "href") c2)).
  rewrite (@each_ext (js "link") (rewriteStep (js "href") c1)
             (rewriteStep (js "href") c2)).
  rewrite (@each_ext (js "img") (rewriteStep (js "src") c1)
             (rewriteStep (js "src") c2)).
  rewrite (@each_ext (js "script") (rewriteStep (js "src") c1)
             (rewriteStep (js "src") c2)).
  reflexivity.
  all: intros attribs Ha; rewrite ?select_each in Ha; decide_tags_in Ha;
    apply Hside;
    repeat first [ apply in_or_app; left; apply in_map; exact Ha
                 | apply in_or_app; right ].
Qed.

(** The shorten operation on a parsed document, with its first pass
    carried out: the distinct qualifying values, then the resolution loop
    over them, then the last pass. *)
Lemma shortenDocument_unfold (cfg : Config) (doc : Node) :
  exists ks,
    NoDup ks
    /\ (forall h, In h ks <->
                  In (Some h) (hrefs doc) /\ isShortenable (Some h) = true)
    /\ forall w,
         shortenDocument cfg doc w
         = (cache <- resolveAll cfg ks (placeholders ks) ;;
            ret (rewritePass cache doc)) w.
Proof.
  destruct (collectPass_keys doc) as (ks & Ek & Nk & Ik).
  exists ks. split; [exact Nk|]. split; [exact Ik|].
  intros w. unfold shortenDocument, resolvePass.
  rewrite Ek, keys_placeholders, arrayFromSet_distinct by assumption.
  destruct ks; reflexivity.
Qed.

Lemma shortenDocument_nothing_qualifies (cfg : Config) (doc : Node)
      (w : World) :
  (forall href, In href (hrefs doc) -> isShortenable href = false) ->
  shortenDocument cfg doc w = (Ok doc, w).
Proof.
  intros Hnone.
  destruct (shortenDocument_unfold cfg doc) as (ks & Nk & Ik & Hrun).
  rewrite Hrun. destruct ks as [|k ks].
  - unfold bind. simpl. unfold ret.
    now rewrite rewritePass_unchanged.
  - exfalso. destruct (proj1 (Ik k) (or_introl eq_refl)) as [Hin Hq].
    rewrite (Hnone _ Hin) in Hq. discriminate.
Qed.

Lemma shortenHandler_parsed (cfg : Config) (load : jsstring -> Node)
      (html : Node -> jsstring) (loadValue : jsstring -> Result Node)
      (req : Request) (doc : Node) (w : World) :
  parsedDocument load loadValue req = Some doc ->
  shortenHandler cfg load html loadValue req w
  = match shortenDocument cfg doc w with
    | (Ok doc', w') => (SendHtml (html doc'), w')
    | (Throw _, w') => (SendJson 500 (js "Internal server error"), w')
    end.
Proof.
  unfold shortenHandler.
  destruct req as [[file|]|[raw|]|body property|]; simpl parsedDocument;
    intros Hdoc; try discriminate Hdoc.
  - injection Hdoc as <-. unfold bind, ret.
    destruct (shortenDocument cfg (load file) w) as [[d|e] w']; reflexivity.
  - destruct (truthy raw); [|discriminate Hdoc]. injection Hdoc as <-.
    cbn [negb]. unfold bind, ret.
    destruct (shortenDocument cfg (load raw) w) as [[d|e] w']; reflexivity.
  - destruct (rawOf body property) as [s|json]; simpl loadRaw.
    + injection Hdoc as <-. unfold bind, ret.
      destruct (shortenDocument cfg (load s) w) as [[d|e] w']; reflexivity.
    + unfold bind, ret.
      destruct (loadValue json) as [parsed|e]; [|discriminate Hdoc].
      injection Hdoc as <-.
      destruct (shortenDocument cfg parsed w) as [[d|e] w']; reflexivity.
Qed.

Lemma shortenHandler_unparsed (cfg : Config) (load : jsstring -> Node)
      (html : Node -> jsstring) (loadValue : jsstring -> Result Node)
      (req : Request) (w : World) :
  parsedDocument load loadValue req = None ->
  shortenHandler cfg load html loadValue req w
  = (match req with
     | Multipart _ =>
         SendJson 400 (js "No file uploaded as field " ++ [34%N]
                         ++ js "file" ++ [34%N])
     | HtmlOrJson _ => SendJson 400 (js "Missing HTML content")
     | JsonObject _ _ => SendJson 500 (js "Internal server error")
     | OtherContentType => SendJson 415 (js "Unsupported content type")
     end, w).
Proof.
  unfold shortenHandler.
  destruct req as [[file|]|[raw|]|body property|]; simpl parsedDocument;
    intros Hdoc; try discriminate Hdoc; try reflexivity.
  - destruct (truthy raw); [discriminate Hdoc | reflexivity].
  - destruct (rawOf body property) as [s|json]; [discriminate Hdoc|].
    simpl loadRaw. unfold bind.
    destruct (loadValue json) as [parsed|e]; [discriminate Hdoc | reflexivity].
Qed.

(** X11. A request without a document never reaches the store: a multipart
    request without the file, and a [text/html] or JSON request whose
    [req.body?.html || req.body] is [undefined] or the empty string, are
    answered 400, any other content type 415, and the world is returned
    as it was.  No other request is answered 400 or 415: an uploaded file
    that is empty is processed, and so is a parsed JSON body whose [html]
    property is missing or empty, for the parsed object is truthy and is
    handed to cheerio; such a request is answered with a document or with
    500. *)
Theorem shorten_rejects_without_touching_the_store
        (cfg : Config) (load : jsstring -> Node) (html : Node -> jsstring)
        (loadValue : jsstring -> Result Node) (req : Request) (w : World) :
  let '(res, w') := shortenHandler cfg load html loadValue req w in
  ((req = Multipart None \/ req = HtmlOrJson None
    \/ req = HtmlOrJson (Some []))
   <-> exists error, res = SendJson 400 error)
  /\ (req = OtherContentType <-> exists error, res = SendJson 415 error)
  /\ ((exists status error,
          res = SendJson status error /\ (status = 400 \/ status = 415)%Z) ->
      w' = w)
  /\ (forall body property,
        req = JsonObject body property ->
        (exists out, res = SendHtml out)
        \/ res = SendJson 500 (js "Internal server error")).
Proof.
  destruct (parsedDocument load loadValue req) as [doc|] eqn:Hdoc.
  - rewrite (@shortenHandler_parsed cfg load html loadValue req doc w Hdoc).
    assert (Hreq : ~ (req = Multipart None \/ req = HtmlOrJson None
                      \/ req = HtmlOrJson (Some []))
                   /\ req <> OtherContentType).
    { split; [intros [E|[E|E]] | intros E]; subst req; discriminate Hdoc. }
    destruct Hreq as [Hreq Hother].
    destruct (shortenDocument cfg doc w) as [[d|e] w'].
    + split; [|split; [|split]].
      * split; [tauto | intros [error H]; discriminate H].
      * split; [tauto | intros [error H]; discriminate H].
      * intros (status & error & H & _). discriminate H.
      * intros _ _ _. left. eauto.
    + split; [|split; [|split]].
      * split; [tauto | intros [error H]; discriminate H].
      * split; [tauto | intros [error H]; discriminate H].
      * intros (status & error & H & [Hs|Hs]); subst status; discriminate H.
      * intros _ _ _. now right.
  - rewrite (@shortenHandler_unparsed cfg load html loadValue req w Hdoc).
    destruct req as [[file|]|[raw|]|body property|]; simpl in Hdoc;
      try discriminate Hdoc.
    + split; [split; eauto|]. split; [|split; [reflexivity|]].
      * split; [discriminate | intros [error H]; discriminate H].
      * intros body property H. discriminate H.
    + destruct raw as [|ch raw]; [|discriminate Hdoc].
      split; [split; eauto|]. split; [|split; [reflexivity|]].
      * split; [discriminate | intros [error H]; discriminate H].
      * intros body property H. discriminate H.
    + split; [split; eauto|]. split; [|split; [reflexivity|]].
      * split; [discriminate | intros [error H]; discriminate H].
      * intros body property H. discriminate H.
    + split; [|split; [|split]].
      * split; [intros [H|[H|H]]; discriminate H
               | intros [error H]; discriminate H].
      * split; [discriminate | intros [error H]; discriminate H].
      * intros (status & error & H & [Hs|Hs]); subst status; discriminate H.
      * intros _ _ _. now right.
    + split; [|split; [split; eauto | split; [reflexivity|]]].
      * split; [intros [H|[H|H]]; discriminate H
               | intros [error H]; discriminate H].
      * intros body property H. discriminate H.
Qed.

Lemma shortenHandler_run (cfg : Config) (load : jsstring -> Node)
      (html : Node -> jsstring) (loadValue : jsstring -> Result Node)
      (raw : jsstring) (req : Request) (w : World) :
  req = Multipart (Some raw) \/ (req = HtmlOrJson (Some raw) /\ raw <> []) ->
  shortenHandler cfg load html loadValue req w
  = match shortenDocument cfg (load raw) w with
    | (Ok doc, w') => (SendHtml (html doc), w')
    | (Throw _, w') => (SendJson 500 (js "Internal server error"), w')
    end.
Proof.
  intros Hreq. apply shortenHandler_parsed.
  destruct Hreq as [->|[-> Hne]]; [reflexivity|].
  destruct raw as [|ch raw]; [congruence | reflexivity].
Qed.

(** X12. A document in which no targeted attribute value qualifies is
    answered as parsed and serialized, and the request makes no store call
    and draws no identifier: the world is returned as it was. *)
Theorem shorten_without_links_touches_nothing
        (cfg : Config) (load : jsstring -> Node) (html : Node -> jsstring)
        (loadValue : jsstring -> Result Node)
        (raw : jsstring) (req : Request) (w : World) :
  req = Multipart (Some raw) \/ (req = HtmlOrJson (Some raw) /\ raw <> []) ->
  (forall href, In href (hrefs (load raw)) -> isShortenable href = false) ->
  shortenHandler cfg load html loadValue req w
  = (SendHtml (html (load raw)), w).
Proof.
  intros Hreq Hnone.
  rewrite (@shortenHandler_run cfg load html loadValue raw req w Hreq).
  now rewrite shortenDocument_nothing_qualifies.
Qed.

Lemma shorten_without_links_touches_nothing_witness :
  let load := Sample.parseOf Sample.plainLinks in
  let raw := Sample.render Sample.plainLinks in
  let w := Sample.world Sample.fieldArray [mkUrl Sample.idC Sample.urlC]
             [Sample.idA] in
  load raw = Sample.plainLinks
  /\ hrefs (load raw)
     = [Some (js "mailto:me@example.com"); Some (js "tel:+15550100");
        Some (js "#top"); None; Some (js "/site.css");
        Some (js "logo.png")]
  /\ (forall href, In href (hrefs (load raw)) -> isShortenable href = false)
  /\ shortenHandler (Sample.cfg 1000) load Sample.render Sample.parseValue
       (Multipart (Some raw)) w
     = (SendHtml raw, w).
Proof.
  intros load raw w.
  assert (Hload : load raw = Sample.plainLinks) by (vm_compute; reflexivity).
  assert (Hrefs : hrefs (load raw)
                  = [Some (js "mailto:me@example.com");
                     Some (js "tel:+15550100"); Some (js "#top"); None;
                     Some (js "/site.css"); Some (js "logo.png")])
    by (vm_compute; reflexivity).
  assert (Hnone : forall href, In href (hrefs (load raw)) ->
                               isShortenable href = false).
  { intros href Hin. rewrite Hrefs in Hin.
    repeat (destruct Hin as [<-|Hin]; [vm_compute; reflexivity|]).
    destruct Hin. }
  split; [exact Hload|]. split; [exact Hrefs|]. split; [exact Hnone|].
  pose proof (@shorten_without_links_touches_nothing (Sample.cfg 1000)
                load Sample.render Sample.parseValue raw
                (Multipart (Some raw)) w (or_introl eq_refl) Hnone) as Hrun.
  rewrite Hload in Hrun. exact Hrun.
Defined.

(** X13. When every qualifying address of a document already has a row,
    the shorten operation always succeeds, creates no row, draws no
    identifier and makes one lookup per distinct address and no other
    call; each address is rewritten to the redirect URL of the [shortId]
    of the row the lookup finds. *)
Theorem known_addresses_are_reused
        (cfg : Config) (doc : Node) (w : World) :
  (forall u, In (Some u) (hrefs doc) -> isShortenable (Some u) = true ->
             In u (map originalUrl (urls w))) ->
  exists doc' w',
    shortenDocument cfg doc w = (Ok doc', w')
    /\ urls w' = urls w
    /\ drawn w' = drawn w
    /\ (forall u, attemptsFor u (calls w') = attemptsFor u (calls w))
    /\ (forall u, In (Some u) (hrefs doc) -> isShortenable (Some u) = true ->
                  lookupsOf u (calls w') = S (lookupsOf u (calls w)))
    /\ (forall i u row,
          nth_error (hrefs doc) i = Some (Some u) ->
          isShortenable (Some u) = true ->
          find (fun r => Js.eqb (originalUrl r) u) (urls w) = Some row ->
          nth_error (hrefs doc') i
          = Some (Some (BASE_URL cfg ++ js "/r/" ++ shortId row))).
Proof.
  intros Hknown.
  destruct (shortenDocument_unfold cfg doc) as (ks & Nk & Ik & Hrun).
  destruct (@resolveAll_known cfg ks (placeholders ks) w)
    as (cache & w' & Hres & Hu & Hd & _ & _ & Hc & _ & Hin).
  { intros u Hk. apply Ik in Hk. destruct Hk. now apply Hknown. }
  exists (rewritePass cache doc), w'.
  split; [rewrite Hrun; unfold bind; now rewrite Hres|].
  split; [assumption|]. split; [assumption|].
  assert (Hcount : forall (f : StoreCall -> bool) l,
             List.length (filter f (map FindFirst l ++ calls w))
             = List.length (filter (fun u => f (FindFirst u)) l)
               + List.length (filter f (calls w))).
  { intros f l. rewrite filter_app, length_app. f_equal.
    induction l as [|x l IHl]; simpl; [reflexivity|].
    destruct (f (FindFirst x)); simpl; now rewrite IHl. }
  split; [|split].
  - intros u. unfold attemptsFor. rewrite Hc, Hcount.
    assert (Hf : forall l : list jsstring,
               filter (fun _ : jsstring => false) l = [])
      by (induction l; simpl; auto).
    now rewrite Hf.
  - intros u Hu0 Hq. unfold lookupsOf. rewrite Hc, Hcount.
    assert (Hk : In u ks) by (apply Ik; auto).
    assert (Hone : List.length (filter (fun u0 => Js.eqb u0 u) (rev ks)) = 1).
    { assert (Hnd : NoDup (rev ks)) by now apply NoDup_rev.
      assert (Hin' : In u (rev ks)) by now apply in_rev in Hk.
      clear -Hnd Hin'. induction (rev ks) as [|x l IHl]; [destruct Hin'|].
      inversion Hnd as [|? ? Hn Hd]; subst. simpl.
      destruct (Js.eqb x u) eqn:E.
      - apply eqb_eq in E. subst. simpl. f_equal.
        assert (Hnone : forall l0, ~ In u l0 ->
                          filter (fun u0 => Js.eqb u0 u) l0 = []).
        { induction l0 as [|y l0 IH0]; simpl; [reflexivity|].
          intros Hy. destruct (Js.eqb y u) eqn:Ey.
          - apply eqb_eq in Ey. subst. tauto.
          - apply IH0. tauto. }
        now rewrite Hnone.
      - apply eqb_neq in E. destruct Hin' as [|Hin']; [congruence|]. auto. }
    rewrite Hone. reflexivity.
  - intros i u row Hi Hq Hrow. rewrite hrefs_rewritePass, nth_error_map, Hi.
    simpl. unfold rewriteHref. rewrite Hq. simpl.
    assert (Hk : In u ks).
    { apply Ik. split; [|assumption]. eapply nth_error_In; eauto. }
    destruct (Hin Nk u Hk) as (row' & Hrow' & Hg).
    rewrite Hrow in Hrow'. inversion Hrow'; subst row'.
    now rewrite Hg, truthy_shortUrl.
Qed.

Lemma known_addresses_are_reused_witness :
  let cfg := Sample.cfg 1000 in
  let rows := [mkUrl Sample.idC Sample.urlA; mkUrl Sample.idA Sample.urlB] in
  let w := Sample.world Sample.fieldArray rows [Sample.idB] in
  (forall u, In (Some u) (hrefs Sample.doc) -> isShortenable (Some u) = true ->
             In u (map originalUrl (urls w)))
  /\ exists doc' w',
       shortenDocument cfg Sample.doc w = (Ok doc', w')
       /\ urls w' = rows
       /\ drawn w' = 0
       /\ nth_error (hrefs doc') 0
          = Some (Some (js "http://localhost:4000/r/m2Nf8sYe")).
Proof.
  intros cfg rows w.
  assert (Hknown : forall u, In (Some u) (hrefs Sample.doc) ->
                     isShortenable (Some u) = true ->
                     In u (map originalUrl (urls w))).
  { intros u Hu Hq. vm_compute in Hu.
    destruct Hu as [Hu|[Hu|[Hu|[Hu|[]]]]]; inversion Hu; subst u;
      try (vm_compute; tauto).
    vm_compute in Hq. discriminate Hq. }
  split; [exact Hknown|].
  destruct (@known_addresses_are_reused cfg Sample.doc w Hknown)
    as (doc' & w' & Hrun & Hu & Hd & _ & _ & Hmap).
  exists doc', w'. split; [exact Hrun|]. split; [exact Hu|].
  split; [exact Hd|].
  exact (Hmap 0 Sample.urlA (mkUrl Sample.idC Sample.urlA)
           eq_refl eq_refl eq_refl).
Defined.

(** X14. Shortening the same document again, in the world the first
    shorten operation left and with no duplicate [originalUrl] at the
    start, gives the same document, creates no row and draws no
    identifier. *)
Theorem shortening_again_gives_the_same_document
        (cfg : Config) (doc doc' : Node) (w w' : World) :
  uniqueOriginalUrls (urls w) ->
  shortenDocument cfg doc w = (Ok doc', w') ->
  exists w'',
    shortenDocument cfg doc w' = (Ok doc', w'')
    /\ urls w'' = urls w'
    /\ drawn w'' = drawn w'.
Proof.
  intros Huniq H.
  destruct (shortenDocument_unfold cfg doc) as (ks & Nk & Ik & Hrun).
  rewrite Hrun in H. unfold bind in H.
  destruct (resolveAll cfg ks (placeholders ks) w) as [[cache|e] w1] eqn:Hr;
    [|discriminate].
  unfold ret in H. inversion H; subst doc' w1. clear H.
  destruct (@resolveAll_effect cfg ks (placeholders ks) cache w w' Nk Hr)
    as (Hin & _ & _ & _).
  destruct (@resolveAll_rows cfg ks (placeholders ks) w w' (Ok cache) Hr)
    as (_ & _ & Huniq').
  specialize (Huniq' Huniq).
  destruct (@resolveAll_known cfg ks (placeholders ks) w')
    as (cache2 & w2 & Hres & Hu & Hd & _ & _ & _ & _ & Hin2).
  { intros u Hk. destruct (Hin u Hk) as (_ & _ & id & _ & Hrow).
    change u with (originalUrl (mkUrl id u)). now apply in_map. }
  exists w2. split; [|split; assumption].
  rewrite Hrun. unfold bind. rewrite Hres. unfold ret. f_equal. f_equal.
  apply rewritePass_ext. intros h Hh Hq.
  assert (Hk : In h ks) by (apply Ik; auto).
  destruct (Hin h Hk) as (_ & _ & id & Hg & Hrow).
  destruct (Hin2 Nk h Hk) as (row & Hfind & Hg2).
  rewrite (@find_originalUrl_unique id h (urls w') Huniq' Hrow) in Hfind.
  inversion Hfind; subst row. cbn [shortId] in Hg2.
  now rewrite Hg, Hg2.
Qed.

Lemma shortening_again_gives_the_same_document_witness :
  let cfg := Sample.cfg 1000 in
  let w := Sample.world Sample.fieldArray [] [Sample.idA; Sample.idB] in
  let doc' := fst (shortenDocument cfg Sample.doc w) in
  let w' := snd (shortenDocument cfg Sample.doc w) in
  uniqueOriginalUrls (urls w)
  /\ exists d w'',
       shortenDocument cfg Sample.doc w = (Ok d, w')
       /\ shortenDocument cfg Sample.doc w' = (Ok d, w'')
       /\ urls w'' = [mkUrl Sample.idA Sample.urlA; mkUrl Sample.idB Sample.urlB]
       /\ drawn w'' = 2.
Proof.
  intros cfg w doc' w'.
  assert (Huniq : uniqueOriginalUrls (urls w)) by constructor.
  split; [exact Huniq|].
  destruct doc' as [d|e] eqn:Hd; [|discriminate Hd].
  assert (Hrun : shortenDocument cfg Sample.doc w = (Ok d, w')).
  { rewrite (surjective_pairing (shortenDocument cfg Sample.doc w)).
    fold doc'. fold w'. now rewrite Hd. }
  destruct (@shortening_again_gives_the_same_document cfg Sample.doc d w w'
              Huniq Hrun) as (w'' & Hagain & Hu & Hdr).
  exists d, w''. split; [exact Hrun|]. split; [exact Hagain|].
  split; [rewrite Hu; reflexivity | rewrite Hdr; reflexivity].
Defined.

Lemma NoDup_map_injective {A B} (f : A -> B) (l : list A) (a b : A) :
  NoDup (map f l) -> In a l -> In b l -> f a = f b -> a = b.
Proof.
  induction l as [|x l IH]; simpl; [tauto|].
  intros Hnd Ha Hb E. inversion Hnd as [|? ? Hn Hd]; subst.
  destruct Ha as [->|Ha], Hb as [->|Hb]; auto.
  - exfalso. apply Hn. rewrite E. now apply in_map.
  - exfalso. apply Hn. rewrite <- E. now apply in_map.
Qed.

(** X15. In a shorten operation that answers with a document, on a store
    with no duplicate [shortId], two different qualifying addresses are
    never rewritten to the same redirect URL. *)
Theorem different_addresses_get_different_urls
        (cfg : Config) (doc doc' : Node) (w w' : World)
        (u1 u2 : jsstring) (i1 i2 : nat) :
  uniqueShortIds (urls w) ->
  shortenDocument cfg doc w = (Ok doc', w') ->
  nth_error (hrefs doc) i1 = Some (Some u1) ->
  nth_error (hrefs doc) i2 = Some (Some u2) ->
  isShortenable (Some u1) = true ->
  isShortenable (Some u2) = true ->
  u1 <> u2 ->
  nth_error (hrefs doc') i1 <> nth_error (hrefs doc') i2.
Proof.
  intros Hnd H H1 H2 Hq1 Hq2 Hne.
  destruct (@shortenDocument_inv cfg doc doc' w w' H)
    as (cache & -> & Hall & _ & Hnd').
  specialize (Hnd' Hnd).
  destruct (Hall u1 (nth_error_In _ _ H1) Hq1)
    as (_ & _ & _ & id1 & Hg1 & Hrow1).
  destruct (Hall u2 (nth_error_In _ _ H2) Hq2)
    as (_ & _ & _ & id2 & Hg2 & Hrow2).
  rewrite hrefs_rewritePass, !nth_error_map, H1, H2. simpl.
  unfold rewriteHref. rewrite Hq1, Hq2, Hg1, Hg2, !truthy_shortUrl. simpl.
  intros E. inversion E as [E'].
  apply app_inv_head in E'.
  assert (Hid : id1 = id2) by (now inversion E'). subst id2.
  apply Hne.
  pose proof (@NoDup_map_injective _ _ shortId (urls w')
                (mkUrl id1 u1) (mkUrl id1 u2) Hnd' Hrow1 Hrow2 eq_refl) as Hr.
  now inversion Hr.
Qed.

Lemma different_addresses_get_different_urls_witness :
  let cfg := Sample.cfg 1000 in
  let w := Sample.world Sample.fieldArray [] [Sample.idA; Sample.idB] in
  let doc' := fst (shortenDocument cfg Sample.doc w) in
  let w' := snd (shortenDocument cfg Sample.doc w) in
  uniqueShortIds (urls w)
  /\ nth_error (hrefs Sample.doc) 0 = Some (Some Sample.urlA)
  /\ nth_error (hrefs Sample.doc) 3 = Some (Some Sample.urlB)
  /\ Sample.urlA <> Sample.urlB
  /\ exists d,
       shortenDocument cfg Sample.doc w = (Ok d, w')
       /\ nth_error (hrefs d) 0 <> nth_error (hrefs d) 3.
Proof.
  intros cfg w doc' w'.
  assert (Hnd : uniqueShortIds (urls w)) by constructor.
  assert (Hne : Sample.urlA <> Sample.urlB) by discriminate.
  split; [exact Hnd|]. split; [reflexivity|]. split; [reflexivity|].
  split; [exact Hne|].
  destruct doc' as [d|e] eqn:Hd; [|discriminate Hd].
  assert (Hrun : shortenDocument cfg Sample.doc w = (Ok d, w')).
  { rewrite (surjective_pairing (shortenDocument cfg Sample.doc w)).
    fold doc'. fold w'. now rewrite Hd. }
  exists d. split; [exact Hrun|].
  exact (@different_addresses_get_different_urls cfg Sample.doc d w w'
           Sample.urlA Sample.urlB 0 3 Hnd Hrun eq_refl eq_refl
           eq_refl eq_refl Hne).
Defined.

Lemma parsedDocument_of_text (load : jsstring -> Node)
      (loadValue : jsstring -> Result Node) (req : Request) (doc : Node)
      (raw : jsstring) :
  parsedDocument load loadValue req = Some doc ->
  req = Multipart (Some raw) \/ req = HtmlOrJson (Some raw) ->
  doc = load raw.
Proof.
  intros Hdoc [->| ->]; simpl in Hdoc.
  - now injection Hdoc as <-.
  - destruct (truthy raw); [now injection Hdoc as <- | discriminate Hdoc].
Qed.

(** X16. Whatever the request and whatever the answer, a 500 included,
    the shorten handler only appends rows: the rows that were there stay,
    in place and unchanged; every row it adds has an address that
    qualifies and occurs in the document parsed from the request (the
    uploaded file or the text of the body, where the request carries
    one); and neither column gains a duplicate. *)
Theorem shorten_only_appends_qualifying_rows
        (cfg : Config) (load : jsstring -> Node) (html : Node -> jsstring)
        (loadValue : jsstring -> Result Node) (req : Request) (w : World) :
  let '(_, w') := shortenHandler cfg load html loadValue req w in
  (exists extra,
      urls w' = urls w ++ extra
      /\ forall row, In row extra ->
           isShortenable (Some (originalUrl row)) = true
           /\ exists doc,
                parsedDocument load loadValue req = Some doc
                /\ (forall raw,
                      req = Multipart (Some raw)
                      \/ req = HtmlOrJson (Some raw) ->
                      doc = load raw)
                /\ In (Some (originalUrl row)) (hrefs doc))
  /\ (uniqueShortIds (urls w) -> uniqueShortIds (urls w'))
  /\ (uniqueOriginalUrls (urls w) -> uniqueOriginalUrls (urls w')).
Proof.
  destruct (parsedDocument load loadValue req) as [doc|] eqn:Hdoc.
  - rewrite (@shortenHandler_parsed cfg load html loadValue req doc w Hdoc).
    destruct (shortenDocument_unfold cfg doc) as (ks & Nk & Ik & Hrun).
    rewrite Hrun. unfold bind.
    destruct (resolveAll cfg ks (placeholders ks) w) as [r w'] eqn:Hr.
    destruct (@resolveAll_rows cfg ks (placeholders ks) w w' r Hr)
      as ((extra & Hu & Hall) & Hs & Ho).
    assert (Hgoal : (exists extra0,
                        urls w' = urls w ++ extra0
                        /\ forall row, In row extra0 ->
                             isShortenable (Some (originalUrl row)) = true
                             /\ exists doc0,
                                  Some doc = Some doc0
                                  /\ (forall raw,
                                        req = Multipart (Some raw)
                                        \/ req = HtmlOrJson (Some raw) ->
                                        doc0 = load raw)
                                  /\ In (Some (originalUrl row))
                                        (hrefs doc0))
                    /\ (uniqueShortIds (urls w) -> uniqueShortIds (urls w'))
                    /\ (uniqueOriginalUrls (urls w) ->
                        uniqueOriginalUrls (urls w'))).
    { split; [|auto]. exists extra. split; [exact Hu|].
      intros row Hrow. rewrite Forall_forall in Hall.
      apply Hall, Ik in Hrow. destruct Hrow as [Hin Hq].
      split; [exact Hq|]. exists doc. split; [reflexivity|].
      split; [|exact Hin].
      intros raw. now apply parsedDocument_of_text with (loadValue := loadValue). }
    destruct r as [cache|e]; exact Hgoal.
  - rewrite (@shortenHandler_unparsed cfg load html loadValue req w Hdoc).
    split; [|auto]. exists []. split; [now rewrite app_nil_r|].
    intros row [].
Qed.

(* ------------------------------------------------------------------ *)
(** ** Qualification: letter case, surrounding white space *)

Lemma isWhiteSpace_printable (c : N) :
  (33 <= c <= 159)%N -> isWhiteSpace c = false.
Proof.
  intros H. unfold isWhiteSpace.
  assert (H1 : (c <=? 13)%N = false) by (apply N.leb_gt; lia).
  assert (H2 : (c =? 32)%N = false) by (apply N.eqb_neq; lia).
  assert (H3 : (c =? 160)%N = false) by (apply N.eqb_neq; lia).
  assert (H4 : (c =? 5760)%N = false) by (apply N.eqb_neq; lia).
  assert (H5 : (8192 <=? c)%N = false) by (apply N.leb_gt; lia).
  assert (H6 : (c =? 8232)%N = false) by (apply N.eqb_neq; lia).
  assert (H7 : (c =? 8233)%N = false) by (apply N.eqb_neq; lia).
  assert (H8 : (c =? 8239)%N = false) by (apply N.eqb_neq; lia).
  assert (H9 : (c =? 8287)%N = false) by (apply N.eqb_neq; lia).
  assert (H10 : (c =? 12288)%N = false) by (apply N.eqb_neq; lia).
  assert (H11 : (c =? 65279)%N = false) by (apply N.eqb_neq; lia).
  rewrite H1, H2, H3, H4, H5, H6, H7, H8, H9, H10, H11.
  now rewrite andb_false_r.
Qed.

Lemma lowerUnit_cases (c : N) :
  ((65 <= c <= 90)%N /\ lowerUnit c = (c + 32)%N)
  \/ (~ (65 <= c <= 90)%N /\ lowerUnit c = c).
Proof.
  unfold lowerUnit.
  destruct (N.leb_spec 65 c), (N.leb_spec c 90); simpl; [left | right ..];
    split; auto; lia.
Qed.

Lemma isWhiteSpace_lowerUnit (c : N) :
  isWhiteSpace (lowerUnit c) = isWhiteSpace c.
Proof.
  destruct (lowerUnit_cases c) as [[Hr ->]|[_ ->]]; [|reflexivity].
  rewrite !isWhiteSpace_printable; [reflexivity | lia | lia].
Qed.

Lemma lowerUnit_idempotent (c : N) : lowerUnit (lowerUnit c) = lowerUnit c.
Proof.
  destruct (lowerUnit_cases c) as [[Hr E]|[Hn E]]; rewrite E.
  - destruct (lowerUnit_cases (c + 32)) as [[Hr' _]|[_ E']]; [lia | exact E'].
  - exact E.
Qed.

Lemma trimStart_toLowerCase (s : jsstring) :
  trimStart (toLowerCase s) = toLowerCase (trimStart s).
Proof.
  induction s as [|c s IH]; [reflexivity|].
  change (toLowerCase (c :: s)) with (lowerUnit c :: toLowerCase s).
  cbn [trimStart]. rewrite isWhiteSpace_lowerUnit.
  destruct (isWhiteSpace c); [exact IH | reflexivity].
Qed.

Lemma trimEnd_toLowerCase (s : jsstring) :
  trimEnd (toLowerCase s) = toLowerCase (trimEnd s).
Proof.
  induction s as [|c s IH]; [reflexivity|].
  change (toLowerCase (c :: s)) with (lowerUnit c :: toLowerCase s).
  cbn [trimEnd]. rewrite IH, isWhiteSpace_lowerUnit.
  destruct (trimEnd s); [|reflexivity].
  cbn [toLowerCase map]. destruct (isWhiteSpace c); reflexivity.
Qed.

Lemma trim_toLowerCase (s : jsstring) :
  trim (toLowerCase s) = toLowerCase (trim s).
Proof.
  unfold trim. now rewrite trimStart_toLowerCase, trimEnd_toLowerCase.
Qed.

Lemma toLowerCase_idempotent (s : jsstring) :
  toLowerCase (toLowerCase s) = toLowerCase s.
Proof.
  unfold toLowerCase. rewrite map_map. apply map_ext.
  apply lowerUnit_idempotent.
Qed.

Lemma trimStart_space_app (pre s : jsstring) :
  Forall (fun c => isWhiteSpace c = true) pre ->
  trimStart (pre ++ s) = trimStart s.
Proof.
  induction 1 as [|c pre Hc _ IH]; simpl; [reflexivity|]. now rewrite Hc.
Qed.

Lemma trimEnd_space (post : jsstring) :
  Forall (fun c => isWhiteSpace c = true) post -> trimEnd post = [].
Proof.
  induction 1 as [|c post Hc _ IH]; simpl; [reflexivity|].
  now rewrite IH, Hc.
Qed.

Lemma trimEnd_app_space (s post : jsstring) :
  Forall (fun c => isWhiteSpace c = true) post ->
  trimEnd (s ++ post) = trimEnd s.
Proof.
  intros H. induction s as [|c s IH]; simpl.
  - now apply trimEnd_space.
  - now rewrite IH.
Qed.

Lemma trimStart_app_space (s post : jsstring) :
  Forall (fun c => isWhiteSpace c = true) post ->
  trimStart (s ++ post)
  = match trimStart s with
    | [] => []
    | t => t ++ post
    end.
Proof.
  intros H. induction s as [|c s IH]; simpl.
  - replace (trimStart post) with (@nil N); [reflexivity|].
    clear -H. induction H as [|c post Hc _ IH]; simpl; [reflexivity|].
    now rewrite Hc.
  - destruct (isWhiteSpace c); [exact IH | reflexivity].
Qed.

Lemma trim_outer_space (pre s post : jsstring) :
  Forall (fun c => isWhiteSpace c = true) pre ->
  Forall (fun c => isWhiteSpace c = true) post ->
  trim (pre ++ s ++ post) = trim s.
Proof.
  intros Hpre Hpost. unfold trim.
  rewrite trimStart_space_app by assumption.
  rewrite trimStart_app_space by assumption.
  destruct (trimStart s) as [|c t]; [reflexivity|].
  now apply trimEnd_app_space.
Qed.

Lemma isShortenable_by_trimmed_lower (s : jsstring) :
  isShortenable (Some s)
  = startsWith (toLowerCase (trim s)) (js "http://")
    || startsWith (toLowerCase (trim s)) (js "https://").
Proof.
  unfold isShortenable. destruct s as [|c s]; [reflexivity|].
  cbn [truthy negb]. cbv zeta.
  set (lower := toLowerCase (trim (c :: s))).
  destruct (startsWith lower (js "http://") || startsWith lower (js "https://"))
    eqn:E.
  - destruct (http_excludes_other_schemes _ E) as (-> & -> & -> & ->).
    reflexivity.
  - destruct (startsWith lower (js "mailto:")); [reflexivity|].
    destruct (startsWith lower (js "tel:")); [reflexivity|].
    destruct (startsWith lower (js "javascript:")); [reflexivity|].
    destruct (startsWith lower (js "#")); reflexivity.
Qed.

(** X17. Whether a value qualifies depends neither on the case of its Basic
    Latin letters nor on white space around it: two values with the same
    lower-case form qualify alike, also when one of them is wrapped in
    white space. *)
Theorem isShortenable_ignores_case_and_outer_space
        (s s' pre post : jsstring) :
  toLowerCase s = toLowerCase s' ->
  Forall (fun c => isWhiteSpace c = true) pre ->
  Forall (fun c => isWhiteSpace c = true) post ->
  isShortenable (Some (pre ++ s' ++ post)) = isShortenable (Some s).
Proof.
  intros Hcase Hpre Hpost.
  rewrite !isShortenable_by_trimmed_lower.
  rewrite trim_outer_space by assumption.
  now rewrite <- !trim_toLowerCase, Hcase.
Qed.

Lemma isShortenable_ignores_case_and_outer_space_witness :
  toLowerCase (js "https://example.com/A") = toLowerCase (js "HTTPS://Example.COM/a")
  /\ isShortenable (Some (js "https://example.com/A")) = true
  /\ isShortenable
       (Some ([9; 32]%N ++ js "HTTPS://Example.COM/a" ++ [160; 10]%N)) = true.
Proof.
  assert (Hcase : toLowerCase (js "https://example.com/A")
                  = toLowerCase (js "HTTPS://Example.COM/a")) by reflexivity.
  split; [exact Hcase|]. split; [reflexivity|].
  rewrite (@isShortenable_ignores_case_and_outer_space
             (js "https://example.com/A") (js "HTTPS://Example.COM/a")
             [9; 32]%N [160; 10]%N Hcase).
  - reflexivity.
  - repeat constructor.
  - repeat constructor.
Defined.

Lemma startsWith_split (s p : jsstring) :
  startsWith s p = true -> exists r, s = p ++ r.
Proof.
  revert s. induction p as [|c p IH]; intros s.
  - intros _. now exists s.
  - destruct s as [|d s]; simpl; [discriminate|].
    intros H. apply andb_true_iff in H. destruct H as [Hd Hs].
    apply N.eqb_eq in Hd. subst d.
    destruct (IH s Hs) as [r ->]. now exists r.
Qed.

Lemma startsWith_app (p r : jsstring) : startsWith (p ++ r) p = true.
Proof.
  induction p as [|c p IH]; simpl; [destruct r; reflexivity|].
  now rewrite N.eqb_refl.
Qed.

Lemma trimEnd_keeps_prefix (p x : jsstring) :
  Forall (fun c => isWhiteSpace c = false) p ->
  exists t, trimEnd (p ++ x) = p ++ t.
Proof.
  induction 1 as [|c p Hc _ IH]; simpl.
  - now exists (trimEnd x).
  - destruct IH as [t Ht]. rewrite Ht.
    destruct (p ++ t) as [|d l] eqn:E.
    + rewrite Hc. apply app_eq_nil in E. destruct E as [-> ->].
      now exists [].
    + exists t. now rewrite <- E.
Qed.

Lemma trim_keeps_prefix (c : N) (p x : jsstring) :
  Forall (fun c => isWhiteSpace c = false) (c :: p) ->
  exists t, trim ((c :: p) ++ x) = (c :: p) ++ t.
Proof.
  intros H. unfold trim.
  assert (Hs : trimStart ((c :: p) ++ x) = (c :: p) ++ x).
  { simpl. inversion H; subst. now rewrite H2. }
  rewrite Hs. now apply trimEnd_keeps_prefix.
Qed.

(** X18. When [BASE_URL] begins with [http://] or [https://], in any letter
    case, every redirect URL the shorten handler writes qualifies for
    shortening itself. *)
Theorem redirect_urls_qualify_themselves (cfg : Config) (id : jsstring) :
  startsWith (toLowerCase (BASE_URL cfg)) (js "http://") = true
  \/ startsWith (toLowerCase (BASE_URL cfg)) (js "https://") = true ->
  isShortenable (Some (BASE_URL cfg ++ js "/r/" ++ id)) = true.
Proof.
  intros H.
  rewrite isShortenable_by_trimmed_lower, <- trim_toLowerCase.
  assert (Hsplit : toLowerCase (BASE_URL cfg ++ js "/r/" ++ id)
                   = toLowerCase (BASE_URL cfg)
                       ++ toLowerCase (js "/r/" ++ id)) by apply map_app.
  rewrite Hsplit. apply orb_true_iff.
  destruct H as [H|H]; [left | right];
    apply startsWith_split in H; destruct H as [r ->];
    rewrite <- app_assoc.
  - destruct (@trim_keeps_prefix 104%N (js "ttp://")
                (r ++ toLowerCase (js "/r/" ++ id))) as [t Ht].
    { repeat constructor. }
    change (104%N :: js "ttp://") with (js "http://") in Ht.
    rewrite Ht. apply startsWith_app.
  - destruct (@trim_keeps_prefix 104%N (js "ttps://")
                (r ++ toLowerCase (js "/r/" ++ id))) as [t Ht].
    { repeat constructor. }
    change (104%N :: js "ttps://") with (js "https://") in Ht.
    rewrite Ht. apply startsWith_app.
Qed.

Lemma redirect_urls_qualify_themselves_witness :
  startsWith (toLowerCase (BASE_URL (Sample.cfg 1000))) (js "http://") = true
  /\ isShortenable (Some (js "http://localhost:4000/r/Ab3_xK-9")) = true.
Proof.
  split; [reflexivity|].
  exact (@redirect_urls_qualify_themselves (Sample.cfg 1000) Sample.idA
           (or_introl eq_refl)).
Defined.

(* ------------------------------------------------------------------ *)
(** ** The first version of the server against the current one *)

(** X19. Whenever the cache misses, the redirect handler answers what the
    first version of the handler, which has no cache, answers from the
    store, and leaves the world in the same state. *)
Theorem redirect_agrees_with_first_version_on_miss
        (cfg : Config) (id : jsstring) (now now' now'' : Z)
        (c : Cache) (w : World) :
  fst (cacheGet cfg id now now' c) = None ->
  let '(res, _, w') := redirectHandler cfg id now now' now'' c w in
  legacyRedirectHandler id w = (Ok res, w').
Proof.
  intros Hmiss. rewrite redirectHandler_miss by assumption.
  unfold legacyRedirectHandler, bind, findUnique, ret.
  destruct (find _ (urls w)); reflexivity.
Qed.

Lemma redirect_agrees_with_first_version_on_miss_witness :
  let w := Sample.world Sample.fieldArray [mkUrl Sample.idA Sample.urlA] [] in
  let c := [(Sample.idA, mkEntry None 100)] in
  fst (cacheGet (Sample.cfg 2) Sample.idA 100 100 c) = None
  /\ legacyRedirectHandler Sample.idA w
     = (Ok (RedirectTo Sample.urlA), record (FindUnique Sample.idA) w)
  /\ fst (fst (redirectHandler (Sample.cfg 2) Sample.idA 100 100 100 c w))
     = RedirectTo Sample.urlA.
Proof.
  intros w c. split; [reflexivity|]. split; [|reflexivity].
  exact (@redirect_agrees_with_first_version_on_miss (Sample.cfg 2)
           Sample.idA 100 100 100 c w eq_refl).
Defined.

Lemma legacyResolveOne_ok (url id : jsstring) (w w1 : World) :
  legacyResolveOne url w = (Ok id, w1) -> resolveOne url w = (Ok id, w1).
Proof.
  intros H. unfold resolveOne, bind, findFirst.
  unfold legacyResolveOne, bind, findFirst in H.
  destruct (find _ (urls w)) as [row|]; [exact H|].
  unfold createUrlWithUniqueShortId.
  rewrite (attemptLoop_step url 8 5 None (record (FindFirst url) w)).
  cbv zeta. unfold nanoid in H. cbn [fst snd] in *.
  cbn [entropy drawn record] in *.
  destruct (create (entropy w (drawn w)) url _) as [[row|e] w2];
    [|discriminate].
  unfold ret in H. exact H.
Qed.

Lemma legacyResolveAll_ok (cfg : Config) (uniqueUrls : list jsstring) :
  forall (cache cache' : JsMap.t jsstring) (w w' : World),
    legacyResolveAll cfg uniqueUrls cache w = (Ok cache', w') ->
    resolveAll cfg uniqueUrls cache w = (Ok cache', w').
Proof.
  induction uniqueUrls as [|u us IH]; intros cache cache' w w' H.
  - exact H.
  - simpl in *. unfold bind in *.
    destruct (legacyResolveOne u w) as [[id|e] w1] eqn:H1; [|discriminate].
    rewrite (legacyResolveOne_ok _ _ H1). now apply IH.
Qed.

(** X20. Retrying only adds successes: whenever the shorten operation of
    the first version, which tries one identifier per address, answers
    with a document, the current operation gives the same document and
    leaves the world in the same state. *)
Theorem first_version_success_is_kept
        (cfg : Config) (doc doc' : Node) (w w' : World) :
  legacyShortenDocument cfg doc w = (Ok doc', w') ->
  shortenDocument cfg doc w = (Ok doc', w').
Proof.
  unfold legacyShortenDocument, shortenDocument, resolvePass.
  cbv zeta. unfold bind. intros H.
  destruct (legacyResolveAll cfg (arrayFromSet (JsMap.keys (collectPass doc)))
              (collectPass doc) w) as [[cache|e] w1] eqn:Hr; [|discriminate].
  apply legacyResolveAll_ok in Hr.
  destruct (arrayFromSet (JsMap.keys (collectPass doc))) as [|u us].
  - simpl in *. unfold ret in *. inversion Hr; subst. exact H.
  - change (0 <? List.length (u :: us)) with true. cbv iota.
    now rewrite Hr.
Qed.

Lemma first_version_success_is_kept_witness :
  let cfg := Sample.cfg 1000 in
  let w := Sample.world Sample.fieldArray [] [Sample.idA; Sample.idB] in
  let doc' := fst (legacyShortenDocument cfg Sample.doc w) in
  let w' := snd (legacyShortenDocument cfg Sample.doc w) in
  exists d,
    legacyShortenDocument cfg Sample.doc w = (Ok d, w')
    /\ shortenDocument cfg Sample.doc w = (Ok d, w')
    /\ nth_error (hrefs d) 3
       = Some (Some (js "http://localhost:4000/r/Qw7pL0zT")).
Proof.
  intros cfg w doc' w'.
  destruct doc' as [d|e] eqn:Hd; [|discriminate Hd].
  assert (Hrun : legacyShortenDocument cfg Sample.doc w = (Ok d, w')).
  { rewrite (surjective_pairing (legacyShortenDocument cfg Sample.doc w)).
    fold doc'. fold w'. now rewrite Hd. }
  exists d. split; [exact Hrun|].
  split; [exact (@first_version_success_is_kept cfg Sample.doc d w w' Hrun)|].
  injection Hd as <-. reflexivity.
Defined.

(** X21. What retrying adds: for a new address, when the first identifier
    drawn is taken and the second is free, the first version fails with
    the uniqueness violation and writes no row, while the current
    allocation returns the second identifier and writes its row. *)
Theorem first_version_fails_where_retry_succeeds
        (url : jsstring) (w : World) :
  ~ In url (map originalUrl (urls w)) ->
  In (entropy w (drawn w)) (map shortId (urls w)) ->
  ~ In (entropy w (drawn w + 1)) (map shortId (urls w)) ->
  collisionIsRetried w ->
  (exists w1,
      legacyResolveOne url w
      = (Throw (uniqueViolation (violationTarget w (js "shortId"))), w1)
      /\ urls w1 = urls w)
  /\ (exists w2,
         resolveOne url w = (Ok (entropy w (drawn w + 1)), w2)
         /\ urls w2 = urls w ++ [mkUrl (entropy w (drawn w + 1)) url]).
Proof.
  intros Hurl Htaken Hfree Hret.
  pose proof (find_originalUrl_None _ _ Hurl) as Hfind.
  split.
  - unfold legacyResolveOne, bind, findFirst. rewrite Hfind.
    unfold nanoid. cbn [fst snd entropy drawn record].
    rewrite create_taken_shortId by exact Htaken.
    eexists. split; reflexivity.
  - unfold resolveOne, bind, findFirst. rewrite Hfind.
    destruct (@createUrl_after_collisions url 8 6 1
                (record (FindFirst url) w)) as (w2 & Hrun & Hrows).
    + lia.
    + exact Hret.
    + intros i Hi. assert (i = 0) by lia. subst i. simpl.
      now rewrite Nat.add_0_r.
    + exact Hfree.
    + exact Hurl.
    + exists w2. split; [exact Hrun | exact Hrows].
Qed.

Lemma first_version_fails_where_retry_succeeds_witness :
  let w := Sample.world Sample.fieldArray [mkUrl Sample.idC Sample.urlC]
             [Sample.idC; Sample.idA] in
  ~ In Sample.urlA (map originalUrl (urls w))
  /\ In (entropy w (drawn w)) (map shortId (urls w))
  /\ collisionIsRetried w
  /\ fst (legacyResolveOne Sample.urlA w)
     = Throw (uniqueViolation (Some (TargetArray [js "shortId"])))
  /\ fst (resolveOne Sample.urlA w) = Ok Sample.idA.
Proof.
  intros w.
  assert (Hurl : ~ In Sample.urlA (map originalUrl (urls w))) by not_among.
  assert (Htaken : In (entropy w (drawn w)) (map shortId (urls w)))
    by (left; reflexivity).
  assert (Hfree : ~ In (entropy w (drawn w + 1)) (map shortId (urls w)))
    by not_among.
  assert (Hret : collisionIsRetried w) by (right; reflexivity).
  split; [exact Hurl|]. split; [exact Htaken|]. split; [exact Hret|].
  destruct (@first_version_fails_where_retry_succeeds Sample.urlA w
              Hurl Htaken Hfree Hret) as ((w1 & H1 & _) & (w2 & H2 & _)).
  split; [now rewrite H1 | now rewrite H2].
Defined.
